(** * event-backend: the spatial clustering engine, the geocoding cache
    and the geocoding service

    A shallow embedding of [ClusteringService.js] ([calculateDistance],
    [UnionFind], [isValidCoordinate], [createGridIndex], [getNearbyIndices],
    [clusterEvents]), of [services/geocoding/LRUCache.ts], of
    [services/geocoding/GeocodingService.ts] ([geocode],
    [performGeocoding]) and of [config/env.ts], with the properties the
    specification states about them and further properties of the same
    code.  The file has three parts: the program, the vocabulary of the
    properties, the properties.

    Conventions of the embedding.
    - JavaScript numbers are [Num]: NaN, the two infinities, or a finite
      value.  Rounding is not modelled: a finite number is a rational and
      arithmetic on finite numbers is exact; the trigonometric part of
      [calculateDistance] is computed in the real numbers.  What rounding
      does is stated on a second model of the functions that compute
      with the coordinates, on binary64 numbers: the module [Binary64].
    - JavaScript values are [Value]; objects and arrays live in a [Heap]
      and are referred to by location, so that sharing and mutation of the
      caller's objects can be stated.  The arrays and maps that
      [clusterEvents] builds for itself and never hands out (the forest,
      the grid, the list of valid events) are plain values.
    - [console.warn] is a list of diagnostics returned next to the result;
      [generateClusterId] (time and random numbers) is a supply of labels
      [ids : nat -> string], the k-th call returning [ids k]; the results
      of [Math.random] are arguments.
    - A call returns, throws, or has no result; the last case is a [find]
      that exhausts its fuel, which the properties show never happens.
    - An [async] function is the part it runs before its [await] and the
      part it runs after it; between the two, other calls may run. *)

From Stdlib Require Import ZArith QArith Qround Qreals Reals Lra Lia.
From Stdlib Require Lqa.
From Stdlib Require PrimFloat FloatOps SpecFloat FloatAxioms.
From stdpp Require Import base option list gmap strings sorting pretty.

Local Open Scope nat_scope.

(** * The program *)

(** ** JavaScript values *)

Inductive Num : Type :=
  | NaN
  | PInf
  | NInf
  | Fin (q : Q).

Inductive Value : Type :=
  | VUndefined
  | VNull
  | VBool (b : bool)
  | VNum (n : Num)
  | VStr (s : string)
  | VRef (l : nat).

(** A plain object is a finite map from property names to values; an array
    is the list of its elements. *)
Inductive HeapObj : Type :=
  | HObj (props : gmap string Value)
  | HArr (elems : list Value).

Abbreviation Heap := (list HeapObj).

(** [!v] is [negb (truthy v)]. *)
Definition truthy (v : Value) : bool :=
  match v with
  | VUndefined | VNull => false
  | VBool b => b
  | VNum NaN => false
  | VNum (Fin q) => negb (Qeq_bool q 0)
  | VNum _ => true
  | VStr s => negb (String.eqb s "")
  | VRef _ => true
  end.

(** [v === undefined || v === null]: a property read on such a value is a
    TypeError. *)
Definition nullish (v : Value) : bool :=
  match v with
  | VUndefined | VNull => true
  | _ => false
  end.

(** [v.k] for a value that is not nullish.  Only the names [coordinates],
    [id], [latitude] and [longitude] are ever read: primitives and arrays
    have no such property. *)
Definition member (h : Heap) (v : Value) (k : string) : Value :=
  match v with
  | VRef l =>
      match h !! l with
      | Some (HObj props) => default VUndefined (props !! k)
      | _ => VUndefined
      end
  | _ => VUndefined
  end.

(** [typeof v === 'number'] *)
Definition is_number (v : Value) : bool :=
  match v with
  | VNum _ => true
  | _ => false
  end.

(** ** Comparison and arithmetic of numbers *)

(** [a <= b] *)
Definition num_le (a b : Num) : bool :=
  match a, b with
  | NaN, _ | _, NaN => false
  | NInf, _ => true
  | _, PInf => true
  | PInf, _ => false
  | _, NInf => false
  | Fin x, Fin y => Qle_bool x y
  end.

(** [a >= b] *)
Definition num_ge (a b : Num) : bool := num_le b a.

Definition num_of_Z (z : Z) : Num := Fin (inject_Z z).

(** The comparison of a value with a number literal, [v >= c] and [v <= c],
    for a value that passed the [typeof] test. *)
Definition value_num (v : Value) : Num :=
  match v with
  | VNum n => n
  | _ => NaN
  end.

(** ** [isValidCoordinate] *)

Definition isValidCoordinate (h : Heap) (coord : Value) : bool :=
  if negb (truthy coord)
     || negb (is_number (member h coord "latitude"))
     || negb (is_number (member h coord "longitude"))
  then false
  else
    let latitude := value_num (member h coord "latitude") in
    let longitude := value_num (member h coord "longitude") in
    num_ge latitude (num_of_Z (-90)%Z) && num_le latitude (num_of_Z 90%Z)
    && num_ge longitude (num_of_Z (-180)%Z) && num_le longitude (num_of_Z 180%Z).

Definition num_sign_inf (negative : bool) : Num :=
  if negative then NInf else PInf.

Definition Q_negative (x : Q) : bool := negb (Qle_bool 0 x).

(** [a * b] and [a / b].  Zero carries no sign: it behaves as +0.  The
    product and the quotient of finite numbers are exact, where the
    program rounds them to the nearest binary64 number. *)
Definition num_mul (a b : Num) : Num :=
  match a, b with
  | NaN, _ | _, NaN => NaN
  | Fin x, Fin y => Fin (x * y)
  | Fin x, PInf | PInf, Fin x =>
      if Qeq_bool x 0 then NaN else num_sign_inf (Q_negative x)
  | Fin x, NInf | NInf, Fin x =>
      if Qeq_bool x 0 then NaN else num_sign_inf (negb (Q_negative x))
  | PInf, PInf | NInf, NInf => PInf
  | PInf, NInf | NInf, PInf => NInf
  end.

Definition num_div (a b : Num) : Num :=
  match a, b with
  | NaN, _ | _, NaN => NaN
  | Fin x, Fin y =>
      if Qeq_bool y 0
      then (if Qeq_bool x 0 then NaN else num_sign_inf (Q_negative x))
      else Fin (x / y)
  | Fin _, PInf | Fin _, NInf => Fin 0
  | PInf, Fin y => num_sign_inf (Q_negative y)
  | NInf, Fin y => num_sign_inf (negb (Q_negative y))
  | _, _ => NaN
  end.

(** An integral number, as [Math.floor] returns it.  The template
    [`${row},${col}`] prints two of them; two integral numbers print the
    same text exactly when they are equal (NaN prints as "NaN"), so the
    grid is keyed by the pair itself. *)
Inductive Ix : Type :=
  | IxNaN
  | IxPInf
  | IxNInf
  | IxInt (z : Z).

#[global] Instance Ix_eq_dec : EqDecision Ix.
Proof. solve_decision. Defined.

#[global] Instance Ix_countable : Countable Ix.
Proof.
  refine (inj_countable'
            (fun i => match i with
                      | IxNaN => inl 0 | IxPInf => inl 1 | IxNInf => inl 2
                      | IxInt z => inr z
                      end)
            (fun c => match c with
                      | inl 0 => IxNaN | inl 1 => IxPInf | inl _ => IxNInf
                      | inr z => IxInt z
                      end) _).
  intros []; reflexivity.
Defined.

Definition Math_floor (a : Num) : Ix :=
  match a with
  | NaN => IxNaN
  | PInf => IxPInf
  | NInf => IxNInf
  | Fin q => IxInt (Qfloor q)
  end.

(** [row + i] for a small integer [i]: exact, as the sum of the program
    is for integers below 2^53 in absolute value. *)
Definition ix_add (a : Ix) (i : Z) : Ix :=
  match a with
  | IxInt z => IxInt (z + i)
  | _ => a
  end.

(** ** [calculateDistance] *)

(** [Math.sqrt]: NaN ([None]) on a negative argument. *)
Definition Math_sqrt (x : R) : option R :=
  if Rle_dec 0 x then Some (sqrt x) else None.

(** [Math.atan2(y, x)] on finite arguments *)
Definition Math_atan2 (y x : R) : R :=
  if Rlt_dec 0 x then atan (y / x)
  else if Rlt_dec x 0 then
    (if Rle_dec 0 y then atan (y / x) + PI else atan (y / x) - PI)%R
  else if Rlt_dec 0 y then (PI / 2)%R
  else if Rlt_dec y 0 then (- PI / 2)%R
  else 0%R.

(** The body of [calculateDistance] on the four numbers it reads, all
    finite: the distance in meters, or [None] for NaN.  The sines, the
    cosines, the square roots and the arc tangent are those of the real
    numbers; [Binary64.calculateDistance] has the rounding. *)
Definition haversine (latitude1 longitude1 latitude2 longitude2 : Q) : option R :=
  let R := 6371000%R in
  let lat1 := (Q2R latitude1 * PI / 180)%R in
  let lat2 := (Q2R latitude2 * PI / 180)%R in
  let deltaLat := ((Q2R latitude2 - Q2R latitude1) * PI / 180)%R in
  let deltaLon := ((Q2R longitude2 - Q2R longitude1) * PI / 180)%R in
  let a :=
    (sin (deltaLat / 2) * sin (deltaLat / 2) +
     cos lat1 * cos lat2 *
     sin (deltaLon / 2) * sin (deltaLon / 2))%R in
  match Math_sqrt a, Math_sqrt (1 - a) with
  | Some sqrt_a, Some sqrt_1_a =>
      let c := (2 * Math_atan2 sqrt_a sqrt_1_a)%R in
      Some (R * c)%R
  | _, _ => None
  end.

(** [calculateDistance(coord1, coord2)].  The function is applied to
    coordinate objects that passed [isValidCoordinate]; a field that is
    not a finite number makes every later value NaN. *)
Definition calculateDistance (h : Heap) (coord1 coord2 : Value) : option R :=
  match value_num (member h coord1 "latitude"),
        value_num (member h coord1 "longitude"),
        value_num (member h coord2 "latitude"),
        value_num (member h coord2 "longitude") with
  | Fin latitude1, Fin longitude1, Fin latitude2, Fin longitude2 =>
      haversine latitude1 longitude1 latitude2 longitude2
  | _, _, _, _ => None
  end.

(** [distance <= radiusInMeters] *)
Definition distance_le (distance : option R) (radiusInMeters : Num) : bool :=
  match distance, radiusInMeters with
  | Some d, Fin r => if Rle_dec d (Q2R r) then true else false
  | Some _, PInf => true
  | _, _ => false
  end.

(** ** [UnionFind] *)

Record UnionFind : Type := mkUF {
  parent : list nat;
  rank : list nat
}.

(** [new UnionFind(size)] *)
Definition UnionFind_new (size : nat) : UnionFind :=
  {| parent := imap (fun i _ => i) (replicate size 0);
     rank := replicate size 0 |}.

(** [find(x)] on the parent array, for an index of the array.  The
    recursion of the source follows parent pointers and is not structural;
    [fuel] bounds its depth, and [None] is "no result": the fuel ran out,
    or [x] is not an index of the array (the orchestrator never passes
    one).  The write [this.parent[x] = ...] happens after the recursive
    call returned, on the array that call left behind. *)
Fixpoint find_rec (fuel : nat) (p : list nat) (x : nat) : option (list nat * nat) :=
  match fuel with
  | O => None
  | S fuel' =>
      match p !! x with
      | None => None
      | Some px =>
          if decide (px = x) then Some (p, px)
          else
            match find_rec fuel' p px with
            | None => None
            | Some (p', r) => Some (<[x := r]> p', r)
            end
      end
  end.

(** A chain of parent pointers in an array of [n] cells that reaches a
    root visits at most [n] cells, so [n] nested calls are enough. *)
Definition find (uf : UnionFind) (x : nat) : option (UnionFind * nat) :=
  match find_rec (length (parent uf)) (parent uf) x with
  | None => None
  | Some (p', r) => Some ({| parent := p'; rank := rank uf |}, r)
  end.

Definition union (uf : UnionFind) (x y : nat) : option UnionFind :=
  match find uf x with
  | None => None
  | Some (uf1, rootX) =>
      match find uf1 y with
      | None => None
      | Some (uf2, rootY) =>
          if decide (rootX = rootY) then Some uf2
          else
            let rankX := default 0 (rank uf2 !! rootX) in
            let rankY := default 0 (rank uf2 !! rootY) in
            if rankX <? rankY then
              Some {| parent := <[rootX := rootY]> (parent uf2); rank := rank uf2 |}
            else if rankY <? rankX then
              Some {| parent := <[rootY := rootX]> (parent uf2); rank := rank uf2 |}
            else
              Some {| parent := <[rootY := rootX]> (parent uf2);
                      rank := <[rootX := S rankX]> (rank uf2) |}
      end
  end.

(** A client of the structure: a sequence of calls. *)
Inductive UFOp : Type :=
  | OpFind (x : nat)
  | OpUnion (x y : nat).

Definition uf_step (uf : UnionFind) (o : UFOp) : option UnionFind :=
  match o with
  | OpFind x => fst <$> find uf x
  | OpUnion x y => union uf x y
  end.

Fixpoint uf_run (uf : UnionFind) (ops : list UFOp) : option UnionFind :=
  match ops with
  | [] => Some uf
  | o :: ops' =>
      match uf_step uf o with
      | None => None
      | Some uf' => uf_run uf' ops'
      end
  end.

(** ** The grid index *)

Abbreviation Grid := (gmap (Ix * Ix) (list nat)).

Definition earthCircumference : Q := 40075000.
Definition degPerMeter : Q := 360 / earthCircumference.

(** The body of the [forEach] callback of [createGridIndex]:
    [grid.get(key).push(index)] extends the list stored under [key]. *)
Definition grid_insert (h : Heap) (degreesPerCell : Num)
    (grid : Grid) (entry : nat * Value) : Grid :=
  let '(index, event) := entry in
  let lat := value_num (member h (member h event "coordinates") "latitude") in
  let lon := value_num (member h (member h event "coordinates") "longitude") in
  let row := Math_floor (num_div lat degreesPerCell) in
  let col := Math_floor (num_div lon degreesPerCell) in
  let key := (row, col) in
  let grid := if decide (is_Some (grid !! key)) then grid else <[key := []]> grid in
  <[key := default [] (grid !! key) ++ [index]]> grid.

Definition createGridIndex (h : Heap) (events : list Value) (radiusInMeters : Num)
    : Grid * Num :=
  let degreesPerCell := num_mul radiusInMeters (Fin degPerMeter) in
  (foldl (grid_insert h degreesPerCell) ∅ (imap pair events), degreesPerCell).

Definition getNearbyIndices (grid : Grid) (row col : Ix) : list nat :=
  flat_map (fun i =>
    flat_map (fun j =>
      let key := (ix_add row i, ix_add col j) in
      if decide (is_Some (grid !! key)) then default [] (grid !! key) else [])
      [-1; 0; 1]%Z)
    [-1; 0; 1]%Z.

(** ** [clusterEvents] *)

Inductive Error : Type :=
  | Error_msg (message : string)   (* [throw new Error(message)] *)
  | TypeError.                     (* a property read on [undefined] or [null] *)

(** [console.warn(`Skipping event with invalid coordinates${eventId}`)]:
    the text is fixed but for [eventId], which mentions [event.id] when
    that value is truthy and is empty otherwise. *)
Record Diagnostic : Type := mkDiag {
  diag_id : option Value
}.

Inductive Outcome : Type :=
  | Returned (v : Value)
  | Thrown (e : Error)
  | NoResult.                      (* a [find] that ran out of fuel *)

Record Result : Type := mkResult {
  outcome : Outcome;
  heap_after : Heap;
  diagnostics : list Diagnostic
}.

(** [Array.isArray(v)], with the elements *)
Definition array_elems (h : Heap) (v : Value) : option (list Value) :=
  match v with
  | VRef l =>
      match h !! l with
      | Some (HArr elems) => Some elems
      | _ => None
      end
  | _ => None
  end.

(** The own properties that [{...event}] copies, for a plain object. *)
Definition spread (h : Heap) (event : Value) : gmap string Value :=
  match event with
  | VRef l =>
      match h !! l with
      | Some (HObj props) => props
      | _ => ∅
      end
  | _ => ∅
  end.

Definition skip_diagnostic (h : Heap) (event : Value) : Diagnostic :=
  let id := member h event "id" in
  {| diag_id := if truthy id then Some id else None |}.

(** The validation loop.  The third component tells that the loop was
    left by the TypeError of [event.coordinates] on an element that is
    [undefined] or [null]; the warnings printed before it stay printed. *)
Fixpoint filterValid (h : Heap) (events : list Value)
    : list Value * list Diagnostic * bool :=
  match events with
  | [] => ([], [], false)
  | event :: rest =>
      if nullish event then ([], [], true)
      else
        let '(validEvents, warnings, threw) := filterValid h rest in
        if negb (truthy (member h event "coordinates"))
           || negb (isValidCoordinate h (member h event "coordinates"))
        then (validEvents, skip_diagnostic h event :: warnings, threw)
        else (event :: validEvents, warnings, threw)
  end.

(** The inner loop, [for (const j of nearbyIndices)]. *)
Definition union_nearby (h : Heap) (radiusInMeters : Num) (validEvents : list Value)
    (i : nat) (unionFind : option UnionFind) (j : nat) : option UnionFind :=
  match unionFind with
  | None => None
  | Some uf =>
      if i <? j then
        let distance :=
          calculateDistance h
            (member h (default VUndefined (validEvents !! i)) "coordinates")
            (member h (default VUndefined (validEvents !! j)) "coordinates") in
        if distance_le distance radiusInMeters then union uf i j else Some uf
      else Some uf
  end.

(** The outer loop, [for (let i = 0; i < n; i++)]. *)
Definition union_row (h : Heap) (radiusInMeters : Num) (validEvents : list Value)
    (grid : Grid) (degreesPerCell : Num)
    (unionFind : option UnionFind) (i : nat) : option UnionFind :=
  let event := default VUndefined (validEvents !! i) in
  let lat := value_num (member h (member h event "coordinates") "latitude") in
  let lon := value_num (member h (member h event "coordinates") "longitude") in
  let row := Math_floor (num_div lat degreesPerCell) in
  let col := Math_floor (num_div lon degreesPerCell) in
  let nearbyIndices := getNearbyIndices grid row col in
  foldl (union_nearby h radiusInMeters validEvents i) unionFind nearbyIndices.

(** The callback of [validEvents.map]: the forest (which [find]
    compresses), [rootToClusterId], the number of labels generated so far,
    and the objects built so far. *)
Record Labelling : Type := mkLabelling {
  lab_uf : UnionFind;
  rootToClusterId : gmap nat string;
  lab_generated : nat;
  lab_objects : list HeapObj
}.

Definition label_event (ids : nat -> string) (h : Heap)
    (st : option Labelling) (entry : nat * Value) : option Labelling :=
  match st with
  | None => None
  | Some st =>
      let '(index, event) := entry in
      match find (lab_uf st) index with
      | None => None
      | Some (uf, root) =>
          let '(m, generated) :=
            if decide (is_Some (rootToClusterId st !! root))
            then (rootToClusterId st, lab_generated st)
            else (<[root := ids (lab_generated st)]> (rootToClusterId st),
                  S (lab_generated st)) in
          let clusterId :=
            match m !! root with
            | Some label => VStr label
            | None => VUndefined
            end in
          Some {| lab_uf := uf;
                  rootToClusterId := m;
                  lab_generated := generated;
                  lab_objects :=
                    lab_objects st
                    ++ [HObj (<["clusterId" := clusterId]> (spread h event))] |}
      end
  end.

(** [return] of a fresh array whose elements are the fresh objects
    [objects]: the array is allocated first, the objects after it. *)
Definition return_array (h : Heap) (objects : list HeapObj)
    (warnings : list Diagnostic) : Result :=
  let base := S (length h) in
  {| outcome := Returned (VRef (length h));
     heap_after := h ++ HArr (imap (fun i _ => VRef (base + i)) objects) :: objects;
     diagnostics := warnings |}.

Definition throw (h : Heap) (e : Error) (warnings : list Diagnostic) : Result :=
  {| outcome := Thrown e; heap_after := h; diagnostics := warnings |}.

Definition clusterEvents (ids : nat -> string) (h : Heap)
    (events radiusInMeters : Value) : Result :=
  match array_elems h events with
  | None => throw h (Error_msg "Events must be an array") []
  | Some elems =>
      if negb (is_number radiusInMeters)
         || num_le (value_num radiusInMeters) (num_of_Z 0)
      then throw h (Error_msg "Radius must be a positive number") []
      else if bool_decide (length elems = 0) then return_array h [] []
      else
        let '(validEvents, warnings, threw) := filterValid h elems in
        if threw then throw h TypeError warnings
        else if bool_decide (length validEvents = 0) then return_array h [] warnings
        else
          let n := length validEvents in
          let unionFind := UnionFind_new n in
          let '(grid, degreesPerCell) :=
            createGridIndex h validEvents (value_num radiusInMeters) in
          let unionFind :=
            foldl (union_row h (value_num radiusInMeters) validEvents grid degreesPerCell)
              (Some unionFind) (seq 0 n) in
          match unionFind with
          | None => {| outcome := NoResult; heap_after := h; diagnostics := warnings |}
          | Some unionFind =>
              let start :=
                {| lab_uf := unionFind; rootToClusterId := ∅;
                   lab_generated := 0; lab_objects := [] |} in
              match foldl (label_event ids h) (Some start) (imap pair validEvents) with
              | None => {| outcome := NoResult; heap_after := h; diagnostics := warnings |}
              | Some st => return_array h (lab_objects st) warnings
              end
          end
  end.

(** ** The arithmetic of the program: binary64 numbers *)

(** The numbers of the program are binary64 floating-point numbers: [*],
    [/], [+], [-] and [Math.sqrt] round to the nearest one.  This module
    has the functions of [ClusteringService.js] that compute with the
    coordinates, on such numbers: [calculateDistance], [createGridIndex],
    [getNearbyIndices] and the two loops of [clusterEvents].  An event is
    an event that passed validation, with its coordinates.  [Math.sin],
    [Math.cos] and [Math.atan2] are approximated by the implementation,
    which ECMAScript leaves free but for special arguments: they come
    with the [Engine]. *)
Module Binary64.
Import PrimFloat FloatOps SpecFloat.
Local Open Scope float_scope.

(** [Math.PI], 3.141592653589793 *)
Definition Math_PI : float := 0x1.921fb54442d18p+1.

(** The largest integer that is not above [(-1)^negative * m * 2^e]. *)
Definition floor_Z (negative : bool) (m : positive) (e : Z) : Z :=
  let n := if negative then Z.neg m else Z.pos m in
  if (0 <=? e)%Z then (n * 2 ^ e)%Z else (n / 2 ^ (- e))%Z.

(** The number that is the integer [z], below 2^53 in absolute value. *)
Definition Number_of_Z (z : Z) : float :=
  match z with
  | Z0 => 0
  | Z.pos p => SF2Prim (S754_finite false p 0)
  | Z.neg p => SF2Prim (S754_finite true p 0)
  end.

(** [Math.floor(x)].  A number [m * 2^e] with [0 <= e] is an integer; a
    number with a fractional part is below 2^53 in absolute value. *)
Definition Math_floor (x : float) : float :=
  match Prim2SF x with
  | S754_finite negative m e =>
      if (0 <=? e)%Z then x else Number_of_Z (floor_Z negative m e)
  | _ => x
  end.

(** The text of a number in a template.  Two numbers print the same text
    exactly when they are equal, the two zeros printing "0".  What stands
    for the text is the integer of an integral number, and the sign, the
    digits and the exponent of a number with a fractional part. *)
Inductive Text : Type :=
  | Text_NaN
  | Text_Infinity (negative : bool)
  | Text_integer (z : Z)
  | Text_fraction (negative : bool) (m : positive) (e : Z).

#[global] Instance Text_eq_dec : EqDecision Text.
Proof. solve_decision. Defined.

#[global] Instance Text_countable : Countable Text.
Proof.
  refine (inj_countable'
            (fun t => match t with
                      | Text_NaN => inl (inl ())
                      | Text_Infinity negative => inl (inr negative)
                      | Text_integer z => inr (inl z)
                      | Text_fraction negative m e => inr (inr (negative, m, e))
                      end)
            (fun c => match c with
                      | inl (inl _) => Text_NaN
                      | inl (inr negative) => Text_Infinity negative
                      | inr (inl z) => Text_integer z
                      | inr (inr (negative, m, e)) => Text_fraction negative m e
                      end) _).
  intros []; reflexivity.
Defined.

Definition Number_toString (x : float) : Text :=
  match Prim2SF x with
  | S754_nan => Text_NaN
  | S754_infinity negative => Text_Infinity negative
  | S754_zero _ => Text_integer 0
  | S754_finite negative m e =>
      if (0 <=? e)%Z || (Z.pos m mod 2 ^ (- e) =? 0)%Z
      then Text_integer (floor_Z negative m e)
      else Text_fraction negative m e
  end.

(** The [Map] of the grid: the key of a cell is the text of its row and
    the text of its column. *)
Abbreviation Grid := (gmap (Text * Text) (list nat)).

(** A coordinates object whose two fields are numbers. *)
Record Coordinates : Type := mkCoordinates {
  latitude : float;
  longitude : float
}.

(** [isValidCoordinate(coord)] for such an object: the comparisons are
    false on NaN. *)
Definition isValidCoordinate (coord : Coordinates) : bool :=
  (-90 <=? latitude coord) && (latitude coord <=? 90)
  && (-180 <=? longitude coord) && (longitude coord <=? 180).

(** An event, with the one property that the loops read. *)
Record Event : Type := mkEvent {
  coordinates : Coordinates
}.

Definition grid_insert (degreesPerCell : float) (grid : Grid) (entry : nat * Event) : Grid :=
  let '(index, event) := entry in
  let lat := latitude (coordinates event) in
  let lon := longitude (coordinates event) in
  let row := Math_floor (lat / degreesPerCell) in
  let col := Math_floor (lon / degreesPerCell) in
  let key := (Number_toString row, Number_toString col) in
  let grid := if decide (is_Some (grid !! key)) then grid else <[key := []]> grid in
  <[key := default [] (grid !! key) ++ [index]]> grid.

Definition createGridIndex (events : list Event) (radiusInMeters : float) : Grid * float :=
  let earthCircumference := 40075000 in
  let degPerMeter := 360 / earthCircumference in
  let degreesPerCell := radiusInMeters * degPerMeter in
  (foldl (grid_insert degreesPerCell) ∅ (imap pair events), degreesPerCell).

Definition getNearbyIndices (grid : Grid) (row col : float) : list nat :=
  flat_map (fun i =>
    flat_map (fun j =>
      let key := (Number_toString (row + i), Number_toString (col + j)) in
      if decide (is_Some (grid !! key)) then default [] (grid !! key) else [])
      [-1; 0; 1])
    [-1; 0; 1].

(** [Math.sin], [Math.cos] and [Math.atan2], as the engine has them. *)
Record Engine : Type := mkEngine {
  Math_sin : float -> float;
  Math_cos : float -> float;
  Math_atan2 : float -> float -> float
}.

Definition calculateDistance (engine : Engine) (coord1 coord2 : Coordinates) : float :=
  let R := 6371000 in
  let lat1 := (latitude coord1 * Math_PI) / 180 in
  let lat2 := (latitude coord2 * Math_PI) / 180 in
  let deltaLat := ((latitude coord2 - latitude coord1) * Math_PI) / 180 in
  let deltaLon := ((longitude coord2 - longitude coord1) * Math_PI) / 180 in
  let a :=
    Math_sin engine (deltaLat / 2) * Math_sin engine (deltaLat / 2) +
    Math_cos engine lat1 * Math_cos engine lat2 *
    Math_sin engine (deltaLon / 2) * Math_sin engine (deltaLon / 2) in
  let c := 2 * Math_atan2 engine (sqrt a) (sqrt (1 - a)) in
  R * c.

(** The inner loop of [clusterEvents], [for (const j of nearbyIndices)].
    [None] is "no result": a [find] that ran out of fuel, or the
    TypeError of [validEvents[j].coordinates] for a [j] that is not an
    index of the array. *)
Definition union_nearby (engine : Engine) (radiusInMeters : float)
    (validEvents : list Event) (i : nat) (unionFind : option UnionFind) (j : nat)
    : option UnionFind :=
  match unionFind with
  | None => None
  | Some uf =>
      if (i <? j)%nat then
        match validEvents !! i, validEvents !! j with
        | Some event_i, Some event_j =>
            let distance :=
              calculateDistance engine (coordinates event_i) (coordinates event_j) in
            if distance <=? radiusInMeters then union uf i j else Some uf
        | _, _ => None
        end
      else Some uf
  end.

(** The outer loop, [for (let i = 0; i < n; i++)]. *)
Definition union_row (engine : Engine) (radiusInMeters : float)
    (validEvents : list Event) (grid : Grid) (degreesPerCell : float)
    (unionFind : option UnionFind) (i : nat) : option UnionFind :=
  match validEvents !! i with
  | Some event =>
      let lat := latitude (coordinates event) in
      let lon := longitude (coordinates event) in
      let row := Math_floor (lat / degreesPerCell) in
      let col := Math_floor (lon / degreesPerCell) in
      let nearbyIndices := getNearbyIndices grid row col in
      foldl (union_nearby engine radiusInMeters validEvents i) unionFind nearbyIndices
  | None => None
  end.

(** [clusterEvents] from the fresh forest to the end of the two loops,
    on the events that passed validation. *)
Definition clusterEvents_unions (engine : Engine) (validEvents : list Event)
    (radiusInMeters : float) : option UnionFind :=
  let n := length validEvents in
  let unionFind := UnionFind_new n in
  let '(grid, degreesPerCell) := createGridIndex validEvents radiusInMeters in
  foldl (union_row engine radiusInMeters validEvents grid degreesPerCell)
    (Some unionFind) (seq 0 n).

End Binary64.

(** ** [LRUCache] (services/geocoding/LRUCache.ts) *)

Section LRUCacheModel.
Context {K V : Type} `{EqDecision K}.

(** The JavaScript [Map]: entries in insertion order, one per key. *)
Definition Map_has (m : list (K * V)) (key : K) : bool :=
  bool_decide (key ∈ m.*1).

Definition Map_get (m : list (K * V)) (key : K) : option V :=
  snd <$> head (filter (fun e => e.1 = key) m).

Definition Map_delete (m : list (K * V)) (key : K) : list (K * V) :=
  filter (fun e => e.1 ≠ key) m.

(** [Map.prototype.set] keeps the position of a key that is present and
    appends a new key. *)
Definition Map_set (m : list (K * V)) (key : K) (value : V) : list (K * V) :=
  if Map_has m key
  then (fun e => if decide (e.1 = key) then (key, value) else e) <$> m
  else m ++ [(key, value)].

(** The capacity counts entries; the service takes it from the
    configuration, which parses an integer and rejects non-positive
    values. *)
Record LRUCache : Type := mkLRU {
  cache : list (K * V);
  capacity : nat
}.

Definition LRUCache_new (capacity : nat) : LRUCache :=
  {| cache := []; capacity := capacity |}.

Definition LRUCache_get (c : LRUCache) (key : K) : option V * LRUCache :=
  if negb (Map_has (cache c) key) then (None, c)
  else
    let value := Map_get (cache c) key in
    let m := Map_delete (cache c) key in
    let m := match value with
             | Some v => Map_set m key v
             | None => m
             end in
    (value, {| cache := m; capacity := capacity c |}).

Definition LRUCache_set (c : LRUCache) (key : K) (value : V) : LRUCache :=
  let m :=
    if Map_has (cache c) key then Map_delete (cache c) key
    else if capacity c <=? length (cache c) then
      (* the first key of the iteration order; none in an empty map *)
      match cache c with
      | [] => cache c
      | (firstKey, _) :: _ => Map_delete (cache c) firstKey
      end
    else cache c in
  {| cache := Map_set m key value; capacity := capacity c |}.

Definition LRUCache_delete (c : LRUCache) (key : K) : LRUCache :=
  {| cache := Map_delete (cache c) key; capacity := capacity c |}.

Definition LRUCache_clear (c : LRUCache) : LRUCache :=
  {| cache := []; capacity := capacity c |}.

Definition LRUCache_size (c : LRUCache) : nat := length (cache c).

Inductive LRUOp : Type :=
  | OpGet (key : K)
  | OpSet (key : K) (value : V)
  | OpDelete (key : K).

Definition lru_step (c : LRUCache) (o : LRUOp) : LRUCache :=
  match o with
  | OpGet key => (LRUCache_get c key).2
  | OpSet key value => LRUCache_set c key value
  | OpDelete key => LRUCache_delete c key
  end.

(** The cache after a history of calls, the most recent call first. *)
Fixpoint lru_after (capacity : nat) (history : list LRUOp) : LRUCache :=
  match history with
  | [] => LRUCache_new capacity
  | o :: earlier => lru_step (lru_after capacity earlier) o
  end.

(** The same, for calls listed in the order they are made. *)
Definition lru_run (capacity : nat) (ops : list LRUOp) : LRUCache :=
  foldl lru_step (LRUCache_new capacity) ops.

(** Recency, from the history alone: a [get] or a [set] of a key uses
    it; the age of a key is the number of calls made since its last
    use. *)
Definition uses (o : LRUOp) (key : K) : bool :=
  match o with
  | OpGet k | OpSet k _ => bool_decide (k = key)
  | OpDelete _ => false
  end.

Fixpoint age (history : list LRUOp) (key : K) : nat :=
  match history with
  | [] => O
  | o :: earlier => if uses o key then O else S (age earlier key)
  end.
End LRUCacheModel.

Arguments LRUCache : clear implicits.
Arguments LRUOp : clear implicits.

(** ** Strings *)

(** A string is the sequence of its code units, all below U+0100. *)

(** [typeof v === 'string'] *)
Definition is_string (v : Value) : bool :=
  match v with
  | VStr _ => true
  | _ => false
  end.

Definition value_string (v : Value) : string :=
  match v with
  | VStr s => s
  | _ => ""
  end.

(** The white space and the line terminators below U+0100: TAB, LF, VT,
    FF, CR, SP and NBSP. *)
Definition is_white_space (c : Ascii.ascii) : bool :=
  let n := Ascii.nat_of_ascii c in
  ((9 <=? n) && (n <=? 13)) || (n =? 32) || (n =? 160).

Fixpoint String_trimStart (s : string) : string :=
  match s with
  | EmptyString => EmptyString
  | String c rest => if is_white_space c then String_trimStart rest else s
  end.

Fixpoint String_trimEnd (s : string) : string :=
  match s with
  | EmptyString => EmptyString
  | String c rest =>
      match String_trimEnd rest with
      | EmptyString => if is_white_space c then EmptyString else String c EmptyString
      | trimmed => String c trimmed
      end
  end.

(** [s.trim()] *)
Definition String_trim (s : string) : string := String_trimEnd (String_trimStart s).

(** The lower case of a code unit below U+0100: the letters A-Z and the
    capital letters U+00C0-U+00DE (not the sign U+00D7) are 32 below
    their lower case. *)
Definition lower_case (c : Ascii.ascii) : Ascii.ascii :=
  let n := Ascii.nat_of_ascii c in
  if ((65 <=? n) && (n <=? 90)) || ((192 <=? n) && (n <=? 222) && negb (n =? 215))
  then Ascii.ascii_of_nat (n + 32)
  else c.

(** [s.toLowerCase()] *)
Fixpoint String_toLowerCase (s : string) : string :=
  match s with
  | EmptyString => EmptyString
  | String c rest => String (lower_case c) (String_toLowerCase rest)
  end.

(** ** [GeocodingService] (services/geocoding/GeocodingService.ts) *)

(** [performGeocoding(locationString)]: the value its promise is fulfilled
    with.  [random1] and [random2] are the two results of [Math.random],
    in the order of the calls. *)
Definition performGeocoding (h : Heap) (locationString : Value) (random1 random2 : Q)
    : Heap * Value :=
  if negb (truthy locationString) || negb (is_string locationString) then (h, VNull)
  else
    (h ++ [HObj {[ "latitude" := VNum (Fin ((407128 # 10000) + random1 * (1 # 100)));
                   "longitude" := VNum (Fin ((-74006 # 1000) + random2 * (1 # 100))) ]}],
     VRef (length h)).

(** A promise that is settled. *)
Inductive Settled : Type :=
  | Fulfilled (value : Value)
  | Rejected (reason : Value).

(** A call of [geocode] that is suspended at its [await]. *)
Record Pending : Type := mkPending {
  pend_normalizedLocation : string;
  pend_locationString : Value;
  pend_promise : Settled
}.

(** [console.error(`Geocoding failed for location: ${locationString}`, error)] *)
Record GeocodingFailure : Type := mkFailure {
  failed_location : Value;
  failure : Value
}.

(** [geocode(locationString)] up to its [await]: the call returns at once
    ([inl]), or it has called [performGeocoding] and waits for the promise
    ([inr]).  [cache] is [this.cache]; its values are coordinates objects,
    by location. *)
Definition geocode_begin (h : Heap) (cache : LRUCache string Value)
    (locationString : Value) (random1 random2 : Q)
    : Heap * LRUCache string Value * (Value + Pending) :=
  if negb (truthy locationString) || negb (is_string locationString)
  then (h, cache, inl VNull)
  else
    let normalizedLocation :=
      String_toLowerCase (String_trim (value_string locationString)) in
    let '(found, cache) := LRUCache_get cache normalizedLocation in
    let cachedResult := default VUndefined found in
    if truthy cachedResult
    then (h ++ [HObj (spread h cachedResult)], cache, inl (VRef (length h)))
    else
      let '(h, result) := performGeocoding h (VStr normalizedLocation) random1 random2 in
      (h, cache,
       inr {| pend_normalizedLocation := normalizedLocation;
              pend_locationString := locationString;
              pend_promise := Fulfilled result |}).

(** [geocode] from its [await] on, once the promise is settled: the new
    heap and cache, the value returned, and what [console.error] prints.
    A result, by its type, is [null] or a coordinates object. *)
Definition geocode_resume (h : Heap) (cache : LRUCache string Value) (p : Pending)
    : Heap * LRUCache string Value * Value * list GeocodingFailure :=
  match pend_promise p with
  | Fulfilled result =>
      if truthy result
      then (h ++ [HObj (spread h result)],
            LRUCache_set cache (pend_normalizedLocation p) (VRef (length h)),
            result, [])
      else (h, cache, result, [])
  | Rejected error =>
      (h, cache, VNull,
       [{| failed_location := pend_locationString p; failure := error |}])
  end.

(** A call of [geocode] that nothing interrupts. *)
Definition geocode (h : Heap) (cache : LRUCache string Value)
    (locationString : Value) (random1 random2 : Q)
    : Heap * LRUCache string Value * Value * list GeocodingFailure :=
  match geocode_begin h cache locationString random1 random2 with
  | (h, cache, inl result) => (h, cache, result, [])
  | (h, cache, inr p) => geocode_resume h cache p
  end.

(** The service and its callers: calls of [geocode] start, and suspended
    calls resume, in any order.  [geo_results] lists the values the calls
    returned, the oldest first. *)
Record Geo : Type := mkGeo {
  geo_heap : Heap;
  geo_cache : LRUCache string Value;
  geo_pending : list Pending;
  geo_results : list Value;
  geo_failures : list GeocodingFailure
}.

Inductive GeoEvent : Type :=
  | GeoCall (locationString : Value) (random1 random2 : Q)
  | GeoResume (i : nat).

Definition geo_step (st : Geo) (ev : GeoEvent) : Geo :=
  match ev with
  | GeoCall locationString random1 random2 =>
      match geocode_begin (geo_heap st) (geo_cache st) locationString random1 random2 with
      | (h, cache, inl result) =>
          {| geo_heap := h; geo_cache := cache; geo_pending := geo_pending st;
             geo_results := geo_results st ++ [result];
             geo_failures := geo_failures st |}
      | (h, cache, inr p) =>
          {| geo_heap := h; geo_cache := cache; geo_pending := geo_pending st ++ [p];
             geo_results := geo_results st; geo_failures := geo_failures st |}
      end
  | GeoResume i =>
      match geo_pending st !! i with
      | None => st
      | Some p =>
          let '(h, cache, result, failures) :=
            geocode_resume (geo_heap st) (geo_cache st) p in
          {| geo_heap := h; geo_cache := cache;
             geo_pending := delete i (geo_pending st);
             geo_results := geo_results st ++ [result];
             geo_failures := geo_failures st ++ failures |}
      end
  end.

(** A service with an empty cache, on the heap of its callers. *)
Definition geo_new (h : Heap) (capacity : nat) : Geo :=
  {| geo_heap := h; geo_cache := LRUCache_new capacity; geo_pending := [];
     geo_results := []; geo_failures := [] |}.

Definition geo_run (st : Geo) (events : list GeoEvent) : Geo := foldl geo_step st events.

(** ** The configuration (config/env.ts) *)

Definition digit_value (c : Ascii.ascii) : option Z :=
  let n := Ascii.nat_of_ascii c in
  if (48 <=? n) && (n <=? 57) then Some (Z.of_nat (n - 48)) else None.

(** The number that the longest prefix of decimal digits denotes; [acc] is
    the number read so far, [None] before the first digit. *)
Fixpoint parse_digits (s : string) (acc : option Z) : option Z :=
  match s with
  | EmptyString => acc
  | String c rest =>
      match digit_value c with
      | Some d => parse_digits rest (Some (10 * default 0 acc + d)%Z)
      | None => acc
      end
  end.

(** [parseInt(s, 10)]: leading white space is skipped, a sign is read (45
    is the minus sign, 43 the plus sign), then the longest prefix of
    digits; NaN when there is no digit. *)
Definition parseInt (s : string) : Num :=
  let s := String_trimStart s in
  let '(negative, s) :=
    match s with
    | String c rest =>
        if Ascii.nat_of_ascii c =? 45 then (true, rest)
        else if Ascii.nat_of_ascii c =? 43 then (false, rest)
        else (false, s)
    | EmptyString => (false, s)
    end in
  match parse_digits s None with
  | None => NaN
  | Some z => Fin (inject_Z (if negative : bool then - z else z))
  end.

(** [isNaN(n)] for a number *)
Definition isNaN (n : Num) : bool :=
  match n with
  | NaN => true
  | _ => false
  end.

(** [process.env.NAME]: a string, or [undefined] *)
Definition env_value (variable : option string) : Value :=
  match variable with
  | Some s => VStr s
  | None => VUndefined
  end.

(** What the module exports. *)
Record Env : Type := mkEnv {
  TWITTER_BEARER_TOKEN : Value;
  GEOCODING_CACHE_CAPACITY : Num
}.

(** The evaluation of the module: its exports or the error it throws,
    and what it prints with [console.error]. *)
Definition env_module (VITE_TWITTER_BEARER_TOKEN VITE_GEOCODING_CACHE_CAPACITY : option string)
    : (Error + Env) * list string :=
  let TWITTER_BEARER_TOKEN := env_value VITE_TWITTER_BEARER_TOKEN in
  let GEOCODING_CACHE_CAPACITY :=
    if truthy (env_value VITE_GEOCODING_CACHE_CAPACITY)
    then parseInt (value_string (env_value VITE_GEOCODING_CACHE_CAPACITY))
    else num_of_Z 100 in
  if negb (truthy TWITTER_BEARER_TOKEN) then
    (inl (Error_msg "Configuration error"),
     ["Missing required environment variable: VITE_TWITTER_BEARER_TOKEN"])
  else if isNaN GEOCODING_CACHE_CAPACITY
          || num_le GEOCODING_CACHE_CAPACITY (num_of_Z 0) then
    (inl (Error_msg "Configuration error"),
     ["Invalid cache capacity: GEOCODING_CACHE_CAPACITY must be a positive integer"])
  else
    (inr {| TWITTER_BEARER_TOKEN := TWITTER_BEARER_TOKEN;
            GEOCODING_CACHE_CAPACITY := GEOCODING_CACHE_CAPACITY |}, []).

(** * The vocabulary of the properties *)

(** ** Validation *)

(** What a successful validation says about the heap: the value is a
    reference to a plain object whose two fields are finite numbers in
    range. *)
Definition valid_point (h : Heap) (coord : Value) (lat lon : Q) : Prop :=
  exists l props,
    coord = VRef l /\ h !! l = Some (HObj props) /\
    props !! "latitude" = Some (VNum (Fin lat)) /\
    props !! "longitude" = Some (VNum (Fin lon)) /\
    (inject_Z (-90)%Z <= lat)%Q /\ (lat <= inject_Z 90%Z)%Q /\
    (inject_Z (-180)%Z <= lon)%Q /\ (lon <= inject_Z 180%Z)%Q.

(** ** The distance *)

(** The quantity [a] of the haversine formula. *)
Definition haversine_a (latitude1 longitude1 latitude2 longitude2 : Q) : R :=
  (sin ((Q2R latitude2 - Q2R latitude1) * PI / 180 / 2)
   * sin ((Q2R latitude2 - Q2R latitude1) * PI / 180 / 2)
   + cos (Q2R latitude1 * PI / 180) * cos (Q2R latitude2 * PI / 180)
     * sin ((Q2R longitude2 - Q2R longitude1) * PI / 180 / 2)
     * sin ((Q2R longitude2 - Q2R longitude1) * PI / 180 / 2))%R.

(** ** Recency in the cache *)

(** [older history a b]: the last use of [a] is older than the last use
    of [b].  The invariant of the cache: one entry per key, at most
    [capacity] entries, the least recently used entry first. *)
Section LRUCacheVocabulary.
Context {K V : Type} `{EqDecision K}.

Definition older (history : list (LRUOp K V)) (a b : K) : Prop :=
  age history b < age history a.

Record lru_inv (history : list (LRUOp K V)) (c : LRUCache K V) : Prop := {
  inv_nodup : NoDup (cache c).*1;
  inv_size : 1 <= capacity c -> length (cache c) <= capacity c;
  inv_order : StronglySorted (older history) (cache c).*1
}.

End LRUCacheVocabulary.

(** ** Forests *)

(** [root_of p x r]: following parent pointers from [x] reaches, after
    finitely many steps through cells that are not their own parent, the
    cell [r] with [p[r] = r]. *)
Inductive root_of (p : list nat) : nat -> nat -> Prop :=
  | root_here x : p !! x = Some x -> root_of p x x
  | root_step x y r : p !! x = Some y -> y ≠ x -> root_of p y r -> root_of p x r.

(** The same chain, with the cells it visits. *)
Inductive chain (p : list nat) : nat -> nat -> list nat -> Prop :=
  | chain_here x : p !! x = Some x -> chain p x x [x]
  | chain_step x y r l :
      p !! x = Some y -> y ≠ x -> chain p y r l -> chain p x r (x :: l).

Definition forest (p : list nat) : Prop :=
  forall x, x < length p -> exists r, root_of p x r.

Definition same_set (uf : UnionFind) (a b : nat) : Prop :=
  exists r, root_of (parent uf) a r /\ root_of (parent uf) b r.

Definition op_in_range (n : nat) (o : UFOp) : Prop :=
  match o with
  | OpFind x => x < n
  | OpUnion x y => x < n /\ y < n
  end.

(** Linking the root [rx] under another root [ry] moves the cells of [rx]
    to [ry] and no other. *)
Definition relink (rx ry r : nat) : nat := if decide (r = rx) then ry else r.

(** ** The phases of [clusterEvents] *)

(** The test of the validation loop, [event.coordinates &&
    isValidCoordinate(event.coordinates)]. *)
Definition passes (h : Heap) (event : Value) : bool :=
  truthy (member h event "coordinates")
  && isValidCoordinate h (member h event "coordinates").

Definition fails (h : Heap) (event : Value) : bool := negb (passes h event).

(** The cell of an event, as [createGridIndex] and the main loop both
    compute it. *)
Definition cell (h : Heap) (degreesPerCell : Num) (event : Value) : Ix * Ix :=
  (Math_floor (num_div (value_num (member h (member h event "coordinates") "latitude"))
                       degreesPerCell),
   Math_floor (num_div (value_num (member h (member h event "coordinates") "longitude"))
                       degreesPerCell)).

(** The cells that [getNearbyIndices] visits around a cell. *)
Definition adjacent (c1 c2 : Ix * Ix) : Prop :=
  exists i j, i ∈ [-1; 0; 1]%Z /\ j ∈ [-1; 0; 1]%Z
              /\ c2 = (ix_add c1.1 i, ix_add c1.2 j).

(** [calculateDistance(validEvents[i].coordinates,
    validEvents[j].coordinates) <= radiusInMeters] *)
Definition within (h : Heap) (radius : Num) (events : list Value) (i j : nat) : bool :=
  distance_le
    (calculateDistance h
       (member h (default VUndefined (events !! i)) "coordinates")
       (member h (default VUndefined (events !! j)) "coordinates"))
    radius.

(** The equivalence generated by a list of pairs. *)
Definition linked (pairs : list (nat * nat)) : relation nat :=
  rtsc (fun a b => (a, b) ∈ pairs).

(** The forest has merged exactly the pairs of [pairs]. *)
Definition uf_links (n : nat) (unionFind : option UnionFind)
    (pairs : list (nat * nat)) : Prop :=
  exists uf,
    unionFind = Some uf /\ length (parent uf) = n /\ forest (parent uf)
    /\ forall a b, a < n -> b < n -> (same_set uf a b <-> linked pairs a b).

(** The pairs that the inner loop of row [i] merges. *)
Definition row_pairs (h : Heap) (radius : Num) (events : list Value)
    (i : nat) (nearby : list nat) : list (nat * nat) :=
  pair i <$> filter (fun j => i < j /\ within h radius events i j = true) nearby.

(** What the main loop finds around event [i]. *)
Definition nearby_of (h : Heap) (radius : Num) (events : list Value) (i : nat) : list nat :=
  let '(grid, degreesPerCell) := createGridIndex h events radius in
  let c := cell h degreesPerCell (default VUndefined (events !! i)) in
  getNearbyIndices grid c.1 c.2.

(** All the pairs the two loops merge. *)
Definition merged_pairs (h : Heap) (radius : Num) (events : list Value)
    (rows : list nat) : list (nat * nat) :=
  flat_map (fun i => row_pairs h radius events i (nearby_of h radius events i)) rows.

(** The two loops of [clusterEvents], from the fresh forest. *)
Definition union_phase (h : Heap) (radius : Num) (events : list Value)
    : option UnionFind :=
  foldl (union_row h radius events (createGridIndex h events radius).1
                   (createGridIndex h events radius).2)
        (Some (UnionFind_new (length events))) (seq 0 (length events)).

(** Two events that the loops compare and find within the radius: the
    second comes later in the array, lies in one of the nine cells around
    the cell of the first, and is at most [radius] away. *)
Definition neighbours (h : Heap) (radius : Num) (events : list Value)
    (a b : nat) : Prop :=
  a < b
  /\ (exists ea eb, events !! a = Some ea /\ events !! b = Some eb
                    /\ adjacent (cell h (num_mul radius (Fin degPerMeter)) ea)
                                (cell h (num_mul radius (Fin degPerMeter)) eb))
  /\ within h radius events a b = true.

Definition label_start (uf : UnionFind) : Labelling :=
  {| lab_uf := uf; rootToClusterId := ∅; lab_generated := 0; lab_objects := [] |}.

Definition label_phase (ids : nat -> string) (h : Heap) (events : list Value)
    (uf : UnionFind) : option Labelling :=
  foldl (label_event ids h) (Some (label_start uf)) (imap pair events).

(** The output object of an event: its own properties and the label. *)
Definition labelled (h : Heap) (event : Value) (label : string) : HeapObj :=
  HObj (<["clusterId" := VStr label]> (spread h event)).

(** The state of the labelling after some events: [idx] numbers the roots
    met so far in the order they were met; the root numbered [t] carries
    the label [ids t]. *)
Record label_inv (ids : nat -> string) (h : Heap) (uf0 : UnionFind)
    (events : list Value) (st : Labelling) (idx : gmap nat nat) : Prop := {
  li_length : length (parent (lab_uf st)) = length (parent uf0);
  li_forest : forest (parent (lab_uf st));
  li_roots : forall y r, root_of (parent uf0) y r <-> root_of (parent (lab_uf st)) y r;
  li_map : rootToClusterId st = ids <$> idx;
  li_bound : forall r t, idx !! r = Some t -> t < lab_generated st;
  li_inj : forall r r' t, idx !! r = Some t -> idx !! r' = Some t -> r = r';
  li_generated : lab_generated st <= length events;
  li_count : length (lab_objects st) = length events;
  li_objects : forall i e, events !! i = Some e ->
    exists r t, root_of (parent uf0) i r /\ idx !! r = Some t
                /\ lab_objects st !! i = Some (labelled h e (ids t))
}.

(** ** The result of a call *)

(** The elements of the returned array. *)
Definition output_events (res : Result) : option (list Value) :=
  match outcome res with
  | Returned v => array_elems (heap_after res) v
  | _ => None
  end.


(** A radius that the guard of [clusterEvents] lets through and that is a
    positive number: finite and above zero, or [Infinity]. *)
Definition positive_radius (radiusInMeters : Value) : Prop :=
  radiusInMeters = VNum PInf
  \/ exists q, radiusInMeters = VNum (Fin q) /\ (0 < q)%Q.


(** The events that the validation loop keeps, and those it skips. *)
Definition valid_events (h : Heap) (elems : list Value) : list Value :=
  filter (fun e => passes h e = true) elems.

Definition skipped_events (h : Heap) (elems : list Value) : list Value :=
  filter (fun e => fails h e = true) elems.

(** ** A later heap *)

(** A value that refers to nothing outside the heap, and a heap whose
    objects and arrays hold such values only. *)
Definition closed_value (h : Heap) (v : Value) : Prop :=
  match v with
  | VRef l => l < length h
  | _ => True
  end.

Definition closed_object (h : Heap) (obj : HeapObj) : Prop :=
  match obj with
  | HObj props => map_Forall (fun _ v => closed_value h v) props
  | HArr elems => Forall (closed_value h) elems
  end.

Definition closed_heap (h : Heap) : Prop := Forall (closed_object h) h.

#[global] Instance closed_value_dec h v : Decision (closed_value h v).
Proof. destruct v; simpl; apply _. Defined.

#[global] Instance closed_object_dec h obj : Decision (closed_object h obj).
Proof. destruct obj; simpl; apply _. Defined.

#[global] Instance closed_heap_dec h : Decision (closed_heap h).
Proof. unfold closed_heap. apply _. Defined.

(** ** Concrete inputs *)

(** A supply of labels: the k-th label is "cluster_k". *)
Definition numbered_ids (k : nat) : string := "cluster_" +:+ pretty k.

Definition coordinates_object (lat lon : Q) : HeapObj :=
  HObj {[ "latitude" := VNum (Fin lat); "longitude" := VNum (Fin lon) ]}.

Definition event_object (id : Value) (coordinates : Value) : HeapObj :=
  HObj {[ "id" := id; "coordinates" := coordinates ]}.

(** [[{id: 7, coordinates: {latitude: 40, longitude: -74}, clusterId: "old"}]] *)
Definition relabel_heap : Heap :=
  [ coordinates_object 40 (-74);
    HObj {[ "id" := VNum (Fin 7); "coordinates" := VRef 0; "clusterId" := VStr "old" ]};
    HArr [VRef 1] ].

(** [[{id: 7, coordinates: {...}}, {id: 0}, {id: "e3", coordinates: {latitude: 91, ...}}]] *)
Definition mixed_heap : Heap :=
  [ coordinates_object 40 (-74);
    event_object (VNum (Fin 7)) (VRef 0);
    HObj {[ "id" := VNum (Fin 0) ]};
    coordinates_object 91 200;
    event_object (VStr "e3") (VRef 3);
    HArr [VRef 1; VRef 2; VRef 4] ].

(** Two events on the parallel of 60 degrees, 0.011 degrees of longitude
    apart:
    [[{id: 1, coordinates: {latitude: 60, longitude: 24.99}},
      {id: 2, coordinates: {latitude: 60, longitude: 25.001}}]] *)
Definition parallel60_heap : Heap :=
  [ coordinates_object 60 (2499 # 100);
    event_object (VNum (Fin 1)) (VRef 0);
    coordinates_object 60 (25001 # 1000);
    event_object (VNum (Fin 2)) (VRef 2);
    HArr [VRef 1; VRef 3] ].

(** ** The statements of the specification that fail *)

(** The claim of C7 as the specification states it: every property of the
    input event is in the output object with its value. *)
Definition fields_unchanged (h : Heap) (res : Result) (e out : Value) : Prop :=
  forall k v, spread h e !! k = Some v -> spread (heap_after res) out !! k = Some v.




(** ** Ranks *)

(** [this.rank[x]] *)
Definition rank_of (uf : UnionFind) (x : nat) : nat := default 0 (rank uf !! x).

(** The invariant of union by rank: the two arrays have one length, the
    rank grows along every parent pointer, and the set of a root of rank
    [k] has at least [2 ^ k] members. *)
Record ranked (uf : UnionFind) : Prop := {
  rk_length : length (rank uf) = length (parent uf);
  rk_edge : forall x y, parent uf !! x = Some y -> y ≠ x -> rank_of uf x < rank_of uf y;
  rk_size : forall r, parent uf !! r = Some r ->
    exists l, NoDup l /\ (forall x, x ∈ l -> root_of (parent uf) x r)
              /\ 2 ^ rank_of uf r <= length l
}.

(** ** Reads and writes of the cache *)

Section LRUCacheWrites.
Context {K V : Type} `{EqDecision K}.

(** The value that the calls of a history, the most recent first, last
    wrote under a key: that of the latest [set], unless a [delete] came
    after it. *)
Fixpoint last_write (history : list (LRUOp K V)) (key : K) : option V :=
  match history with
  | [] => None
  | OpSet k v :: earlier => if decide (k = key) then Some v else last_write earlier key
  | OpDelete k :: earlier => if decide (k = key) then None else last_write earlier key
  | OpGet _ :: earlier => last_write earlier key
  end.

(** The entries that a [set] keeps, before it appends the new one. *)
Definition kept (c : LRUCache K V) (key : K) : list (K * V) :=
  if Map_has (cache c) key then Map_delete (cache c) key
  else if capacity c <=? length (cache c) then
    match cache c with
    | [] => cache c
    | (firstKey, _) :: _ => Map_delete (cache c) firstKey
    end
  else cache c.

End LRUCacheWrites.

(** ** The geocoding service *)

(** The key under which [geocode] looks a location up. *)
Definition normalized (s : string) : string := String_toLowerCase (String_trim s).

Fixpoint all_white_space (s : string) : bool :=
  match s with
  | EmptyString => true
  | String c rest => is_white_space c && all_white_space rest
  end.

(** The coordinates that [performGeocoding] computes from two random
    numbers, and the range they lie in when the random numbers are taken
    from 0 up to, and not including, 1, as [Math.random] does. *)
Definition mock_latitude (random1 : Q) : Q := (407128 # 10000) + random1 * (1 # 100).
Definition mock_longitude (random2 : Q) : Q := (-74006 # 1000) + random2 * (1 # 100).

Definition mock_range (lat lon : Q) : Prop :=
  (407128 # 10000 <= lat)%Q /\ (lat < 407228 # 10000)%Q
  /\ (-74006 # 1000 <= lon)%Q /\ (lon < -73996 # 1000)%Q.

Definition random_range (ev : GeoEvent) : Prop :=
  match ev with
  | GeoCall _ random1 random2 =>
      (0 <= random1)%Q /\ (random1 < 1)%Q /\ (0 <= random2)%Q /\ (random2 < 1)%Q
  | GeoResume _ => True
  end.

(** A coordinates object at some location of the heap, with coordinates
    that satisfy [P]. *)
Definition geo_object (P : Q -> Q -> Prop) (h : Heap) (v : Value) : Prop :=
  exists l lat lon,
    v = VRef l /\ h !! l = Some (coordinates_object lat lon) /\ P lat lon.

Definition call_makes (P : Q -> Q -> Prop) (ev : GeoEvent) : Prop :=
  match ev with
  | GeoCall _ random1 random2 => P (mock_latitude random1) (mock_longitude random2)
  | GeoResume _ => True
  end.

(** The invariant of the service, on the heap [h0] of its first caller:
    the heap only grows; the cache holds, under keys that are not empty,
    coordinates objects that the service allocated; a suspended call
    waits for [null], under the empty key, or for a coordinates object;
    the values returned are [null] or coordinates objects; and no object
    of the cache was returned or is about to be. *)
Record geo_inv (P : Q -> Q -> Prop) (h0 : Heap) (st : Geo) : Prop := {
  gi_heap : exists ext, geo_heap st = h0 ++ ext;
  gi_cache : forall k v, (k, v) ∈ cache (geo_cache st) ->
    k ≠ "" /\ geo_object P (geo_heap st) v /\ exists l, v = VRef l /\ length h0 <= l;
  gi_pending : forall p, p ∈ geo_pending st ->
    exists v, pend_promise p = Fulfilled v
              /\ ((v = VNull /\ pend_normalizedLocation p = "")
                  \/ (pend_normalizedLocation p ≠ "" /\ geo_object P (geo_heap st) v));
  gi_results : forall v, v ∈ geo_results st -> v = VNull \/ geo_object P (geo_heap st) v;
  gi_private_results : forall k v, (k, v) ∈ cache (geo_cache st) -> v ∉ geo_results st;
  gi_private_pending : forall k v p,
    (k, v) ∈ cache (geo_cache st) -> p ∈ geo_pending st -> pend_promise p ≠ Fulfilled v
}.

(** The location of an object. *)
Definition value_ref (v : Value) : option nat :=
  match v with
  | VRef l => Some l
  | _ => None
  end.

(** The object that a suspended call waits to return. *)
Definition pending_ref (p : Pending) : option nat :=
  match pend_promise p with
  | Fulfilled v => value_ref v
  | Rejected _ => None
  end.

(** The objects that the calls returned, or wait to return. *)
Definition handed_out (st : Geo) : list nat :=
  omap value_ref (geo_results st) ++ omap pending_ref (geo_pending st).

(** The objects handed out are distinct, and the service allocated each
    of them on top of the heap [h0] of its first caller. *)
Definition geo_fresh (h0 : Heap) (st : Geo) : Prop :=
  NoDup (handed_out st)
  /\ Forall (fun l => length h0 <= l /\ l < length (geo_heap st)) (handed_out st)
  /\ length h0 <= length (geo_heap st).

(** Calls of the service: a location is looked up, found again under
    another spelling, and a blank location is asked for.
    [[geocode("Paris"), resume, geocode("  PARIS "), geocode("   "), resume]] *)
Definition paris_events : list GeoEvent :=
  [ GeoCall (VStr "Paris") (1 # 2) (1 # 4); GeoResume 0;
    GeoCall (VStr "  PARIS ") 0 0; GeoCall (VStr "   ") 0 0; GeoResume 0 ].

(** Two events at one place and a third one far away:
    [[{id: 1, coordinates: {latitude: 40, longitude: -74}},
      {id: 2, coordinates: {latitude: 40, longitude: -74}},
      {id: 3, coordinates: {latitude: -33, longitude: 151}}]] *)
Definition twin_heap : Heap :=
  [ coordinates_object 40 (-74);
    event_object (VNum (Fin 1)) (VRef 0);
    coordinates_object 40 (-74);
    event_object (VNum (Fin 2)) (VRef 2);
    coordinates_object (-33) 151;
    event_object (VNum (Fin 3)) (VRef 4);
    HArr [VRef 1; VRef 3; VRef 5] ].

(** ** Cells of the grid *)

(** The cells of a grid hold each index at most once: a cell holds no
    index twice and no two cells share an index. *)
Definition grid_disjoint `{Countable K} (grid : gmap K (list nat)) : Prop :=
  (forall key members, grid !! key = Some members -> NoDup members)
  /\ forall key key' members members' j,
       grid !! key = Some members -> grid !! key' = Some members' ->
       j ∈ members -> j ∈ members' -> key = key'.

(** ** The loops, on binary64 numbers *)

Module Binary64_loops.
Import PrimFloat Binary64.
Local Open Scope float_scope.

(** The width of a cell, in degrees. *)
Definition degreesPerCell (radiusInMeters : float) : float :=
  radiusInMeters * (360 / 40075000).

(** The row and the column of an event, as [createGridIndex] and the main
    loop both compute them. *)
Definition row_col (degreesPerCell : float) (event : Event) : float * float :=
  (Math_floor (latitude (coordinates event) / degreesPerCell),
   Math_floor (longitude (coordinates event) / degreesPerCell)).

(** The key of the cell of an event. *)
Definition cell (degreesPerCell : float) (event : Event) : Text * Text :=
  (Number_toString (row_col degreesPerCell event).1,
   Number_toString (row_col degreesPerCell event).2).

(** The nine keys that [getNearbyIndices] looks up, in its order. *)
Definition nearby_keys (row col : float) : list (Text * Text) :=
  i ← [-1; 0; 1]; j ← [-1; 0; 1];
  [(Number_toString (row + i), Number_toString (col + j))].

(** [calculateDistance(validEvents[i].coordinates,
    validEvents[j].coordinates) <= radiusInMeters] *)
Definition within (engine : Engine) (radius : float) (event_i event_j : Event) : bool :=
  calculateDistance engine (coordinates event_i) (coordinates event_j) <=? radius.

(** Two events that the loops compare and find within the radius: the
    second comes later in the array, the key of its cell is one of the
    nine keys around the first, and its distance to the first is at most
    the radius. *)
Definition neighbours (engine : Engine) (radius : float) (events : list Event)
    (a b : nat) : Prop :=
  (a < b)%nat
  /\ exists ea eb,
       events !! a = Some ea /\ events !! b = Some eb
       /\ cell (degreesPerCell radius) eb
            ∈ nearby_keys (row_col (degreesPerCell radius) ea).1
                          (row_col (degreesPerCell radius) ea).2
       /\ within engine radius ea eb = true.

(** Two events, the second later in the array, whose distance is a
    number. *)
Definition measured (engine : Engine) (events : list Event) (a b : nat) : Prop :=
  (a < b)%nat
  /\ exists ea eb,
       events !! a = Some ea /\ events !! b = Some eb
       /\ is_nan (calculateDistance engine (coordinates ea) (coordinates eb)) = false.

(** What the main loop finds around an event. *)
Definition nearby_of (radius : float) (events : list Event) (event : Event) : list nat :=
  let '(grid, degreesPerCell) := createGridIndex events radius in
  getNearbyIndices grid (row_col degreesPerCell event).1 (row_col degreesPerCell event).2.

(** The test of the inner loop on the indices [i] and [j]. *)
Definition accepted (engine : Engine) (radius : float) (events : list Event)
    (i j : nat) : bool :=
  match events !! i, events !! j with
  | Some event_i, Some event_j => (i <? j)%nat && within engine radius event_i event_j
  | _, _ => false
  end.

(** The pairs that the inner loop of row [i] merges. *)
Definition row_pairs (engine : Engine) (radius : float) (events : list Event)
    (i : nat) (nearby : list nat) : list (nat * nat) :=
  pair i <$> filter (fun j => accepted engine radius events i j = true) nearby.

(** All the pairs the two loops merge. *)
Definition merged_pairs (engine : Engine) (radius : float) (events : list Event)
    (rows : list nat) : list (nat * nat) :=
  flat_map (fun i =>
    match events !! i with
    | Some event => row_pairs engine radius events i (nearby_of radius events event)
    | None => []
    end) rows.

(** The indices of the events of a cell, in increasing order. *)
Definition cell_members (degreesPerCell : float) (events : list Event)
    (key : Text * Text) : list nat :=
  filter (fun j => cell degreesPerCell <$> events !! j = Some key)
         (seq 0 (length events)).

(** *** Two antipodal points *)

(** The number of radians of 8 degrees, as [calculateDistance] computes
    it: 0.13962634015954636. *)
Definition radians_8 : float := (8 * Math_PI) / 180.

(** The binary64 numbers nearest to the sine and to the cosine of
    [radians_8]: 0.13917310096006544 and 0.9902680687415704. *)
Definition sin_8 : float := 0x1.1d06c968d9e19p-3.
Definition cos_8 : float := 0x1.fb046a930947ap-1.

(** An engine that is a table: it holds the sine and the cosine, rounded
    to the nearest number, at the arguments that the two points need,
    and NaN elsewhere. *)
Definition table_engine : Engine :=
  {| Math_sin := fun x =>
       if x =? Math_PI / 2 then 1
       else if x =? radians_8 then sin_8
       else if x =? - radians_8 then - sin_8
       else nan;
     Math_cos := fun x =>
       if (x =? radians_8) || (x =? - radians_8) then cos_8 else nan;
     Math_atan2 := fun y x => nan |}.

(** Three events of which two are at one place:
    [[{coordinates: {latitude: 40, longitude: -74}},
      {coordinates: {latitude: 40, longitude: -74}},
      {coordinates: {latitude: -33, longitude: 151}}]] *)
Definition twin_events : list Event :=
  [ mkEvent {| latitude := 40; longitude := -74 |};
    mkEvent {| latitude := 40; longitude := -74 |};
    mkEvent {| latitude := -33; longitude := 151 |} ].

End Binary64_loops.

(** ** The variables of the configuration *)

(** Does the string begin with a character that [P] accepts? *)
Definition starts_with (P : Ascii.ascii -> bool) (s : string) : bool :=
  match s with
  | String c _ => P c
  | EmptyString => false
  end.

Definition is_digit (c : Ascii.ascii) : bool :=
  match digit_value c with
  | Some _ => true
  | None => false
  end.

(** The minus sign and the plus sign *)
Definition is_sign (c : Ascii.ascii) : bool :=
  (Ascii.nat_of_ascii c =? 45) || (Ascii.nat_of_ascii c =? 43).

(** The three ways in which the evaluation of the module ends. *)
Definition env_loaded (token : string) (capacity : Z) : (Error + Env) * list string :=
  (inr {| TWITTER_BEARER_TOKEN := VStr token;
          GEOCODING_CACHE_CAPACITY := num_of_Z capacity |}, []).

Definition env_missing_token : (Error + Env) * list string :=
  (inl (Error_msg "Configuration error"),
   ["Missing required environment variable: VITE_TWITTER_BEARER_TOKEN"]).

Definition env_invalid_capacity : (Error + Env) * list string :=
  (inl (Error_msg "Configuration error"),
   ["Invalid cache capacity: GEOCODING_CACHE_CAPACITY must be a positive integer"]).

(** * Properties *)

(** ** The coordinate validator *)

Lemma num_le_Fin_r (n : Num) (z : Z) :
  num_le n (num_of_Z z) = true ->
  n = NInf \/ exists q, n = Fin q /\ (q <= inject_Z z)%Q.
Proof.
  destruct n as [| | |q]; simpl; try discriminate; auto.
  intros H. right. exists q. split; [reflexivity|]. now apply Qle_bool_iff.
Qed.

Lemma num_ge_Fin_r (n : Num) (z : Z) :
  num_ge n (num_of_Z z) = true ->
  n = PInf \/ exists q, n = Fin q /\ (inject_Z z <= q)%Q.
Proof.
  destruct n as [| | |q]; unfold num_ge; simpl; try discriminate; auto.
  intros H. right. exists q. split; [reflexivity|]. now apply Qle_bool_iff.
Qed.

Lemma isValidCoordinate_true (h : Heap) (coord : Value) :
  isValidCoordinate h coord = true <-> exists lat lon, valid_point h coord lat lon.
Proof.
  unfold isValidCoordinate, valid_point. split.
  - destruct coord as [| |b|n|s|l]; simpl;
      try (rewrite ?orb_true_r; discriminate).
    destruct (h !! l) as [[props|elems]|] eqn:Hl; simpl; try discriminate.
    destruct (props !! "latitude") as [[| |?|lat|?|?]|] eqn:Hlat; simpl;
      try discriminate.
    destruct (props !! "longitude") as [[| |?|lon|?|?]|] eqn:Hlon; simpl;
      try discriminate.
    intros H. apply andb_prop in H as [H H4]. apply andb_prop in H as [H H3].
    apply andb_prop in H as [H1 H2].
    apply num_ge_Fin_r in H1 as [->|(q1 & -> & H1)]; [discriminate|].
    apply num_le_Fin_r in H2 as [?|(q2 & [= <-] & H2)]; [discriminate|].
    apply num_ge_Fin_r in H3 as [->|(q3 & -> & H3)]; [discriminate|].
    apply num_le_Fin_r in H4 as [?|(q4 & [= <-] & H4)]; [discriminate|].
    exists q1, q3, l, props. repeat split; assumption.
  - intros (lat & lon & l & props & -> & Hl & Hlat & Hlon & H1 & H2 & H3 & H4).
    simpl. rewrite Hl, Hlat, Hlon. simpl. unfold num_ge. simpl.
    apply Qle_bool_iff in H1, H2, H3, H4. now rewrite H1, H2, H3, H4.
Qed.

(** C4. [isValidCoordinate] answers [true] exactly for a present
    coordinate object whose [latitude] and [longitude] are finite numbers
    with -90 <= latitude <= 90 and -180 <= longitude <= 180, bounds
    included; on every other value (absent, non-numeric, NaN or infinite
    fields, out of range) it answers [false]. *)
Theorem isValidCoordinate_iff (h : Heap) (coord : Value) :
  (isValidCoordinate h coord = true <-> exists lat lon, valid_point h coord lat lon)
  /\ (isValidCoordinate h coord = false <-> ~ exists lat lon, valid_point h coord lat lon).
Proof.
  split; [apply isValidCoordinate_true|].
  rewrite <- isValidCoordinate_true.
  destruct (isValidCoordinate h coord); split; congruence.
Qed.

(** ** The geocoding cache *)

Section LRUCacheProps.
Context {K V : Type} `{EqDecision K}.
Implicit Types (m : list (K * V)) (c : LRUCache K V) (o : LRUOp K V).
Implicit Types (history ops : list (LRUOp K V)).

Lemma Map_has_true m k : Map_has m k = true <-> k ∈ m.*1.
Proof. unfold Map_has. apply bool_decide_eq_true. Qed.

Lemma Map_has_false m k : Map_has m k = false <-> k ∉ m.*1.
Proof. unfold Map_has. apply bool_decide_eq_false. Qed.

Lemma Map_delete_keys m k : (Map_delete m k).*1 = filter (fun x => x ≠ k) m.*1.
Proof.
  unfold Map_delete. induction m as [|[a v] m IH]; [reflexivity|].
  rewrite fmap_cons, !filter_cons. simpl.
  destruct (decide (a ≠ k)); simpl; now rewrite <- IH.
Qed.

Lemma Map_delete_absent m k : k ∉ (Map_delete m k).*1.
Proof. rewrite Map_delete_keys, list_elem_of_filter. tauto. Qed.

Lemma Map_delete_id m k : k ∉ m.*1 -> Map_delete m k = m.
Proof.
  unfold Map_delete. induction m as [|[a v] m IH]; [reflexivity|].
  rewrite fmap_cons, not_elem_of_cons. simpl. intros [Hne Hni].
  rewrite filter_cons_True by (simpl; congruence). now rewrite IH.
Qed.

Lemma Map_set_fresh m k v : k ∉ m.*1 -> Map_set m k v = m ++ [(k, v)].
Proof. intros Hk. unfold Map_set. apply Map_has_false in Hk. now rewrite Hk. Qed.

Lemma Map_get_present m k : k ∈ m.*1 -> is_Some (Map_get m k).
Proof.
  unfold Map_get. induction m as [|[a v] m IH]; simpl.
  - intros Hk. inversion Hk.
  - rewrite filter_cons. simpl. destruct (decide (a = k)) as [->|Hne]; simpl; [eauto|].
    intros Hk. apply elem_of_cons in Hk as [?|Hk]; [congruence|auto].
Qed.

(** Re-inserting a key: every way the cache moves a key to the end. *)
Lemma Map_set_delete m k v :
  Map_set (Map_delete m k) k v = Map_delete m k ++ [(k, v)].
Proof. apply Map_set_fresh, Map_delete_absent. Qed.

Lemma age_used o history k : uses o k = true -> age (o :: history) k = 0.
Proof. simpl. now intros ->. Qed.

Lemma age_unused o history k :
  uses o k = false -> age (o :: history) k = S (age history k).
Proof. simpl. now intros ->. Qed.

Lemma order_shift o history (l : list K) :
  (forall x, x ∈ l -> uses o x = false) ->
  StronglySorted (older history) l -> StronglySorted (older (o :: history)) l.
Proof.
  intros Hl Hs. induction Hs as [|a l Hs IH Ha]; constructor.
  - apply IH. intros x Hx. apply Hl. now right.
  - rewrite Forall_forall in Ha |- *. intros b Hb. unfold older.
    rewrite !age_unused; [|apply Hl; now left|apply Hl; now right].
    specialize (Ha b Hb). unfold older in Ha. lia.
Qed.

Lemma order_filter (R : relation K) (P : K -> Prop) `{forall x, Decision (P x)} (l : list K) :
  StronglySorted R l -> StronglySorted R (filter P l).
Proof.
  induction 1 as [|a l Hs IH Ha]; [constructor|].
  rewrite filter_cons. destruct (decide (P a)); [|assumption].
  constructor; [assumption|].
  rewrite Forall_forall in Ha |- *. intros b Hb. apply Ha.
  apply list_elem_of_filter in Hb. tauto.
Qed.

Lemma order_snoc o history (l : list K) k :
  uses o k = true -> (forall x, x ∈ l -> uses o x = false) ->
  StronglySorted (older (o :: history)) l ->
  StronglySorted (older (o :: history)) (l ++ [k]).
Proof.
  intros Hk Hl Hs. apply StronglySorted_app_2; [|assumption|repeat constructor].
  intros a b Ha Hb. apply list_elem_of_singleton in Hb as ->. unfold older.
  rewrite (age_used _ _ _ Hk), (age_unused _ _ _ (Hl a Ha)). lia.
Qed.

(** Moving [k] to the most recent position, after dropping it and possibly
    other keys. *)
Lemma inv_touch o history c (P : K -> Prop) `{forall x, Decision (P x)} m' k v :
  lru_inv history c ->
  uses o k = true -> (forall x, x ≠ k -> uses o x = false) ->
  m'.*1 = filter (fun x => x ≠ k) (filter P (cache c).*1) ->
  (1 <= capacity c -> S (length m') <= capacity c) ->
  lru_inv (o :: history) {| cache := m' ++ [(k, v)]; capacity := capacity c |}.
Proof.
  intros [Hnd Hsz Hord] Hk Hother Hkeys Hlen.
  assert (Hni : forall x, x ∈ m'.*1 -> x ≠ k).
  { intros x. rewrite Hkeys, list_elem_of_filter. tauto. }
  split; simpl.
  - rewrite fmap_app. simpl. apply NoDup_app. split; [|split].
    + rewrite Hkeys. now apply NoDup_filter, NoDup_filter.
    + intros x Hx Hx'. apply list_elem_of_singleton in Hx'. now apply (Hni x).
    + apply NoDup_singleton.
  - rewrite length_app. simpl. intros Hc. specialize (Hlen Hc). lia.
  - rewrite fmap_app. simpl. apply order_snoc; [assumption|auto|].
    apply order_shift; [auto|]. rewrite Hkeys. now apply order_filter, order_filter.
Qed.

Lemma filter_all (P : K -> Prop) `{forall x, Decision (P x)} (l : list K) :
  (forall x, x ∈ l -> P x) -> filter P l = l.
Proof.
  induction l as [|a l IH]; [reflexivity|]. intros Hl.
  rewrite filter_cons_True by (apply Hl; now left).
  rewrite IH; [reflexivity|]. intros x Hx. apply Hl. now right.
Qed.

Lemma filter_True_id (l : list K) : filter (fun _ => True) l = l.
Proof. now apply filter_all. Qed.

Lemma uses_get_other (k x : K) : x ≠ k -> uses (V:=V) (OpGet k) x = false.
Proof. intros Hne. simpl. apply bool_decide_eq_false. congruence. Qed.

Lemma uses_set_other (k : K) (v : V) (x : K) : x ≠ k -> uses (OpSet k v) x = false.
Proof. intros Hne. simpl. apply bool_decide_eq_false. congruence. Qed.

Lemma uses_get_same (k : K) : uses (V:=V) (OpGet k) k = true.
Proof. simpl. now apply bool_decide_eq_true. Qed.

Lemma uses_set_same (k : K) (v : V) : uses (OpSet k v) k = true.
Proof. simpl. now apply bool_decide_eq_true. Qed.

Lemma length_keys m : length m.*1 = length m.
Proof. apply length_fmap. Qed.

Lemma lru_step_inv o history c :
  lru_inv history c -> lru_inv (o :: history) (lru_step c o).
Proof.
  intros Hinv. pose proof Hinv as [Hnd Hsz Hord]. destruct o as [k|k v|k]; simpl.
  - (* get *)
    unfold LRUCache_get. destruct (Map_has (cache c) k) eqn:Hhas; simpl.
    + apply Map_has_true in Hhas. destruct (Map_get_present _ _ Hhas) as [v ->].
      rewrite Map_set_delete.
      apply (inv_touch _ _ _ (fun _ => True));
        [assumption|apply uses_get_same|apply uses_get_other| |].
      * now rewrite Map_delete_keys, filter_True_id.
      * intros Hc. specialize (Hsz Hc). rewrite <- length_keys, Map_delete_keys.
        pose proof (length_filter_lt (fun x => x ≠ k) _ _ Hhas) as Hlt.
        rewrite length_keys in Hlt. apply Nat.lt_le_trans with (length (cache c)); [|assumption].
        apply Hlt. tauto.
    + apply Map_has_false in Hhas. destruct c as [m cap]. simpl in *.
      split; simpl; [assumption|assumption|].
      apply order_shift; [|assumption]. intros x Hx. apply uses_get_other. congruence.
  - (* set *)
    unfold LRUCache_set. destruct (Map_has (cache c) k) eqn:Hhas.
    + apply Map_has_true in Hhas. rewrite Map_set_delete.
      apply (inv_touch _ _ _ (fun _ => True));
        [assumption|apply uses_set_same|apply uses_set_other| |].
      * now rewrite Map_delete_keys, filter_True_id.
      * intros Hc. specialize (Hsz Hc). rewrite <- length_keys, Map_delete_keys.
        pose proof (length_filter_lt (fun x => x ≠ k) _ _ Hhas) as Hlt.
        rewrite length_keys in Hlt. apply Nat.lt_le_trans with (length (cache c)); [|assumption].
        apply Hlt. tauto.
    + apply Map_has_false in Hhas.
      destruct (capacity c <=? length (cache c)) eqn:Hfull.
      * apply Nat.leb_le in Hfull.
        destruct (cache c) as [|[k0 v0] rest] eqn:Hc.
        { rewrite Map_set_fresh by (simpl; apply not_elem_of_nil).
          apply (inv_touch _ _ _ (fun _ => True));
            [assumption|apply uses_set_same|apply uses_set_other| |simpl in *; lia].
          now rewrite Hc. }
        assert (Hk0 : k0 ≠ k).
        { intros ->. apply Hhas. simpl. now left. }
        rewrite Map_set_fresh.
        2:{ rewrite Map_delete_keys, list_elem_of_filter. tauto. }
        apply (inv_touch _ _ _ (fun x => x ≠ k0));
          [assumption|apply uses_set_same|apply uses_set_other| |].
        -- rewrite Map_delete_keys, Hc. symmetry. apply filter_all.
           intros x Hx ->. apply list_elem_of_filter in Hx as [_ Hx]. now apply Hhas.
        -- intros Hcap. specialize (Hsz Hcap). rewrite <- length_keys, Map_delete_keys.
           assert (Hin : k0 ∈ ((k0, v0) :: rest).*1) by (simpl; now left).
           pose proof (length_filter_lt (fun x => x ≠ k0) _ _ Hin) as Hlt.
           rewrite length_keys in Hlt.
           apply Nat.lt_le_trans with (length ((k0, v0) :: rest)); [|assumption].
           apply Hlt. tauto.
      * apply Nat.leb_gt in Hfull. rewrite Map_set_fresh by assumption.
        apply (inv_touch _ _ _ (fun _ => True));
          [assumption|apply uses_set_same|apply uses_set_other| |].
        -- rewrite filter_True_id. symmetry. apply filter_all.
           intros x Hx ->. now apply Hhas.
        -- intros _. lia.
  - (* delete *)
    split; simpl.
    + rewrite Map_delete_keys. now apply NoDup_filter.
    + intros Hc. specialize (Hsz Hc). unfold Map_delete.
      pose proof (length_filter (fun e : K * V => e.1 ≠ k) (cache c)). lia.
    + apply order_shift.
      * intros x _. reflexivity.
      * rewrite Map_delete_keys. now apply order_filter.
Qed.

Lemma lru_after_capacity cap history : capacity (lru_after (K:=K) (V:=V) cap history) = cap.
Proof.
  induction history as [|o history IH]; [reflexivity|]. simpl.
  destruct o; simpl; try assumption.
  unfold LRUCache_get. destruct (negb _); simpl; assumption.
Qed.

Lemma lru_after_inv cap history : lru_inv history (lru_after cap history).
Proof.
  induction history as [|o history IH]; simpl.
  - split; simpl; [constructor|lia|constructor].
  - now apply lru_step_inv.
Qed.

Lemma lru_run_after cap ops : lru_run (K:=K) (V:=V) cap ops = lru_after cap (rev ops).
Proof.
  unfold lru_run. induction ops as [|o ops IH] using rev_ind; [reflexivity|].
  rewrite foldl_snoc, rev_unit, IH. reflexivity.
Qed.

Lemma lru_run_inv cap ops : lru_inv (rev ops) (lru_run cap ops).
Proof. rewrite lru_run_after. apply lru_after_inv. Qed.

Lemma lru_run_capacity cap ops : capacity (lru_run (K:=K) (V:=V) cap ops) = cap.
Proof. rewrite lru_run_after. apply lru_after_capacity. Qed.

Lemma lru_run_size cap ops :
  1 <= cap -> LRUCache_size (lru_run (K:=K) (V:=V) cap ops) <= cap.
Proof.
  intros Hcap. destruct (lru_run_inv cap ops) as [_ Hsz _].
  rewrite lru_run_capacity in Hsz. now apply Hsz.
Qed.

(** C9. With a capacity of at least one entry, the cache never holds more
    than [capacity] entries, whatever calls of [get], [set] and [delete]
    are made; a [set] of a new key on a full cache removes the entry whose
    last [get] or [set] is the oldest, and appends the new one; a [get]
    that hits and every [set] leave their key in the most recent
    position. *)
Theorem LRUCache_bounded_lru (cap : nat) (ops : list (LRUOp K V)) :
  1 <= cap ->
  let c := lru_run cap ops in
  (forall earlier, earlier `prefix_of` ops ->
     LRUCache_size (lru_run (K:=K) (V:=V) cap earlier) <= cap)
  /\ (forall key value,
        Map_has (cache c) key = false -> cap <= LRUCache_size c ->
        exists lru v0 rest,
          cache c = (lru, v0) :: rest
          /\ cache (LRUCache_set c key value) = rest ++ [(key, value)]
          /\ forall k, k ∈ rest.*1 -> age (rev ops) k < age (rev ops) lru)
  /\ (forall key,
        Map_has (cache c) key = true ->
        exists v, (LRUCache_get c key).1 = Some v
                  /\ last (cache (LRUCache_get c key).2) = Some (key, v))
  /\ (forall key value,
        last (cache (LRUCache_set c key value)) = Some (key, value)).
Proof.
  intros Hcap c. pose proof (lru_run_inv cap ops) as Hinv. fold c in Hinv.
  pose proof (lru_run_capacity cap ops) as Hc. fold c in Hc.
  destruct Hinv as [Hnd Hsz Hord]. split; [|split; [|split]].
  - intros earlier _. now apply lru_run_size.
  - intros key value Hhas Hfull. unfold LRUCache_size in Hfull.
    destruct (cache c) as [|[lru v0] rest] eqn:Hm; [simpl in Hfull; lia|].
    exists lru, v0, rest. split; [reflexivity|].
    simpl in Hnd. apply NoDup_cons in Hnd as [Hlru Hnd].
    apply Map_has_false in Hhas. split.
    + unfold LRUCache_set. rewrite Hm.
      apply Map_has_false in Hhas as Hhas'. rewrite Hhas', Hc.
      apply Nat.leb_le in Hfull as Hfull'. rewrite Hfull'. cbn [cache].
      assert (Hdel : Map_delete ((lru, v0) :: rest) lru = rest).
      { unfold Map_delete. rewrite filter_cons_False by (simpl; tauto).
        now apply Map_delete_id. }
      rewrite Hdel. apply Map_set_fresh. intros Hin. apply Hhas. simpl. now right.
    + intros k Hk. simpl in Hord. apply StronglySorted_cons in Hord as [Hall _].
      rewrite Forall_forall in Hall. exact (Hall k Hk).
  - intros key Hhas. unfold LRUCache_get. rewrite Hhas. simpl.
    apply Map_has_true in Hhas. destruct (Map_get_present _ _ Hhas) as [v Hv].
    exists v. rewrite Hv. split; [reflexivity|].
    simpl. rewrite Map_set_delete. apply last_snoc.
  - intros key value. unfold LRUCache_set. simpl.
    destruct (Map_has (cache c) key) eqn:Hhas.
    + rewrite Map_set_delete. apply last_snoc.
    + apply Map_has_false in Hhas.
      rewrite Map_set_fresh; [apply last_snoc|].
      destruct (capacity c <=? length (cache c)); [|assumption].
      destruct (cache c) as [|[k0 v0] rest]; [assumption|].
      rewrite Map_delete_keys, list_elem_of_filter. tauto.
Qed.

End LRUCacheProps.

Lemma LRUCache_bounded_lru_witness :
  let ops := [OpSet 1 10; OpSet 2 20; OpGet 1; OpSet 3 30; OpDelete 2] in
  1 <= 2 /\
  LRUCache_size (lru_run (K:=nat) (V:=nat) 2 ops) <= 2.
Proof.
  intros ops. split; [lia|].
  apply (LRUCache_bounded_lru (K:=nat) (V:=nat) 2 ops); [lia|reflexivity].
Defined.

Example lru_evicts_b :
  cache (lru_run 3 [OpSet "a" 1; OpSet "b" 2; OpSet "c" 3; OpGet "a"; OpSet "d" 4])
  = [("c", 3); ("a", 1); ("d", 4)].
Proof. vm_compute. reflexivity. Qed.

(** ** The disjoint-set forest *)

Create HintDb uf.
#[local] Hint Constructors root_of chain : uf.

Lemma root_of_is_root p x r : root_of p x r -> p !! r = Some r.
Proof. induction 1; assumption. Qed.

Lemma root_of_lt p x r : root_of p x r -> x < length p.
Proof. destruct 1; eapply lookup_lt_Some; eassumption. Qed.

Lemma root_of_fun p x r r' : root_of p x r -> root_of p x r' -> r = r'.
Proof.
  intros H. revert r'. induction H as [x Hx|x y r Hx Hne _ IH]; intros r' H'.
  - destruct H' as [x _|x y r' Hy Hne _]; [reflexivity|congruence].
  - destruct H' as [x Hx'|x y' r' Hy' _ H']; [congruence|].
    apply IH. congruence.
Qed.

Lemma root_of_root p r x : p !! r = Some r -> root_of p r x -> x = r.
Proof. intros Hr H. symmetry. eapply root_of_fun; [|exact H]. now constructor. Qed.

Lemma chain_root_of p x r l : chain p x r l -> root_of p x r.
Proof. induction 1; eauto with uf. Qed.

Lemma root_of_chain p x r : root_of p x r -> exists l, chain p x r l.
Proof. induction 1 as [|x y r Hx Hne _ [l IH]]; eauto with uf. Qed.

Lemma chain_fun p x r l r' l' : chain p x r l -> chain p x r' l' -> l = l'.
Proof.
  intros H. revert r' l'. induction H as [x Hx|x y r l Hx Hne _ IH]; intros r' l' H'.
  - destruct H' as [x _|x y r' l' Hy Hne _]; [reflexivity|congruence].
  - destruct H' as [x Hx'|x y' r' l' Hy' _ H']; [congruence|].
    f_equal. apply (IH r'). congruence.
Qed.

Lemma chain_from p x r l z :
  chain p x r l -> z ∈ l -> exists l', chain p z r l' /\ length l' <= length l.
Proof.
  induction 1 as [x Hx|x y r l Hx Hne H IH]; intros Hz.
  - apply list_elem_of_singleton in Hz as ->. exists [x]. split; [now constructor|simpl; lia].
  - apply elem_of_cons in Hz as [->|Hz].
    + exists (x :: l). split; [eapply chain_step; eassumption|lia].
    + destruct (IH Hz) as (l' & Hl' & Hlen). exists l'. split; [assumption|simpl; lia].
Qed.

Lemma chain_NoDup p x r l : chain p x r l -> NoDup l.
Proof.
  induction 1 as [x Hx|x y r l Hx Hne H IH].
  - apply NoDup_singleton.
  - constructor; [|assumption]. intros Hin.
    destruct (chain_from _ _ _ _ _ H Hin) as (l' & Hl' & Hlen).
    assert (l' = x :: l) as ->.
    { eapply chain_fun; [eassumption|eapply chain_step; eassumption]. }
    simpl in Hlen. lia.
Qed.

Lemma chain_lt p x r l z : chain p x r l -> z ∈ l -> z < length p.
Proof.
  induction 1 as [x Hx|x y r l Hx Hne H IH]; intros Hz.
  - apply list_elem_of_singleton in Hz as ->. eapply lookup_lt_Some; eassumption.
  - apply elem_of_cons in Hz as [->|Hz]; [eapply lookup_lt_Some; eassumption|auto].
Qed.

(** A chain visits no cell twice, hence at most as many cells as the
    array has. *)
Lemma chain_length p x r l : chain p x r l -> length l <= length p.
Proof.
  intros H. rewrite <- (length_seq (length p) 0). apply submseteq_length.
  apply NoDup_submseteq; [eapply chain_NoDup; eassumption|].
  intros z Hz. apply elem_of_seq. pose proof (chain_lt _ _ _ _ _ H Hz). lia.
Qed.

(** Path compression: redirecting a cell to its own root keeps every
    root. *)
Lemma compress_root_of p x r :
  root_of p x r -> x ≠ r ->
  forall y ry, root_of p y ry -> root_of (<[x := r]> p) y ry.
Proof.
  intros Hx Hne y ry H. induction H as [y Hy|y z ry Hy Hzy H IH].
  - assert (y ≠ x).
    { intros ->. apply Hne. symmetry. now apply (root_of_root p x r). }
    constructor. now rewrite list_lookup_insert_ne.
  - destruct (decide (y = x)) as [->|Hyx].
    + assert (ry = r) as ->.
      { eapply root_of_fun; [|exact Hx]. econstructor; eassumption. }
      apply root_step with r; [|congruence|].
      * apply list_lookup_insert_eq. now apply root_of_lt in Hx.
      * constructor. rewrite list_lookup_insert_ne by assumption.
        now apply root_of_is_root in Hx.
    + apply root_step with z; [|assumption|assumption].
      now rewrite list_lookup_insert_ne.
Qed.

(** [find] returns the root, within a fuel of the length of the chain. *)
Lemma find_rec_chain p x r l fuel :
  chain p x r l -> length l <= fuel ->
  exists p', find_rec fuel p x = Some (p', r)
             /\ length p' = length p
             /\ forall y ry, root_of p y ry -> root_of p' y ry.
Proof.
  intros H. revert fuel. induction H as [x Hx|x y r l Hx Hne H IH]; intros fuel Hfuel.
  - destruct fuel as [|fuel]; [simpl in Hfuel; lia|]. simpl. rewrite Hx.
    rewrite decide_True by reflexivity. eauto.
  - destruct fuel as [|fuel]; [simpl in Hfuel; lia|]. simpl in *. rewrite Hx.
    rewrite decide_False by assumption.
    destruct (IH fuel) as (p1 & -> & Hlen & Hroots); [lia|].
    exists (<[x := r]> p1). split; [reflexivity|]. split.
    + now rewrite length_insert.
    + intros z rz Hz. apply compress_root_of; [| |auto].
      * apply Hroots. econstructor; [eassumption..|]. eapply chain_root_of; eassumption.
      * intros ->. apply chain_root_of, root_of_is_root in H. congruence.
Qed.

(** More fuel does not change a result: the result of [find] is the
    result of the unbounded recursion of the source. *)
Lemma find_rec_fuel_mono fuel fuel' p x res :
  find_rec fuel p x = Some res -> fuel <= fuel' -> find_rec fuel' p x = Some res.
Proof.
  revert fuel' p x res. induction fuel as [|fuel IH]; intros fuel' p x res Hfind Hle.
  - discriminate.
  - destruct fuel' as [|fuel']; [lia|]. simpl in *.
    destruct (p !! x) as [px|]; [|discriminate].
    destruct (decide (px = x)); [assumption|].
    destruct (find_rec fuel p px) as [[p' r]|] eqn:Hrec; [|discriminate].
    rewrite (IH fuel' p px (p', r) Hrec) by lia. assumption.
Qed.

Lemma roots_preserved_forest p p' :
  length p' = length p -> forest p ->
  (forall y ry, root_of p y ry -> root_of p' y ry) -> forest p'.
Proof.
  intros Hlen Hf Hroots x Hx. rewrite Hlen in Hx.
  destruct (Hf x Hx) as [r Hr]. eauto.
Qed.

Lemma roots_preserved_inv p p' :
  forest p -> (forall y ry, root_of p y ry -> root_of p' y ry) ->
  forall y ry, y < length p -> root_of p' y ry -> root_of p y ry.
Proof.
  intros Hf Hroots y ry Hy H. destruct (Hf y Hy) as [r Hr].
  now rewrite (root_of_fun _ _ _ _ H (Hroots _ _ Hr)).
Qed.

Lemma find_spec uf x :
  forest (parent uf) -> x < length (parent uf) ->
  exists uf' r,
    find uf x = Some (uf', r)
    /\ root_of (parent uf) x r
    /\ rank uf' = rank uf
    /\ length (parent uf') = length (parent uf)
    /\ forest (parent uf')
    /\ forall y ry, root_of (parent uf) y ry <-> root_of (parent uf') y ry.
Proof.
  intros Hf Hx. destruct (Hf x Hx) as [r Hr].
  destruct (root_of_chain _ _ _ Hr) as [l Hl].
  destruct (find_rec_chain _ _ _ _ (length (parent uf)) Hl) as (p' & Hfind & Hlen & Hroots).
  { eapply chain_length; eassumption. }
  exists {| parent := p'; rank := rank uf |}, r. unfold find. rewrite Hfind.
  repeat split; simpl; auto.
  - eapply roots_preserved_forest; eassumption.
  - intros H. eapply roots_preserved_inv; try eassumption.
    rewrite <- Hlen. eapply root_of_lt; eassumption.
Qed.

Lemma link_root_of p rx ry :
  p !! rx = Some rx -> p !! ry = Some ry -> rx ≠ ry ->
  forall a r, root_of p a r -> root_of (<[rx := ry]> p) a (relink rx ry r).
Proof.
  intros Hrx Hry Hne a r H. unfold relink.
  induction H as [a Ha|a z r Ha Hza H IH].
  - destruct (decide (a = rx)) as [->|Hax].
    + apply root_step with ry; [|congruence|].
      * apply list_lookup_insert_eq. eapply lookup_lt_Some; eassumption.
      * constructor. rewrite list_lookup_insert_ne by assumption. assumption.
    + constructor. now rewrite list_lookup_insert_ne.
  - assert (a ≠ rx) by congruence.
    apply root_step with z; [|assumption|assumption].
    now rewrite list_lookup_insert_ne.
Qed.

Lemma relink_same rx r : relink rx rx r = r.
Proof. unfold relink. destruct (decide (r = rx)); congruence. Qed.

Lemma link_forest p rx ry :
  forest p -> p !! rx = Some rx -> p !! ry = Some ry -> rx ≠ ry ->
  forest (<[rx := ry]> p).
Proof.
  intros Hf Hrx Hry Hne a Ha. rewrite length_insert in Ha.
  destruct (Hf a Ha) as [r Hr]. eauto using link_root_of.
Qed.

(** What [union] does to the roots: nothing when the two roots coincide,
    otherwise one of them is linked under the other. *)
Lemma union_spec uf x y :
  forest (parent uf) -> x < length (parent uf) -> y < length (parent uf) ->
  exists uf' rx ry,
    union uf x y = Some uf'
    /\ root_of (parent uf) x rx /\ root_of (parent uf) y ry
    /\ length (parent uf') = length (parent uf)
    /\ forest (parent uf')
    /\ ((forall a r, root_of (parent uf) a r -> root_of (parent uf') a (relink rx ry r))
        \/ (forall a r, root_of (parent uf) a r -> root_of (parent uf') a (relink ry rx r))).
Proof.
  intros Hf Hx Hy.
  destruct (find_spec uf x Hf Hx) as (uf1 & rx & Hfx & Hrx & Hrk1 & Hlen1 & Hf1 & Hroots1).
  rewrite <- Hlen1 in Hy.
  destruct (find_spec uf1 y Hf1 Hy) as (uf2 & ry & Hfy & Hry & Hrk2 & Hlen2 & Hf2 & Hroots2).
  assert (Hroots : forall a r, root_of (parent uf) a r <-> root_of (parent uf2) a r).
  { intros a r. now rewrite Hroots1, Hroots2. }
  assert (Hrx2 : parent uf2 !! rx = Some rx).
  { apply Hroots in Hrx. now apply root_of_is_root in Hrx. }
  assert (Hry2 : parent uf2 !! ry = Some ry).
  { apply Hroots2 in Hry. now apply root_of_is_root in Hry. }
  unfold union. rewrite Hfx, Hfy.
  destruct (decide (rx = ry)) as [Heq|Hne].
  - exists uf2, rx, ry. repeat split; auto.
    + now apply Hroots1.
    + congruence.
    + left. intros a r Hr. subst ry. rewrite relink_same. now apply Hroots.
  - set (rankX := default 0 (rank uf2 !! rx)). set (rankY := default 0 (rank uf2 !! ry)).
    destruct (rankX <? rankY); [|destruct (rankY <? rankX)];
      eexists _, rx, ry; (split; [reflexivity|]);
      (split; [assumption|]); (split; [now apply Hroots1|]); simpl;
      (split; [rewrite length_insert; congruence|]).
    + split; [now apply link_forest|].
      left. intros a r Hr. apply link_root_of; auto. now apply Hroots.
    + split; [apply link_forest; auto|].
      right. intros a r Hr. apply link_root_of; auto. now apply Hroots.
    + split; [apply link_forest; auto|].
      right. intros a r Hr. apply link_root_of; auto. now apply Hroots.
Qed.

Lemma same_set_roots uf a b ra rb :
  root_of (parent uf) a ra -> root_of (parent uf) b rb ->
  same_set uf a b <-> ra = rb.
Proof.
  intros Ha Hb. split.
  - intros (r & Ha' & Hb').
    now rewrite (root_of_fun _ _ _ _ Ha Ha'), (root_of_fun _ _ _ _ Hb Hb').
  - intros <-. now exists ra.
Qed.

Lemma find_same_set uf x uf' r :
  forest (parent uf) -> x < length (parent uf) -> find uf x = Some (uf', r) ->
  forall a b, same_set uf' a b <-> same_set uf a b.
Proof.
  intros Hf Hx Hfind.
  destruct (find_spec uf x Hf Hx) as (uf1 & r1 & Hfx & _ & _ & _ & _ & Hroots).
  rewrite Hfind in Hfx. injection Hfx as <- <-.
  intros a b. unfold same_set. split; intros (s & Ha & Hb); exists s;
    split; now apply Hroots.
Qed.

Lemma union_same_set uf x y uf' :
  forest (parent uf) -> x < length (parent uf) -> y < length (parent uf) ->
  union uf x y = Some uf' ->
  forall a b, a < length (parent uf) -> b < length (parent uf) ->
    same_set uf' a b <->
    same_set uf a b \/ (same_set uf a x /\ same_set uf b y)
    \/ (same_set uf a y /\ same_set uf b x).
Proof.
  intros Hf Hx Hy Hun a b Ha Hb.
  destruct (union_spec uf x y Hf Hx Hy)
    as (uf1 & rx & ry & Hun' & Hrx & Hry & _ & _ & Hlink).
  rewrite Hun in Hun'. injection Hun' as <-.
  destruct (Hf a Ha) as [ra Hra]. destruct (Hf b Hb) as [rb Hrb].
  rewrite (same_set_roots uf a b ra rb), (same_set_roots uf a x ra rx),
    (same_set_roots uf b y rb ry), (same_set_roots uf a y ra ry),
    (same_set_roots uf b x rb rx) by assumption.
  destruct Hlink as [Hlink|Hlink];
    rewrite (same_set_roots uf' a b _ _ (Hlink _ _ Hra) (Hlink _ _ Hrb));
    unfold relink; repeat case_decide; split; intros; subst; intuition congruence.
Qed.

Lemma UnionFind_new_parent size x :
  x < size -> parent (UnionFind_new size) !! x = Some x.
Proof.
  intros Hx. unfold UnionFind_new. simpl. rewrite list_lookup_imap.
  rewrite lookup_replicate_2 by assumption. reflexivity.
Qed.

Lemma UnionFind_new_length size : length (parent (UnionFind_new size)) = size.
Proof. unfold UnionFind_new. simpl. now rewrite length_imap, length_replicate. Qed.

Lemma UnionFind_new_forest size : forest (parent (UnionFind_new size)).
Proof.
  intros x Hx. rewrite UnionFind_new_length in Hx. exists x. constructor.
  now apply UnionFind_new_parent.
Qed.

Lemma uf_step_forest uf o :
  forest (parent uf) -> op_in_range (length (parent uf)) o ->
  exists uf', uf_step uf o = Some uf'
              /\ length (parent uf') = length (parent uf) /\ forest (parent uf').
Proof.
  intros Hf Ho. destruct o as [x|x y]; simpl in *.
  - destruct (find_spec uf x Hf Ho) as (uf' & r & -> & _ & _ & Hlen & Hf' & _).
    simpl. eauto.
  - destruct Ho as [Hx Hy].
    destruct (union_spec uf x y Hf Hx Hy) as (uf' & rx & ry & -> & _ & _ & Hlen & Hf' & _).
    eauto.
Qed.

Lemma uf_run_forest uf ops :
  forest (parent uf) -> Forall (op_in_range (length (parent uf))) ops ->
  exists uf', uf_run uf ops = Some uf'
              /\ length (parent uf') = length (parent uf) /\ forest (parent uf').
Proof.
  intros Hf Hops. revert uf Hf Hops.
  induction ops as [|o ops IH]; intros uf Hf Hops; simpl; [eauto|].
  apply Forall_cons in Hops as [Ho Hops].
  destruct (uf_step_forest uf o Hf Ho) as (uf1 & -> & Hlen & Hf1).
  rewrite <- Hlen in Hops. destruct (IH uf1 Hf1 Hops) as (uf' & Hrun & Hlen' & Hf').
  exists uf'. repeat split; [assumption|congruence|assumption].
Qed.

(** C10. From the forest [new UnionFind(n)], after any sequence of [find]
    and [union] calls on indices below [n], the parent array is a rooted
    forest: from every index the parent chain visits no cell twice and
    ends in a cell that is its own parent.  Hence every [find] returns,
    with that root, and leaves every pair of indices in the same set or in
    different sets as before; and [union x y] returns and merges exactly
    the sets of [x] and [y]. *)
Theorem UnionFind_forest_invariant (n : nat) (ops : list UFOp) :
  Forall (op_in_range n) ops ->
  exists uf,
    uf_run (UnionFind_new n) ops = Some uf
    /\ length (parent uf) = n
    /\ (forall x, x < n ->
          exists r l, chain (parent uf) x r l /\ NoDup l /\ parent uf !! r = Some r)
    /\ (forall x, x < n ->
          exists uf' r,
            find uf x = Some (uf', r)
            /\ root_of (parent uf) x r /\ parent uf' !! r = Some r
            /\ forall a b, same_set uf' a b <-> same_set uf a b)
    /\ (forall x y, x < n -> y < n ->
          exists uf',
            union uf x y = Some uf'
            /\ forall a b, a < n -> b < n ->
                 (same_set uf' a b <->
                  same_set uf a b \/ (same_set uf a x /\ same_set uf b y)
                  \/ (same_set uf a y /\ same_set uf b x))).
Proof.
  intros Hops.
  destruct (uf_run_forest (UnionFind_new n) ops) as (uf & Hrun & Hlen & Hf).
  { apply UnionFind_new_forest. }
  { now rewrite UnionFind_new_length. }
  rewrite UnionFind_new_length in Hlen.
  exists uf. split; [assumption|]. split; [assumption|]. split; [|split].
  - intros x Hx. rewrite <- Hlen in Hx. destruct (Hf x Hx) as [r Hr].
    destruct (root_of_chain _ _ _ Hr) as [l Hl]. exists r, l.
    split; [assumption|]. split; [eapply chain_NoDup; eassumption|].
    eapply root_of_is_root; eassumption.
  - intros x Hx. rewrite <- Hlen in Hx.
    destruct (find_spec uf x Hf Hx) as (uf' & r & Hfind & Hr & _ & _ & _ & Hroots).
    exists uf', r. split; [assumption|]. split; [assumption|]. split.
    + apply Hroots in Hr. eapply root_of_is_root; eassumption.
    + eapply find_same_set; eassumption.
  - intros x y Hx Hy. rewrite <- Hlen in Hx, Hy.
    destruct (union_spec uf x y Hf Hx Hy) as (uf' & rx & ry & Hun & _).
    exists uf'. split; [assumption|]. intros a b Ha Hb. rewrite <- Hlen in Ha, Hb.
    eapply union_same_set; eassumption.
Qed.

Lemma UnionFind_forest_invariant_witness :
  Forall (op_in_range 4) [OpUnion 0 1; OpUnion 2 3; OpFind 1; OpUnion 1 3; OpFind 3]
  /\ exists uf,
       uf_run (UnionFind_new 4) [OpUnion 0 1; OpUnion 2 3; OpFind 1; OpUnion 1 3; OpFind 3]
       = Some uf.
Proof.
  assert (H : Forall (op_in_range 4)
                [OpUnion 0 1; OpUnion 2 3; OpFind 1; OpUnion 1 3; OpFind 3]).
  { repeat constructor; simpl; lia. }
  split; [exact H|].
  destruct (UnionFind_forest_invariant 4 _ H) as (uf & Hrun & _). now exists uf.
Defined.

Example uf_run_example :
  uf_run (UnionFind_new 4) [OpUnion 0 1; OpUnion 2 3; OpFind 1; OpUnion 1 3; OpFind 3]
  = Some {| parent := [0; 0; 0; 0]; rank := [2; 0; 1; 0] |}.
Proof. vm_compute. reflexivity. Qed.

(** ** The orchestrator: validation *)

Lemma filterValid_spec h events :
  Forall (fun e => nullish e = false) events ->
  filterValid h events
  = (filter (fun e => passes h e = true) events,
     skip_diagnostic h <$> filter (fun e => fails h e = true) events,
     false).
Proof.
  induction 1 as [|event rest Hev _ IH]; [reflexivity|].
  simpl. rewrite Hev, IH. rewrite !filter_cons. unfold fails, passes.
  rewrite <- negb_andb.
  destruct (truthy (member h event "coordinates")
            && isValidCoordinate h (member h event "coordinates")) eqn:Hp; simpl.
  - reflexivity.
  - reflexivity.
Qed.

(** With an element that is [undefined] or [null], the loop is left by a
    TypeError. *)
Lemma filterValid_threw h events :
  (filterValid h events).2 = true <-> Exists (fun e => nullish e = true) events.
Proof.
  induction events as [|event rest IH]; simpl.
  - split; [discriminate|]. intros H. inversion H.
  - destruct (nullish event) eqn:Hn; simpl.
    + split; [|reflexivity]. intros _. now left.
    + destruct (filterValid h rest) as [[v w] t]. simpl in IH.
      assert (Ht : forall (b : bool) (x y : list Value * list Diagnostic * bool),
                 x.2 = t -> y.2 = t -> (if b then x else y).2 = t)
        by (intros []; auto).
      rewrite Ht by reflexivity. rewrite IH. split.
      * intros H. now right.
      * intros H. apply Exists_cons in H as [H|H]; [congruence|assumption].
Qed.

Lemma passes_valid_point h event :
  passes h event = true ->
  exists lat lon, valid_point h (member h event "coordinates") lat lon.
Proof.
  unfold passes. intros H. apply andb_prop in H as [_ H].
  now apply (isValidCoordinate_true h).
Qed.

(** ** The grid index *)

Lemma grid_insert_lookup (h : Heap) (dpc : Num) (grid : Grid)
    (index : nat) (event : Value) (key : Ix * Ix) :
  default [] (grid_insert h dpc grid (index, event) !! key)
  = default [] (grid !! key) ++ (if decide (key = cell h dpc event) then [index] else []).
Proof.
  unfold grid_insert. fold (cell h dpc event).
  set (c := cell h dpc event).
  destruct (decide (key = c)) as [->|Hne].
  - rewrite lookup_insert_eq. simpl.
    destruct (decide (is_Some (grid !! c))) as [_|Hnone]; [reflexivity|].
    rewrite lookup_insert_eq. simpl.
    destruct (grid !! c) eqn:Hc; [exfalso; eauto|reflexivity].
  - rewrite lookup_insert_ne by congruence.
    destruct (decide (is_Some (grid !! c))) as [_|_].
    + now rewrite app_nil_r.
    + rewrite lookup_insert_ne by congruence. now rewrite app_nil_r.
Qed.

Lemma createGridIndex_elem (h : Heap) (events : list Value) (radius : Num)
    (key : Ix * Ix) (j : nat) :
  j ∈ default [] ((createGridIndex h events radius).1 !! key)
  <-> exists e, events !! j = Some e
                /\ cell h (createGridIndex h events radius).2 e = key.
Proof.
  unfold createGridIndex. simpl. set (dpc := num_mul radius (Fin degPerMeter)).
  induction events as [|x events IH] using rev_ind.
  - simpl. rewrite lookup_empty. simpl. split.
    + intros H. inversion H.
    + intros (e & He & _). discriminate.
  - assert (Himap : imap pair (events ++ [x]) = imap pair events ++ [(length events, x)]).
    { rewrite imap_app. simpl. now rewrite Nat.add_0_r. }
    rewrite Himap, foldl_snoc, grid_insert_lookup, elem_of_app, IH. split.
    + intros [(e & He & Hc)|Hj].
      * exists e. split; [|assumption]. now apply lookup_app_l_Some.
      * destruct (decide (key = cell h dpc x)) as [->|_]; [|inversion Hj].
        apply list_elem_of_singleton in Hj as ->. exists x. split; [|reflexivity].
        rewrite lookup_app_r by lia. now rewrite Nat.sub_diag.
    + intros (e & He & Hc). apply lookup_app_Some in He as [He|[Hge He]].
      * left. eauto.
      * right. destruct (decide (j - length events = 0)) as [H0|Hn].
        -- rewrite H0 in He. simpl in He. injection He as <-.
           rewrite decide_True by now symmetry.
           apply list_elem_of_singleton. lia.
        -- destruct (j - length events) as [|k]; [congruence|]. discriminate.
Qed.

Lemma getNearbyIndices_elem (grid : Grid) (row col : Ix) (j : nat) :
  j ∈ getNearbyIndices grid row col
  <-> exists key, adjacent (row, col) key /\ j ∈ default [] (grid !! key).
Proof.
  unfold getNearbyIndices, adjacent. rewrite list_elem_of_In, in_flat_map. split.
  - intros (i & Hi & Hj). apply in_flat_map in Hj as (k & Hk & Hj).
    exists (ix_add row i, ix_add col k). split.
    + exists i, k. rewrite <- !list_elem_of_In in *. auto.
    + apply list_elem_of_In in Hj.
      destruct (decide (is_Some _)); [assumption|inversion Hj].
  - intros (key & (i & k & Hi & Hk & ->) & Hj). simpl in Hj.
    exists i. split; [now apply list_elem_of_In|].
    apply in_flat_map. exists k. split; [now apply list_elem_of_In|].
    apply list_elem_of_In.
    destruct (decide (is_Some _)) as [|Hnone]; [assumption|].
    destruct (grid !! _) eqn:Hg; [exfalso; eauto|assumption].
Qed.

(** ** The orchestrator: the union loops *)

Lemma linked_mono (pairs pairs' : list (nat * nat)) a b :
  (forall p, p ∈ pairs -> p ∈ pairs') -> linked pairs a b -> linked pairs' a b.
Proof.
  intros Hsub. unfold linked.
  apply (rtsc_congruence (fun x : nat => x) (fun a b : nat => (a, b) ∈ pairs')). intros x y. apply Hsub.
Qed.

Lemma linked_snoc (pairs : list (nat * nat)) x y a b :
  linked (pairs ++ [(x, y)]) a b
  <-> linked pairs a b \/ (linked pairs a x /\ linked pairs b y)
      \/ (linked pairs a y /\ linked pairs b x).
Proof.
  assert (Hin : forall p, p ∈ pairs -> p ∈ pairs ++ [(x, y)]).
  { intros p Hp. apply elem_of_app. now left. }
  assert (Hxy : linked (pairs ++ [(x, y)]) x y).
  { apply rtsc_lr. apply elem_of_app. right. now apply list_elem_of_singleton. }
  split.
  - intros H. unfold linked, rtsc in H.
    induction H as [a|a a' b Hstep _ IH].
    + left. reflexivity.
    + assert (Hcase : linked pairs a a' \/ (a = x /\ a' = y) \/ (a = y /\ a' = x)).
      { destruct Hstep as [Hs|Hs]; apply elem_of_app in Hs as [Hs|Hs].
        - left. now apply rtsc_lr.
        - apply list_elem_of_singleton in Hs. injection Hs as -> ->. auto.
        - left. now apply rtsc_rl.
        - apply list_elem_of_singleton in Hs. injection Hs as -> ->. auto. }
      unfold linked in *.
      destruct Hcase as [Haa|[[-> ->]|[-> ->]]].
      * destruct IH as [IH|[[IH1 IH2]|[IH1 IH2]]].
        -- left. now transitivity a'.
        -- right. left. split; [now transitivity a'|assumption].
        -- right. right. split; [now transitivity a'|assumption].
      * destruct IH as [IH|[[IH1 IH2]|[IH1 IH2]]].
        -- right. left. split; [reflexivity|now symmetry].
        -- left. transitivity y; [now symmetry|now symmetry].
        -- left. now symmetry.
      * destruct IH as [IH|[[IH1 IH2]|[IH1 IH2]]].
        -- right. right. split; [reflexivity|now symmetry].
        -- left. now symmetry.
        -- left. transitivity x; [now symmetry|now symmetry].
  - intros [H|[[H1 H2]|[H1 H2]]].
    + eapply linked_mono; eassumption.
    + unfold linked in *. transitivity x; [eapply linked_mono; eassumption|].
      transitivity y; [assumption|]. symmetry. eapply linked_mono; eassumption.
    + unfold linked in *. transitivity y; [eapply linked_mono; eassumption|].
      transitivity x; [now symmetry|]. symmetry. eapply linked_mono; eassumption.
Qed.

Lemma linked_nil a b : linked [] a b <-> a = b.
Proof.
  split; [|intros ->; reflexivity].
  intros H. unfold linked, rtsc in H. destruct H as [|a a' b [Hs|Hs] _]; [reflexivity| |];
    inversion Hs.
Qed.

Lemma uf_links_new n : uf_links n (Some (UnionFind_new n)) [].
Proof.
  exists (UnionFind_new n). split; [reflexivity|]. split; [apply UnionFind_new_length|].
  split; [apply UnionFind_new_forest|]. intros a b Ha Hb. rewrite linked_nil.
  rewrite (same_set_roots _ a b a b); [reflexivity| |];
    constructor; now apply UnionFind_new_parent.
Qed.

Lemma uf_links_union n uf pairs x y :
  uf_links n (Some uf) pairs -> x < n -> y < n ->
  uf_links n (union uf x y) (pairs ++ [(x, y)]).
Proof.
  intros (uf0 & [= <-] & Hlen & Hf & Hsame) Hx Hy. rewrite <- Hlen in Hx, Hy.
  destruct (union_spec uf x y Hf Hx Hy) as (uf' & rx & ry & Hun & _ & _ & Hlen' & Hf' & _).
  exists uf'. split; [assumption|]. split; [congruence|]. split; [assumption|].
  intros a b Ha Hb. rewrite <- Hlen in Ha, Hb.
  rewrite (union_same_set uf x y uf' Hf Hx Hy Hun a b Ha Hb), linked_snoc.
  rewrite Hlen in Ha, Hb, Hx, Hy.
  rewrite !Hsame by assumption.
  assert (Hsym : linked pairs y b <-> linked pairs b y) by (split; intros; now symmetry).
  assert (Hsym' : linked pairs x b <-> linked pairs b x) by (split; intros; now symmetry).
  tauto.
Qed.

Lemma union_nearby_links h radius events n i nearby unionFind pairs :
  i < n -> Forall (fun j => j < n) nearby ->
  uf_links n unionFind pairs ->
  uf_links n (foldl (union_nearby h radius events i) unionFind nearby)
             (pairs ++ row_pairs h radius events i nearby).
Proof.
  intros Hi Hnear. revert unionFind pairs.
  induction Hnear as [|j nearby Hj _ IH]; intros unionFind pairs Hinv.
  - unfold row_pairs. simpl. now rewrite app_nil_r.
  - simpl. unfold row_pairs. rewrite filter_cons.
    pose proof Hinv as (uf & -> & _). simpl. fold (within h radius events i j).
    destruct (Nat.ltb_spec i j) as [Hlt|Hge].
    + destruct (within h radius events i j) eqn:Hw.
      * rewrite decide_True by auto. rewrite fmap_cons.
        change (pairs ++ (i, j) :: ?l) with (pairs ++ [(i, j)] ++ l).
        rewrite app_assoc. apply IH. now apply uf_links_union.
      * rewrite decide_False by (intros [_ ?]; discriminate). now apply IH.
    + rewrite decide_False by (intros [? _]; lia). now apply IH.
Qed.

Lemma nearby_of_elem h radius events i j ei :
  events !! i = Some ei ->
  j ∈ nearby_of h radius events i
  <-> exists ej, events !! j = Some ej
                 /\ adjacent (cell h (num_mul radius (Fin degPerMeter)) ei)
                             (cell h (num_mul radius (Fin degPerMeter)) ej).
Proof.
  intros Hi. unfold nearby_of.
  pose proof (createGridIndex_elem h events radius) as Hgrid.
  destruct (createGridIndex h events radius) as [grid dpc] eqn:Hc.
  assert (Hdpc : dpc = num_mul radius (Fin degPerMeter)).
  { unfold createGridIndex in Hc. now injection Hc as _ <-. }
  simpl in Hgrid. rewrite Hi. change (default VUndefined (Some ei)) with ei.
  rewrite getNearbyIndices_elem, <- surjective_pairing, <- Hdpc. split.
  - intros (key & Hadj & Hj). apply Hgrid in Hj as (ej & Hej & <-). eauto.
  - intros (ej & Hej & Hadj). exists (cell h dpc ej). split; [assumption|].
    apply Hgrid. eauto.
Qed.

Lemma nearby_of_lt h radius events i :
  i < length events ->
  Forall (fun j => j < length events) (nearby_of h radius events i).
Proof.
  intros Hi. apply lookup_lt_is_Some in Hi as [ei Hi].
  apply Forall_forall. intros j Hj.
  destruct (proj1 (nearby_of_elem _ _ _ _ _ _ Hi) Hj) as (ej & Hej & _).
  eapply lookup_lt_Some; eassumption.
Qed.

Lemma union_row_nearby_of h radius events unionFind i :
  union_row h radius events (createGridIndex h events radius).1
            (createGridIndex h events radius).2 unionFind i
  = foldl (union_nearby h radius events i) unionFind (nearby_of h radius events i).
Proof. reflexivity. Qed.

Lemma union_rows_links h radius events rows unionFind pairs :
  Forall (fun i => i < length events) rows ->
  uf_links (length events) unionFind pairs ->
  uf_links (length events)
    (foldl (union_row h radius events (createGridIndex h events radius).1
                      (createGridIndex h events radius).2) unionFind rows)
    (pairs ++ merged_pairs h radius events rows).
Proof.
  intros Hrows. revert unionFind pairs.
  induction Hrows as [|i rows Hi _ IH]; intros unionFind pairs Hinv.
  - unfold merged_pairs. simpl. now rewrite app_nil_r.
  - simpl. unfold merged_pairs. simpl. rewrite app_assoc. apply IH.
    rewrite union_row_nearby_of.
    apply union_nearby_links; [assumption|now apply nearby_of_lt|assumption].
Qed.

Lemma merged_pairs_elem h radius events a b :
  (a, b) ∈ merged_pairs h radius events (seq 0 (length events))
  <-> neighbours h radius events a b.
Proof.
  unfold merged_pairs, neighbours, row_pairs.
  rewrite list_elem_of_In, in_flat_map. split.
  - intros (i & Hi & Hab). apply list_elem_of_In, elem_of_seq in Hi.
    apply list_elem_of_In, list_elem_of_fmap in Hab as (j & [= -> ->] & Hj).
    apply list_elem_of_filter in Hj as [[Hlt Hw] Hj].
    destruct (lookup_lt_is_Some_2 events i) as [ei Hei]; [lia|].
    destruct (proj1 (nearby_of_elem _ _ _ _ _ _ Hei) Hj) as (ej & Hej & Hadj).
    split; [assumption|]. split; [|assumption]. eauto.
  - intros (Hlt & (ea & eb & Hea & Heb & Hadj) & Hw).
    exists a. split.
    + apply list_elem_of_In, elem_of_seq. apply lookup_lt_Some in Hea. lia.
    + apply list_elem_of_In, list_elem_of_fmap. exists b. split; [reflexivity|].
      apply list_elem_of_filter. split; [auto|].
      apply (proj2 (nearby_of_elem _ _ _ _ _ _ Hea)). eauto.
Qed.

Lemma union_phase_spec h radius events :
  exists uf,
    union_phase h radius events = Some uf
    /\ length (parent uf) = length events
    /\ forest (parent uf)
    /\ forall a b, a < length events -> b < length events ->
         (same_set uf a b <-> rtsc (neighbours h radius events) a b).
Proof.
  destruct (union_rows_links h radius events (seq 0 (length events))
              (Some (UnionFind_new (length events))) [])
    as (uf & Hrun & Hlen & Hf & Hsame).
  { apply Forall_forall. intros i Hi. apply elem_of_seq in Hi. lia. }
  { apply uf_links_new. }
  exists uf. split; [exact Hrun|]. split; [assumption|]. split; [assumption|].
  intros a b Ha Hb. rewrite (Hsame a b Ha Hb). simpl. unfold linked. split.
  - apply (rtsc_congruence (fun x : nat => x) (neighbours h radius events)).
    intros x y. apply merged_pairs_elem.
  - apply (rtsc_congruence (fun x : nat => x)
             (fun x y : nat => (x, y) ∈ merged_pairs h radius events (seq 0 (length events)))).
    intros x y. apply merged_pairs_elem.
Qed.

(** ** The orchestrator: labels *)

Lemma label_inv_start ids h uf0 :
  forest (parent uf0) -> label_inv ids h uf0 [] (label_start uf0) ∅.
Proof.
  intros Hf. split; simpl; try done.
Qed.

Lemma label_event_inv ids h uf0 events st idx e :
  length events < length (parent uf0) ->
  label_inv ids h uf0 events st idx ->
  exists st' idx',
    label_event ids h (Some st) (length events, e) = Some st'
    /\ label_inv ids h uf0 (events ++ [e]) st' idx'.
Proof.
  intros Hlt [Hlen Hf Hroots Hmap Hbound Hinj Hgen Hcount Hobjs].
  rewrite <- Hlen in Hlt.
  destruct (find_spec (lab_uf st) (length events) Hf Hlt)
    as (uf' & root & Hfind & Hroot & _ & Hlen' & Hf' & Hroots').
  simpl. rewrite Hfind.
  assert (Hroot0 : root_of (parent uf0) (length events) root) by now apply Hroots.
  assert (Hroots0 : forall y r, root_of (parent uf0) y r <-> root_of (parent uf') y r).
  { intros y r. now rewrite Hroots, Hroots'. }
  destruct (idx !! root) as [t|] eqn:Hidx.
  - (* the root already has a label *)
    rewrite decide_True by (rewrite Hmap, lookup_fmap, Hidx; simpl; eauto).
    rewrite Hmap, lookup_fmap, Hidx. simpl.
    eexists _, idx. split; [reflexivity|].
    split; simpl; try assumption; try congruence.
    + rewrite length_app. simpl. lia.
    + rewrite !length_app. simpl. lia.
    + intros i e' Hi. apply lookup_app_Some in Hi as [Hi|[Hge Hi]].
      * destruct (Hobjs i e' Hi) as (r & t' & Hr & Ht' & Hobj).
        exists r, t'. split; [assumption|]. split; [assumption|].
        now apply lookup_app_l_Some.
      * assert (i = length events) as ->.
        { apply lookup_lt_Some in Hi. simpl in Hi. lia. }
        rewrite Nat.sub_diag in Hi. injection Hi as <-.
        exists root, t. split; [assumption|]. split; [assumption|].
        rewrite lookup_app_r by lia. rewrite Hcount, Nat.sub_diag. reflexivity.
  - (* a new root: the next label is generated *)
    rewrite decide_False by (rewrite Hmap, lookup_fmap, Hidx; simpl; intros [? ?]; discriminate).
    rewrite lookup_insert_eq.
    eexists _, (<[root := lab_generated st]> idx). split; [reflexivity|].
    split; simpl; try assumption; try congruence.
    + now rewrite Hmap, fmap_insert.
    + intros r t Hr. apply lookup_insert_Some in Hr as [[_ <-]|[_ Hr]]; [lia|].
      apply Hbound in Hr. lia.
    + intros r r' t Hr Hr'.
      apply lookup_insert_Some in Hr as [[<- <-]|[Hne Hr]];
        apply lookup_insert_Some in Hr' as [[<- Ht]|[Hne' Hr']]; try reflexivity.
      * apply Hbound in Hr'. lia.
      * apply Hbound in Hr. lia.
      * eapply Hinj; eassumption.
    + rewrite length_app. simpl. lia.
    + rewrite !length_app. simpl. lia.
    + intros i e' Hi. apply lookup_app_Some in Hi as [Hi|[Hge Hi]].
      * destruct (Hobjs i e' Hi) as (r & t' & Hr & Ht' & Hobj).
        exists r, t'. split; [assumption|]. split.
        -- rewrite lookup_insert_ne; [assumption|]. intros <-. congruence.
        -- now apply lookup_app_l_Some.
      * assert (i = length events) as ->.
        { apply lookup_lt_Some in Hi. simpl in Hi. lia. }
        rewrite Nat.sub_diag in Hi. injection Hi as <-.
        exists root, (lab_generated st). split; [assumption|].
        split; [apply lookup_insert_eq|].
        rewrite lookup_app_r by lia. rewrite Hcount, Nat.sub_diag. reflexivity.
Qed.

Lemma label_events_inv ids h uf0 events :
  forest (parent uf0) -> length events <= length (parent uf0) ->
  exists st idx,
    label_phase ids h events uf0 = Some st /\ label_inv ids h uf0 events st idx.
Proof.
  intros Hf. unfold label_phase.
  induction events as [|e events IH] using rev_ind; intros Hlen.
  - exists (label_start uf0), ∅. split; [reflexivity|now apply label_inv_start].
  - rewrite length_app in Hlen. simpl in Hlen.
    destruct IH as (st & idx & Hrun & Hinv); [lia|].
    rewrite imap_app, foldl_app, Hrun. simpl. rewrite Nat.add_0_r.
    apply (label_event_inv ids h uf0 events st idx e); [lia|assumption].
Qed.

(** ** The orchestrator: the call as a whole *)


Lemma positive_radius_guard radius :
  positive_radius radius ->
  negb (is_number radius) || num_le (value_num radius) (num_of_Z 0) = false.
Proof.
  intros [->|(q & -> & Hq)]; [reflexivity|]. simpl.
  destruct (Qle_bool q (inject_Z 0)) eqn:Hle; [|reflexivity].
  apply Qle_bool_iff in Hle. exfalso. apply (Qlt_not_le _ _ Hq). exact Hle.
Qed.


Lemma return_array_output h objects warnings :
  output_events (return_array h objects warnings)
  = Some (imap (fun i _ => VRef (S (length h) + i)) objects).
Proof.
  unfold output_events, return_array. simpl.
  rewrite lookup_app_r by lia. now rewrite Nat.sub_diag.
Qed.

Lemma return_array_object h objects warnings i obj :
  objects !! i = Some obj ->
  heap_after (return_array h objects warnings) !! (S (length h) + i) = Some obj.
Proof.
  intros Hi. unfold return_array. cbn [heap_after]. rewrite lookup_app_r by lia.
  replace (S (length h) + i - length h) with (S i) by lia. exact Hi.
Qed.

Lemma return_array_frame h objects warnings l obj :
  h !! l = Some obj -> heap_after (return_array h objects warnings) !! l = Some obj.
Proof. intros Hl. unfold return_array. simpl. now apply lookup_app_l_Some. Qed.

(** Reading a property is reading the copy that the spread makes. *)
Lemma member_spread h v k : member h v k = default VUndefined (spread h v !! k).
Proof.
  destruct v as [| |b|n|s|l]; simpl; try (now rewrite lookup_empty).
  destruct (h !! l) as [[props|elems]|]; simpl; try (now rewrite lookup_empty).
  reflexivity.
Qed.

Lemma spread_labelled h objects warnings i e label :
  objects !! i = Some (labelled h e label) ->
  spread (heap_after (return_array h objects warnings)) (VRef (S (length h) + i))
  = <["clusterId" := VStr label]> (spread h e).
Proof.
  intros Hi. unfold spread at 1.
  now rewrite (return_array_object _ _ warnings _ _ Hi).
Qed.

(** The call on an array without [undefined] or [null] elements and a
    radius that passes the guard: the result is a fresh array of fresh
    objects, one per valid event, labelled through the roots of the
    forest that the union loops built. *)
Lemma clusterEvents_returns ids h events radius elems :
  array_elems h events = Some elems ->
  negb (is_number radius) || num_le (value_num radius) (num_of_Z 0) = false ->
  Forall (fun e => nullish e = false) elems ->
  exists (objects : list HeapObj) (uf : UnionFind) (idx : gmap nat nat),
    clusterEvents ids h events radius
    = return_array h objects (skip_diagnostic h <$> skipped_events h elems)
    /\ union_phase h (value_num radius) (valid_events h elems) = Some uf
    /\ length objects = length (valid_events h elems)
    /\ (forall r t, idx !! r = Some t -> t < length (valid_events h elems))
    /\ (forall r r' t, idx !! r = Some t -> idx !! r' = Some t -> r = r')
    /\ forall i e, valid_events h elems !! i = Some e ->
         exists r t, root_of (parent uf) i r /\ idx !! r = Some t
                     /\ objects !! i = Some (labelled h e (ids t)).
Proof.
  intros Harr Hguard Hnn. unfold clusterEvents. rewrite Harr, Hguard.
  destruct (union_phase_spec h (value_num radius) (valid_events h elems))
    as (uf & Hun & Hlen & Hf & _).
  destruct (label_events_inv ids h uf (valid_events h elems) Hf) as (st & idx & Hlab & Hinv);
    [lia|].
  destruct Hinv as [_ _ _ _ Hb Hi Hg Hc Hobjs].
  assert (Hb' : forall r t, idx !! r = Some t -> t < length (valid_events h elems)).
  { intros r t Hr. apply Hb in Hr. lia. }
  clear Hb Hg.
  assert (Hempty : valid_events h elems = [] ->
            exists (objects : list HeapObj) (uf0 : UnionFind) (idx0 : gmap nat nat),
              return_array h [] (skip_diagnostic h <$> skipped_events h elems)
              = return_array h objects (skip_diagnostic h <$> skipped_events h elems)
              /\ Some uf = Some uf0
              /\ length objects = length (valid_events h elems)
              /\ (forall r t, idx0 !! r = Some t -> t < length (valid_events h elems))
              /\ (forall r r' t, idx0 !! r = Some t -> idx0 !! r' = Some t -> r = r')
              /\ forall i e, valid_events h elems !! i = Some e ->
                   exists r t, root_of (parent uf0) i r /\ idx0 !! r = Some t
                               /\ objects !! i = Some (labelled h e (ids t))).
  { intros Hnil. exists [], uf, idx. rewrite Hnil in *.
    split; [reflexivity|]. split; [reflexivity|]. split; [reflexivity|].
    split; [assumption|]. split; [assumption|]. intros i e He. discriminate. }
  rewrite Hun.
  destruct (bool_decide (length elems = 0)) eqn:Hel.
  { apply bool_decide_eq_true in Hel. destruct elems; [|discriminate].
    apply (Hempty eq_refl). }
  rewrite (filterValid_spec h elems Hnn).
  fold (valid_events h elems) (skipped_events h elems).
  destruct (bool_decide (length (valid_events h elems) = 0)) eqn:Hvl.
  { apply bool_decide_eq_true in Hvl. apply Hempty.
    destruct (valid_events h elems); [reflexivity|discriminate]. }
  unfold union_phase in Hun.
  destruct (createGridIndex h (valid_events h elems) (value_num radius)) as [grid dpc].
  simpl in Hun. rewrite Hun. unfold label_phase, label_start in Hlab. rewrite Hlab.
  exists (lab_objects st), uf, idx.
  split; [reflexivity|]. split; [reflexivity|]. split; [assumption|].
  split; [assumption|]. split; [assumption|]. assumption.
Qed.

Lemma clusterEvents_not_array ids h events radius :
  array_elems h events = None ->
  clusterEvents ids h events radius = throw h (Error_msg "Events must be an array") [].
Proof. intros Harr. unfold clusterEvents. now rewrite Harr. Qed.

Lemma clusterEvents_bad_radius ids h events radius elems :
  array_elems h events = Some elems ->
  negb (is_number radius) || num_le (value_num radius) (num_of_Z 0) = true ->
  clusterEvents ids h events radius
  = throw h (Error_msg "Radius must be a positive number") [].
Proof. intros Harr Hguard. unfold clusterEvents. now rewrite Harr, Hguard. Qed.

Lemma clusterEvents_type_error ids h events radius elems :
  array_elems h events = Some elems ->
  negb (is_number radius) || num_le (value_num radius) (num_of_Z 0) = false ->
  Exists (fun e => nullish e = true) elems ->
  exists warnings, clusterEvents ids h events radius = throw h TypeError warnings.
Proof.
  intros Harr Hguard Hex. unfold clusterEvents. rewrite Harr, Hguard.
  rewrite bool_decide_eq_false_2 by (destruct Hex; discriminate).
  apply (proj2 (filterValid_threw h elems)) in Hex.
  destruct (filterValid h elems) as [[valid warnings] threw]. simpl in Hex. subst threw.
  now exists warnings.
Qed.

Lemma nullish_dec_list (elems : list Value) :
  Forall (fun e => nullish e = false) elems \/ Exists (fun e => nullish e = true) elems.
Proof.
  induction elems as [|e elems [IH|IH]]; [left; constructor| |right; now right].
  destruct (nullish e) eqn:He; [right; now left|left; now constructor].
Qed.

(** The heap of the caller is a prefix of the heap after the call. *)
Lemma clusterEvents_frame ids h events radius l obj :
  h !! l = Some obj -> heap_after (clusterEvents ids h events radius) !! l = Some obj.
Proof.
  intros Hl. destruct (array_elems h events) as [elems|] eqn:Harr.
  2:{ now rewrite clusterEvents_not_array. }
  destruct (negb (is_number radius) || num_le (value_num radius) (num_of_Z 0)) eqn:Hguard.
  { now rewrite (clusterEvents_bad_radius _ _ _ _ elems). }
  destruct (nullish_dec_list elems) as [Hnn|Hex].
  - destruct (clusterEvents_returns ids h events radius elems Harr Hguard Hnn)
      as (objects & uf & idx & -> & _). now apply return_array_frame.
  - destruct (clusterEvents_type_error ids h events radius elems Harr Hguard Hex)
      as (warnings & ->). exact Hl.
Qed.

(** The output of a call that returns: one fresh object per valid event,
    in the order of the input, which is the event with its [clusterId]
    set to a label. *)
Lemma clusterEvents_output ids h events radius outs :
  output_events (clusterEvents ids h events radius) = Some outs ->
  exists elems,
    array_elems h events = Some elems
    /\ Forall (fun e => nullish e = false) elems
    /\ length outs = length (valid_events h elems)
    /\ forall i e, valid_events h elems !! i = Some e ->
         exists label,
           outs !! i = Some (VRef (S (length h) + i))
           /\ spread (heap_after (clusterEvents ids h events radius))
                     (VRef (S (length h) + i))
              = <["clusterId" := VStr label]> (spread h e).
Proof.
  intros Hout. destruct (array_elems h events) as [elems|] eqn:Harr.
  2:{ rewrite clusterEvents_not_array in Hout by assumption. discriminate. }
  destruct (negb (is_number radius) || num_le (value_num radius) (num_of_Z 0)) eqn:Hguard.
  { rewrite (clusterEvents_bad_radius _ _ _ _ elems) in Hout by assumption. discriminate. }
  destruct (nullish_dec_list elems) as [Hnn|Hex].
  2:{ destruct (clusterEvents_type_error ids h events radius elems Harr Hguard Hex)
        as (warnings & Heq). rewrite Heq in Hout. discriminate. }
  destruct (clusterEvents_returns ids h events radius elems Harr Hguard Hnn)
    as (objects & uf & idx & Heq & _ & Hlen & _ & _ & Hobjs).
  rewrite Heq in Hout |- *. rewrite return_array_output in Hout. injection Hout as <-.
  exists elems. split; [reflexivity|]. split; [assumption|].
  split; [now rewrite length_imap|].
  intros i e He. destruct (Hobjs i e He) as (r & t & _ & _ & Hobj).
  exists (ids t). split.
  - rewrite list_lookup_imap, Hobj. reflexivity.
  - eapply spread_labelled; eassumption.
Qed.

(** C7, as amended. [clusterEvents] changes no object and no array of the
    caller: every location of the heap before the call holds the same
    object after it.  Each element of the output is a new object that
    carries every property of the corresponding valid event with its
    value, except that [clusterId] is the assigned label, whether the
    event had a [clusterId] or not. *)
Theorem clusterEvents_preserves_input (ids : nat -> string) (h : Heap)
    (events radiusInMeters : Value) :
  let res := clusterEvents ids h events radiusInMeters in
  (forall l obj, h !! l = Some obj -> heap_after res !! l = Some obj)
  /\ forall outs, output_events res = Some outs ->
       exists elems,
         array_elems h events = Some elems
         /\ length outs = length (valid_events h elems)
         /\ forall i e, valid_events h elems !! i = Some e ->
              exists l label,
                outs !! i = Some (VRef l) /\ h !! l = None
                /\ spread (heap_after res) (VRef l) !! "clusterId" = Some (VStr label)
                /\ forall k, k ≠ "clusterId" ->
                     spread (heap_after res) (VRef l) !! k = spread h e !! k.
Proof.
  intros res. split; [apply clusterEvents_frame|].
  intros outs Hout.
  destruct (clusterEvents_output ids h events radiusInMeters outs Hout)
    as (elems & Harr & _ & Hlen & Hobjs).
  exists elems. split; [assumption|]. split; [assumption|].
  intros i e He. destruct (Hobjs i e He) as (label & Hi & Hspread).
  exists (S (length h) + i), label. split; [assumption|].
  split; [apply lookup_ge_None; lia|]. fold res in Hspread. rewrite Hspread. split.
  - apply lookup_insert_eq.
  - intros k Hk. now apply lookup_insert_ne.
Qed.

(** C7, counterexample: an event that already has a [clusterId] does not
    keep its value. *)
Lemma clusterEvents_overwrites_clusterId :
  let res := clusterEvents numbered_ids relabel_heap (VRef 2) (VNum (Fin 1000)) in
  ~ (forall outs i e out,
       output_events res = Some outs ->
       valid_events relabel_heap [VRef 1] !! i = Some e ->
       outs !! i = Some out ->
       fields_unchanged relabel_heap res e out).
Proof.
  intros res Hclaim.
  assert (Hout : output_events res = Some [VRef 4]) by (vm_compute; reflexivity).
  assert (Hin : valid_events relabel_heap [VRef 1] !! 0 = Some (VRef 1))
    by (vm_compute; reflexivity).
  specialize (Hclaim [VRef 4] 0 (VRef 1) (VRef 4) Hout Hin eq_refl
                "clusterId" (VStr "old")).
  assert (Hold : spread relabel_heap (VRef 1) !! "clusterId" = Some (VStr "old"))
    by (vm_compute; reflexivity).
  specialize (Hclaim Hold).
  assert (Hnew : spread (heap_after res) (VRef 4) !! "clusterId" = Some (VStr "cluster_0"))
    by (vm_compute; reflexivity).
  rewrite Hnew in Hclaim. discriminate.
Qed.







(** The two cases that the amended claim leaves out: NaN passes the guard,
    and an element that is [null] ends the validation loop with a
    TypeError. *)
Example clusterEvents_NaN_radius :
  outcome (clusterEvents numbered_ids relabel_heap (VRef 2) (VNum NaN))
  = Returned (VRef 3).
Proof. vm_compute. reflexivity. Qed.

Example clusterEvents_null_element :
  clusterEvents numbered_ids [HArr [VNull]] (VRef 0) (VNum (Fin 1000))
  = throw [HArr [VNull]] TypeError [].
Proof. vm_compute. reflexivity. Qed.


(** ** The partition *)

(** With labels that are never generated twice, two output events carry
    the same [clusterId] exactly when their indices have the same root in
    the forest that the union loops built. *)
Lemma clusterEvents_same_label ids h events radius elems :
  array_elems h events = Some elems ->
  negb (is_number radius) || num_le (value_num radius) (num_of_Z 0) = false ->
  Forall (fun e => nullish e = false) elems ->
  Inj (=) (=) ids ->
  let res := clusterEvents ids h events radius in
  exists outs uf,
    output_events res = Some outs
    /\ union_phase h (value_num radius) (valid_events h elems) = Some uf
    /\ length outs = length (valid_events h elems)
    /\ forall i j oi oj, outs !! i = Some oi -> outs !! j = Some oj ->
         (member (heap_after res) oi "clusterId" = member (heap_after res) oj "clusterId"
          <-> same_set uf i j).
Proof.
  intros Harr Hguard Hnn Hinj res.
  destruct (clusterEvents_returns ids h events radius elems Harr Hguard Hnn)
    as (objects & uf & idx & Heq & Hun & Hlen & _ & Hidx & Hobjs).
  exists (imap (fun i _ => VRef (S (length h) + i)) objects), uf.
  split; [unfold res; rewrite Heq; apply return_array_output|].
  split; [assumption|]. split; [now rewrite length_imap|].
  assert (Hlabel : forall i oi,
            imap (fun i _ => VRef (S (length h) + i)) objects !! i = Some oi ->
            exists r t, root_of (parent uf) i r /\ idx !! r = Some t
                        /\ member (heap_after res) oi "clusterId" = VStr (ids t)).
  { intros i oi Hi. rewrite list_lookup_imap in Hi.
    destruct (objects !! i) as [obj|] eqn:Hobj; [|discriminate].
    simpl in Hi. injection Hi as <-.
    destruct (lookup_lt_is_Some_2 (valid_events h elems) i) as [e He].
    { rewrite <- Hlen. eapply lookup_lt_Some; eassumption. }
    destruct (Hobjs i e He) as (r & t & Hr & Ht & Hobj').
    exists r, t. split; [assumption|]. split; [assumption|].
    rewrite member_spread. unfold res. rewrite Heq.
    rewrite (spread_labelled _ _ _ _ _ _ Hobj'), lookup_insert_eq. reflexivity. }
  intros i j oi oj Hi Hj.
  destruct (Hlabel i oi Hi) as (ri & ti & Hri & Hti & ->).
  destruct (Hlabel j oj Hj) as (rj & tj & Hrj & Htj & ->).
  rewrite (same_set_roots uf i j ri rj Hri Hrj). split.
  - intros [= Heq']. apply Hinj in Heq'. subst tj. eapply Hidx; eassumption.
  - intros ->. congruence.
Qed.

Lemma numbered_ids_inj : Inj (=) (=) numbered_ids.
Proof.
  intros a b H. unfold numbered_ids in H. simpl in H.
  injection H as H. change (pretty a = pretty b) in H. now apply (inj pretty) in H.
Qed.

(** The partition that [clusterEvents] computes, in exact arithmetic:
    with labels that are never generated twice, two output events carry
    the same [clusterId] exactly when their events are connected by a
    chain of [neighbours]: events in cells next to each other whose
    distance is at most the radius. *)
Theorem clusterEvents_components ids h events radius elems :
  array_elems h events = Some elems ->
  positive_radius radius ->
  Forall (fun e => nullish e = false) elems ->
  Inj (=) (=) ids ->
  let res := clusterEvents ids h events radius in
  exists outs,
    output_events res = Some outs
    /\ length outs = length (valid_events h elems)
    /\ forall i j oi oj, outs !! i = Some oi -> outs !! j = Some oj ->
         (member (heap_after res) oi "clusterId" = member (heap_after res) oj "clusterId"
          <-> rtsc (neighbours h (value_num radius) (valid_events h elems)) i j).
Proof.
  intros Harr Hpos Hnn Hinj res.
  destruct (clusterEvents_same_label ids h events radius elems Harr
              (positive_radius_guard _ Hpos) Hnn Hinj)
    as (outs & uf & Hout & Hun & Hlen & Hsame).
  destruct (union_phase_spec h (value_num radius) (valid_events h elems))
    as (uf' & Hun' & _ & _ & Hlinks).
  rewrite Hun in Hun'. injection Hun' as <-.
  exists outs. split; [assumption|]. split; [assumption|].
  intros i j oi oj Hi Hj. fold res in Hsame. rewrite (Hsame i j oi oj Hi Hj).
  apply Hlinks; rewrite <- Hlen; eapply lookup_lt_Some; eassumption.
Qed.

Lemma clusterEvents_components_witness :
  exists outs,
    output_events (clusterEvents numbered_ids twin_heap (VRef 6) (VNum (Fin 1000)))
    = Some outs
    /\ length outs = 3.
Proof.
  destruct (clusterEvents_components numbered_ids twin_heap (VRef 6) (VNum (Fin 1000))
              [VRef 1; VRef 3; VRef 5]) as (outs & Hout & Hlen & _);
    [reflexivity|right; exists 1000%Q; split; reflexivity|repeat constructor
    |exact numbered_ids_inj|].
  exists outs. split; [exact Hout|]. rewrite Hlen. vm_compute. reflexivity.
Defined.

(** ** The partition, call after call *)





Lemma filter_ext_in {A} (P Q : A -> Prop) `{forall x, Decision (P x)}
    `{forall x, Decision (Q x)} (l : list A) :
  (forall x, x ∈ l -> (P x <-> Q x)) -> filter P l = filter Q l.
Proof.
  induction l as [|a l IH]; intros Hl; [reflexivity|].
  rewrite !filter_cons. rewrite IH by (intros x Hx; apply Hl; now right).
  pose proof (Hl a (list_elem_of_here _ _)) as Ha.
  destruct (decide (P a)), (decide (Q a)); tauto.
Qed.













Example mixed_heap_closed : closed_heap mixed_heap.
Proof. apply (bool_decide_unpack _). vm_compute. exact I. Qed.




(** ** The distance, in exact arithmetic *)

Lemma Math_sqrt_nonneg x : (0 <= x)%R -> Math_sqrt x = Some (sqrt x).
Proof. intros Hx. unfold Math_sqrt. destruct (Rle_dec 0 x); [reflexivity|contradiction]. Qed.

Lemma Math_atan2_0_1 : Math_atan2 0 1 = 0%R.
Proof.
  unfold Math_atan2. destruct (Rlt_dec 0 1) as [_|Hn]; [|exfalso; lra].
  replace (0 / 1)%R with 0%R by lra. apply atan_0.
Qed.

Lemma Math_atan2_nonneg y x : (0 <= y)%R -> (0 <= x)%R -> (0 <= Math_atan2 y x)%R.
Proof.
  intros Hy Hx. unfold Math_atan2.
  destruct (Rlt_dec 0 x) as [Hpos|_].
  - destruct (Req_dec y 0) as [->|Hne].
    + replace (0 / x)%R with 0%R by (field; lra). rewrite atan_0. lra.
    + left. rewrite <- atan_0. apply atan_increasing.
      apply Rdiv_lt_0_compat; lra.
  - destruct (Rlt_dec x 0) as [Hneg|_]; [lra|].
    destruct (Rlt_dec 0 y) as [_|_]; [pose proof PI_RGT_0; lra|].
    destruct (Rlt_dec y 0) as [Hneg|_]; lra.
Qed.

Lemma haversine_in_range lat1 lon1 lat2 lon2 :
  (0 <= haversine_a lat1 lon1 lat2 lon2 <= 1)%R ->
  haversine lat1 lon1 lat2 lon2
  = Some (6371000 * (2 * Math_atan2 (sqrt (haversine_a lat1 lon1 lat2 lon2))
                                    (sqrt (1 - haversine_a lat1 lon1 lat2 lon2))))%R.
Proof.
  intros [H0 H1]. unfold haversine. fold (haversine_a lat1 lon1 lat2 lon2).
  rewrite !Math_sqrt_nonneg by lra. reflexivity.
Qed.

Lemma haversine_zero lat1 lon1 lat2 lon2 :
  haversine_a lat1 lon1 lat2 lon2 = 0%R -> haversine lat1 lon1 lat2 lon2 = Some 0%R.
Proof.
  intros Ha. rewrite haversine_in_range by (rewrite Ha; lra).
  rewrite Ha, Rminus_0_r, sqrt_0, sqrt_1, Math_atan2_0_1. f_equal. lra.
Qed.

(** Identical coordinates are at distance 0. *)
Lemma haversine_same lat lon : haversine lat lon lat lon = Some 0%R.
Proof.
  apply haversine_zero. unfold haversine_a.
  replace ((Q2R lat - Q2R lat) * PI / 180 / 2)%R with 0%R by lra.
  replace ((Q2R lon - Q2R lon) * PI / 180 / 2)%R with 0%R by lra.
  rewrite sin_0. lra.
Qed.

Lemma sin_half_sq x : (sin (x / 2) * sin (x / 2) = (1 - cos x) / 2)%R.
Proof.
  pose proof (cos_2a_sin (x / 2)) as H.
  replace (2 * (x / 2))%R with x in H by lra. lra.
Qed.

Lemma Q2R_deg_range (lat : Q) :
  (inject_Z (-90) <= lat)%Q -> (lat <= inject_Z 90)%Q ->
  (- (PI / 2) <= Q2R lat * PI / 180 <= PI / 2)%R.
Proof.
  intros Hlo Hhi. apply Qle_Rle in Hlo, Hhi.
  replace (Q2R (inject_Z (-90))) with (-90)%R in Hlo by (unfold Q2R; simpl; lra).
  replace (Q2R (inject_Z 90)) with 90%R in Hhi by (unfold Q2R; simpl; lra).
  pose proof PI_RGT_0. split; nra.
Qed.

(** For latitudes in range, [a] lies between 0 and 1: the two square
    roots of the formula are taken of numbers that are not negative. *)
Lemma haversine_a_range lat1 lon1 lat2 lon2 :
  (inject_Z (-90) <= lat1)%Q -> (lat1 <= inject_Z 90)%Q ->
  (inject_Z (-90) <= lat2)%Q -> (lat2 <= inject_Z 90)%Q ->
  (0 <= haversine_a lat1 lon1 lat2 lon2 <= 1)%R.
Proof.
  intros H1lo H1hi H2lo H2hi.
  destruct (Q2R_deg_range lat1 H1lo H1hi) as [Ha1 Hb1].
  destruct (Q2R_deg_range lat2 H2lo H2hi) as [Ha2 Hb2].
  pose proof (cos_ge_0 _ Ha1 Hb1) as Hc1. pose proof (cos_ge_0 _ Ha2 Hb2) as Hc2.
  unfold haversine_a.
  set (p1 := (Q2R lat1 * PI / 180)%R) in *. set (p2 := (Q2R lat2 * PI / 180)%R) in *.
  replace ((Q2R lat2 - Q2R lat1) * PI / 180 / 2)%R with ((p2 - p1) / 2)%R
    by (unfold p1, p2; lra).
  set (dl := ((Q2R lon2 - Q2R lon1) * PI / 180)%R).
  rewrite (sin_half_sq (p2 - p1)).
  replace (cos p1 * cos p2 * sin (dl / 2) * sin (dl / 2))%R
    with (cos p1 * cos p2 * (sin (dl / 2) * sin (dl / 2)))%R by lra.
  rewrite (sin_half_sq dl), cos_minus.
  pose proof (COS_bound dl) as [Hdl1 Hdl2].
  pose proof (COS_bound (p1 + p2)) as [Hs1 Hs2]. rewrite cos_plus in Hs1, Hs2.
  pose proof (COS_bound (p2 - p1)) as [Hm1 Hm2]. rewrite cos_minus in Hm1, Hm2.
  assert (Hcc : (0 <= cos p1 * cos p2)%R) by now apply Rmult_le_pos.
  split; nra.
Qed.

(** For coordinates in range the distance is a number, and it is not
    negative. *)
Lemma haversine_defined lat1 lon1 lat2 lon2 :
  (inject_Z (-90) <= lat1)%Q -> (lat1 <= inject_Z 90)%Q ->
  (inject_Z (-90) <= lat2)%Q -> (lat2 <= inject_Z 90)%Q ->
  exists d, haversine lat1 lon1 lat2 lon2 = Some d /\ (0 <= d)%R.
Proof.
  intros H1lo H1hi H2lo H2hi.
  pose proof (haversine_a_range lat1 lon1 lat2 lon2 H1lo H1hi H2lo H2hi) as Ha.
  rewrite (haversine_in_range _ _ _ _ Ha). eexists. split; [reflexivity|].
  pose proof (Math_atan2_nonneg _ _ (sqrt_pos (haversine_a lat1 lon1 lat2 lon2))
                (sqrt_pos (1 - haversine_a lat1 lon1 lat2 lon2))).
  lra.
Qed.

Lemma calculateDistance_valid h coord1 coord2 lat1 lon1 lat2 lon2 :
  valid_point h coord1 lat1 lon1 -> valid_point h coord2 lat2 lon2 ->
  calculateDistance h coord1 coord2 = haversine lat1 lon1 lat2 lon2.
Proof.
  intros (l1 & p1 & -> & Hl1 & Hlat1 & Hlon1 & _) (l2 & p2 & -> & Hl2 & Hlat2 & Hlon2 & _).
  unfold calculateDistance. simpl. rewrite Hl1, Hl2, Hlat1, Hlon1, Hlat2, Hlon2.
  reflexivity.
Qed.

(** The distance that the main loop computes between two events that
    passed validation is a number, and it is not negative. *)
Lemma calculateDistance_passes h e1 e2 :
  passes h e1 = true -> passes h e2 = true ->
  exists d,
    calculateDistance h (member h e1 "coordinates") (member h e2 "coordinates") = Some d
    /\ (0 <= d)%R.
Proof.
  intros H1 H2.
  destruct (passes_valid_point h e1 H1) as (lat1 & lon1 & Hv1).
  destruct (passes_valid_point h e2 H2) as (lat2 & lon2 & Hv2).
  rewrite (calculateDistance_valid _ _ _ _ _ _ _ Hv1 Hv2).
  destruct Hv1 as (? & ? & _ & _ & _ & _ & H1lo & H1hi & _).
  destruct Hv2 as (? & ? & _ & _ & _ & _ & H2lo & H2hi & _).
  now apply haversine_defined.
Qed.

(** *** Two events on the parallel of 60 degrees *)

Lemma sin_lower x : (0 <= x)%R -> (x <= 1)%R -> (x - x * x * x / 6 <= sin x)%R.
Proof.
  intros H0 H1. pose proof PI2_1 as Hpi.
  destruct (sin_bound x 0 H0) as [Hlb _]; [lra|].
  unfold sin_approx, sin_term in Hlb. simpl in Hlb.
  unfold Rdiv in Hlb. simpl in Hlb. lra.
Qed.

Lemma atan_upper t theta :
  (0 <= t)%R -> (0 < theta)%R -> (theta <= 1)%R ->
  (t < theta - theta * theta * theta / 6)%R -> (atan t < theta)%R.
Proof.
  intros Ht Hth0 Hth1 Hlt. pose proof PI2_1 as Hpi.
  rewrite <- (atan_tan theta) by lra.
  apply atan_increasing.
  assert (Hcos : (0 < cos theta)%R) by (apply cos_gt_0; lra).
  pose proof (COS_bound theta) as [_ Hc1].
  pose proof (sin_lower theta (Rlt_le _ _ Hth0) Hth1) as Hsin.
  unfold tan. apply Rlt_le_trans with (sin theta); [lra|].
  apply Rle_trans with (sin theta / 1)%R; [lra|].
  assert (0 <= sin theta)%R by nra.
  unfold Rdiv. apply Rmult_le_compat_l; [assumption|].
  apply Rinv_le_contravar; lra.
Qed.

(** Two points on the parallel of 60 degrees whose longitudes differ by
    at most 0.011 degrees are at most 1000 m apart (they are about 612 m
    apart when the difference is 0.011 degrees). *)
Lemma haversine_60N lon1 lon2 :
  (lon1 <= lon2)%Q -> (lon2 - lon1 <= 11 # 1000)%Q ->
  exists d, haversine 60 lon1 60 lon2 = Some d /\ (0 <= d <= 1000)%R.
Proof.
  intros Hle Hdiff. apply Qle_Rle in Hle, Hdiff.
  rewrite Q2R_minus in Hdiff.
  replace (Q2R (11 # 1000)) with (11 / 1000)%R in Hdiff by (unfold Q2R; simpl; lra).
  pose proof PI_RGT_0 as Hpi0. pose proof PI_4 as Hpi4. pose proof PI2_1 as Hpi2.
  assert (Hrange : (0 <= haversine_a 60 lon1 60 lon2 <= 1)%R).
  { apply haversine_a_range; unfold Qle; simpl; lia. }
  rewrite (haversine_in_range _ _ _ _ Hrange). eexists. split; [reflexivity|].
  set (u := ((Q2R lon2 - Q2R lon1) * PI / 180 / 2)%R).
  assert (Hu0 : (0 <= u)%R) by (unfold u; nra).
  assert (Hu1 : (u <= 123 / 1000000)%R) by (unfold u; nra).
  set (s := sin u).
  assert (Hs0 : (0 <= s)%R) by (apply sin_ge_0; lra).
  assert (Hs1 : (s <= u)%R).
  { destruct (Req_dec u 0) as [Hz|Hnz].
    - unfold s. rewrite Hz, sin_0. lra.
    - left. apply sin_lt_x. lra. }
  assert (Ha : haversine_a 60 lon1 60 lon2 = (s / 2 * (s / 2))%R).
  { unfold haversine_a. fold u. fold s.
    replace ((Q2R 60 - Q2R 60) * PI / 180 / 2)%R with 0%R by lra.
    replace (Q2R 60 * PI / 180)%R with (PI / 3)%R by (unfold Q2R; simpl; lra).
    rewrite sin_0, cos_PI3. lra. }
  rewrite Ha. rewrite sqrt_square by lra.
  assert (Hx : (99 / 100 <= sqrt (1 - s / 2 * (s / 2)))%R).
  { rewrite <- (sqrt_square (99 / 100)) by lra. apply sqrt_le_1; nra. }
  set (x := sqrt (1 - s / 2 * (s / 2))) in *.
  pose proof (Math_atan2_nonneg (s / 2) x) as Hnonneg.
  unfold Math_atan2 in *. destruct (Rlt_dec 0 x) as [Hxpos|Hn]; [|lra].
  assert (Ht0 : (0 <= s / 2 / x)%R).
  { apply Rle_mult_inv_pos; lra. }
  assert (Ht1 : (s / 2 / x <= 63 / 1000000)%R).
  { apply Rle_trans with (s / 2 / (99 / 100))%R; [|lra].
    unfold Rdiv at 1 3. apply Rmult_le_compat_l; [lra|].
    apply Rinv_le_contravar; lra. }
  pose proof (atan_upper (s / 2 / x) (78 / 1000000) Ht0) as Hatan.
  split; [lra|]. assert (atan (s / 2 / x) < 78 / 1000000)%R by (apply Hatan; lra).
  lra.
Qed.

Lemma parallel60_distance :
  exists d, calculateDistance parallel60_heap (VRef 0) (VRef 2) = Some d
            /\ (0 <= d <= 1000)%R.
Proof.
  unfold calculateDistance.
  replace (member parallel60_heap (VRef 0) "latitude") with (VNum (Fin 60))
    by (vm_compute; reflexivity).
  replace (member parallel60_heap (VRef 0) "longitude") with (VNum (Fin (2499 # 100)))
    by (vm_compute; reflexivity).
  replace (member parallel60_heap (VRef 2) "latitude") with (VNum (Fin 60))
    by (vm_compute; reflexivity).
  replace (member parallel60_heap (VRef 2) "longitude") with (VNum (Fin (25001 # 1000)))
    by (vm_compute; reflexivity).
  simpl. apply haversine_60N; unfold Qle; simpl; lia.
Qed.

Lemma distance_le_1000 d : (d <= 1000)%R -> distance_le (Some d) (Fin 1000) = true.
Proof.
  intros Hd. unfold distance_le.
  destruct (Rle_dec d (Q2R 1000)) as [_|Hn]; [reflexivity|].
  exfalso. apply Hn. unfold Q2R. simpl. lra.
Qed.

Lemma parallel60_within : within parallel60_heap (Fin 1000) [VRef 1; VRef 3] 0 1 = true.
Proof.
  unfold within.
  replace (member parallel60_heap (default VUndefined ([VRef 1; VRef 3] !! 0)) "coordinates")
    with (VRef 0) by (vm_compute; reflexivity).
  replace (member parallel60_heap (default VUndefined ([VRef 1; VRef 3] !! 1)) "coordinates")
    with (VRef 2) by (vm_compute; reflexivity).
  destruct parallel60_distance as (d & -> & _ & Hd). now apply distance_le_1000.
Qed.

(** C2, at the failing input.  The two points are valid and at most
    1000 m apart (about 612 m), within the radius of 1000 m; their cells
    are two columns apart, and the 3x3 block around the cell of the first
    point does not hold the second. *)
Theorem grid_misses_point_within_radius :
  let events := [VRef 1; VRef 3] in
  let index := createGridIndex parallel60_heap events (Fin 1000) in
  isValidCoordinate parallel60_heap (VRef 0) = true
  /\ isValidCoordinate parallel60_heap (VRef 2) = true
  /\ (exists d, calculateDistance parallel60_heap (VRef 0) (VRef 2) = Some d
                /\ (0 <= d <= 1000)%R)
  /\ within parallel60_heap (Fin 1000) events 0 1 = true
  /\ cell parallel60_heap index.2 (VRef 1) = (IxInt 6679, IxInt 2781)
  /\ cell parallel60_heap index.2 (VRef 3) = (IxInt 6679, IxInt 2783)
  /\ getNearbyIndices index.1 (IxInt 6679) (IxInt 2781) = [0].
Proof.
  intros events index.
  split; [vm_compute; reflexivity|]. split; [vm_compute; reflexivity|].
  split; [exact parallel60_distance|]. split; [exact parallel60_within|].
  split; [vm_compute; reflexivity|]. split; [vm_compute; reflexivity|].
  vm_compute. reflexivity.
Qed.

(** C1, at the failing input.  The two valid events are at most 1000 m
    apart, within the radius of 1000 m, and the call gives them two
    different labels. *)
Theorem clusterEvents_splits_points_within_radius :
  let res := clusterEvents numbered_ids parallel60_heap (VRef 4) (VNum (Fin 1000)) in
  valid_events parallel60_heap [VRef 1; VRef 3] = [VRef 1; VRef 3]
  /\ within parallel60_heap (Fin 1000) [VRef 1; VRef 3] 0 1 = true
  /\ output_events res = Some [VRef 6; VRef 7]
  /\ member (heap_after res) (VRef 6) "clusterId" = VStr "cluster_0"
  /\ member (heap_after res) (VRef 7) "clusterId" = VStr "cluster_1".
Proof.
  intros res. split; [vm_compute; reflexivity|]. split; [exact parallel60_within|].
  split; [vm_compute; reflexivity|]. split; vm_compute; reflexivity.
Qed.

(** ** The distance, on binary64 numbers *)

Section Rounding.
Import PrimFloat Binary64 Binary64_loops.
Local Open Scope float_scope.

(** C5. [calculateDistance] does not clamp [a] before it takes the square
    root of [1 - a].  The points (8, 0) and (-8, 180) are valid and
    antipodal.  On an engine whose [Math.sin] and [Math.cos] return, at
    the arguments that these points need, the numbers nearest to the sine
    and the cosine, [a] is 1.0000000000000002: [1 - a] is negative, its
    square root is NaN, and the distance that the function returns is
    NaN, not a number of meters. *)
Theorem calculateDistance_antipodal_NaN (engine : Engine) :
  Math_sin engine (- radians_8) = - sin_8 ->
  Math_cos engine radians_8 = cos_8 ->
  Math_cos engine (- radians_8) = cos_8 ->
  Math_sin engine (Math_PI / 2) = 1 ->
  (forall y, Math_atan2 engine y nan = nan) ->
  let coord1 := {| latitude := 8; longitude := 0 |} in
  let coord2 := {| latitude := -8; longitude := 180 |} in
  isValidCoordinate coord1 = true /\ isValidCoordinate coord2 = true
  /\ calculateDistance engine coord1 coord2 = nan.
Proof.
  intros Hsin Hcos Hcos' Hsin1 Hatan2 coord1 coord2.
  split; [reflexivity|]. split; [reflexivity|].
  unfold calculateDistance, coord1, coord2. cbn [latitude longitude].
  assert (HdLat : (-8 - 8) * Math_PI / 180 / 2 = - radians_8) by reflexivity.
  assert (Hlat1 : 8 * Math_PI / 180 = radians_8) by reflexivity.
  assert (Hlat2 : -8 * Math_PI / 180 = - radians_8) by reflexivity.
  assert (HdLon : (180 - 0) * Math_PI / 180 / 2 = Math_PI / 2) by reflexivity.
  rewrite HdLat, Hlat1, Hlat2, HdLon, Hsin, Hcos, Hcos', Hsin1.
  assert (Ha : - sin_8 * - sin_8 + cos_8 * cos_8 * 1 * 1 = 0x1.0000000000001p+0)
    by reflexivity.
  rewrite Ha.
  assert (Hroot : sqrt (1 - 0x1.0000000000001p+0) = nan) by reflexivity.
  rewrite Hroot, Hatan2. reflexivity.
Qed.

Lemma calculateDistance_antipodal_NaN_witness :
  let coord1 := {| latitude := 8; longitude := 0 |} in
  let coord2 := {| latitude := -8; longitude := 180 |} in
  isValidCoordinate coord1 = true /\ isValidCoordinate coord2 = true
  /\ calculateDistance table_engine coord1 coord2 = nan.
Proof. apply (calculateDistance_antipodal_NaN table_engine); reflexivity. Defined.

End Rounding.

(** * Further properties *)

(** ** The distance: symmetry and range *)

Lemma haversine_sym lat1 lon1 lat2 lon2 :
  haversine lat1 lon1 lat2 lon2 = haversine lat2 lon2 lat1 lon1.
Proof.
  unfold haversine.
  assert (Hs : forall x y : R,
            (sin ((x - y) * PI / 180 / 2) * sin ((x - y) * PI / 180 / 2)
             = sin ((y - x) * PI / 180 / 2) * sin ((y - x) * PI / 180 / 2))%R).
  { intros x y.
    replace ((x - y) * PI / 180 / 2)%R with (- ((y - x) * PI / 180 / 2))%R by lra.
    rewrite sin_neg. lra. }
  assert (Ha : (sin ((Q2R lat2 - Q2R lat1) * PI / 180 / 2)
                * sin ((Q2R lat2 - Q2R lat1) * PI / 180 / 2)
                + cos (Q2R lat1 * PI / 180) * cos (Q2R lat2 * PI / 180)
                  * sin ((Q2R lon2 - Q2R lon1) * PI / 180 / 2)
                  * sin ((Q2R lon2 - Q2R lon1) * PI / 180 / 2)
                = sin ((Q2R lat1 - Q2R lat2) * PI / 180 / 2)
                  * sin ((Q2R lat1 - Q2R lat2) * PI / 180 / 2)
                  + cos (Q2R lat2 * PI / 180) * cos (Q2R lat1 * PI / 180)
                    * sin ((Q2R lon1 - Q2R lon2) * PI / 180 / 2)
                    * sin ((Q2R lon1 - Q2R lon2) * PI / 180 / 2))%R).
  { rewrite (Hs (Q2R lat2) (Q2R lat1)).
    rewrite !Rmult_assoc. rewrite (Hs (Q2R lon2) (Q2R lon1)). ring. }
  cbv zeta. rewrite Ha. reflexivity.
Qed.

(** X2. [calculateDistance] is symmetric: for two coordinate objects
    whose fields are numbers (NaN and the infinities included), the
    distance from [coord1] to [coord2] is the distance from [coord2] to
    [coord1]. *)
Theorem calculateDistance_symmetric (h : Heap) (coord1 coord2 : Value) :
  is_number (member h coord1 "latitude") = true ->
  is_number (member h coord1 "longitude") = true ->
  is_number (member h coord2 "latitude") = true ->
  is_number (member h coord2 "longitude") = true ->
  calculateDistance h coord1 coord2 = calculateDistance h coord2 coord1.
Proof.
  intros _ _ _ _. unfold calculateDistance.
  destruct (value_num (member h coord1 "latitude")) as [| | |a1];
    destruct (value_num (member h coord1 "longitude")) as [| | |o1];
    destruct (value_num (member h coord2 "latitude")) as [| | |a2];
    destruct (value_num (member h coord2 "longitude")) as [| | |o2];
    try reflexivity.
  apply haversine_sym.
Qed.

Lemma calculateDistance_symmetric_witness :
  calculateDistance parallel60_heap (VRef 0) (VRef 2)
  = calculateDistance parallel60_heap (VRef 2) (VRef 0).
Proof. apply calculateDistance_symmetric; reflexivity. Defined.

Lemma Math_atan2_quadrant y x :
  (0 <= y)%R -> (0 <= x)%R -> (Math_atan2 y x <= PI / 2)%R.
Proof.
  intros Hy Hx. unfold Math_atan2.
  destruct (Rlt_dec 0 x) as [Hpos|Hnpos].
  - left. apply atan_bound.
  - destruct (Rlt_dec x 0) as [Hneg|_]; [lra|].
    destruct (Rlt_dec 0 y) as [_|_]; [lra|].
    destruct (Rlt_dec y 0) as [_|_]; pose proof PI_RGT_0; lra.
Qed.

Lemma haversine_bounded lat1 lon1 lat2 lon2 :
  (inject_Z (-90) <= lat1)%Q -> (lat1 <= inject_Z 90)%Q ->
  (inject_Z (-90) <= lat2)%Q -> (lat2 <= inject_Z 90)%Q ->
  exists d, haversine lat1 lon1 lat2 lon2 = Some d /\ (0 <= d <= 6371000 * PI)%R.
Proof.
  intros H1 H2 H3 H4.
  pose proof (haversine_a_range lat1 lon1 lat2 lon2 H1 H2 H3 H4) as Ha.
  rewrite (haversine_in_range _ _ _ _ Ha). eexists. split; [reflexivity|].
  set (a := haversine_a lat1 lon1 lat2 lon2) in *.
  assert (H0 : (0 <= Math_atan2 (sqrt a) (sqrt (1 - a)))%R).
  { apply Math_atan2_nonneg; apply sqrt_pos. }
  assert (Hq : (Math_atan2 (sqrt a) (sqrt (1 - a)) <= PI / 2)%R).
  { apply Math_atan2_quadrant; apply sqrt_pos. }
  split; nra.
Qed.

(** In exact arithmetic the formula stays in its range: between two
    coordinates that pass [isValidCoordinate] the distance is a number, at
    least 0 and at most half the circumference of the sphere,
    [6371000 * PI] meters, and from a valid coordinate to itself it is 0.
    Rounding breaks the first part, as the distance on binary64 numbers
    shows. *)
Theorem calculateDistance_range (h : Heap) (coord1 coord2 : Value) :
  isValidCoordinate h coord1 = true -> isValidCoordinate h coord2 = true ->
  (exists d, calculateDistance h coord1 coord2 = Some d
             /\ (0 <= d <= 6371000 * PI)%R)
  /\ calculateDistance h coord1 coord1 = Some 0%R.
Proof.
  intros Hv1 Hv2.
  apply isValidCoordinate_true in Hv1 as (lat1 & lon1 & Hp1).
  apply isValidCoordinate_true in Hv2 as (lat2 & lon2 & Hp2).
  rewrite (calculateDistance_valid h coord1 coord2 _ _ _ _ Hp1 Hp2).
  rewrite (calculateDistance_valid h coord1 coord1 _ _ _ _ Hp1 Hp1).
  destruct Hp1 as (l1 & props1 & _ & _ & _ & _ & Ha1 & Hb1 & _).
  destruct Hp2 as (l2 & props2 & _ & _ & _ & _ & Ha2 & Hb2 & _).
  split; [now apply haversine_bounded|apply haversine_same].
Qed.

Lemma calculateDistance_range_witness :
  (exists d, calculateDistance parallel60_heap (VRef 0) (VRef 2) = Some d
             /\ (0 <= d <= 6371000 * PI)%R)
  /\ calculateDistance parallel60_heap (VRef 0) (VRef 0) = Some 0%R.
Proof. apply calculateDistance_range; reflexivity. Defined.

(** X3. [calculateDistance] returns no negative number: between two
    coordinates that pass [isValidCoordinate], a distance that is a number
    is at least 0 (on binary64 numbers it can be NaN); and between two
    valid coordinates with the same latitude and the same longitude it
    is 0. *)
Theorem calculateDistance_not_negative (h : Heap) (coord1 coord2 : Value) :
  isValidCoordinate h coord1 = true -> isValidCoordinate h coord2 = true ->
  (forall d, calculateDistance h coord1 coord2 = Some d -> (0 <= d)%R)
  /\ (member h coord1 "latitude" = member h coord2 "latitude" ->
      member h coord1 "longitude" = member h coord2 "longitude" ->
      calculateDistance h coord1 coord2 = Some 0%R).
Proof.
  intros Hv1 Hv2.
  apply isValidCoordinate_true in Hv1 as (lat1 & lon1 & Hp1).
  apply isValidCoordinate_true in Hv2 as (lat2 & lon2 & Hp2).
  rewrite (calculateDistance_valid h coord1 coord2 _ _ _ _ Hp1 Hp2).
  destruct Hp1 as (l1 & props1 & -> & Hl1 & Hlat1 & Hlon1 & Ha1 & Hb1 & _).
  destruct Hp2 as (l2 & props2 & -> & Hl2 & Hlat2 & Hlon2 & Ha2 & Hb2 & _).
  split.
  - intros d Hd.
    destruct (haversine_bounded lat1 lon1 lat2 lon2 Ha1 Hb1 Ha2 Hb2) as (d' & Hd' & Hr).
    rewrite Hd in Hd'. injection Hd' as <-. apply Hr.
  - simpl. rewrite Hl1, Hl2, Hlat1, Hlon1, Hlat2, Hlon2. simpl.
    intros [= <-] [= <-]. apply haversine_same.
Qed.

Lemma calculateDistance_not_negative_witness :
  calculateDistance twin_heap (VRef 0) (VRef 2) = Some 0%R.
Proof.
  apply (calculateDistance_not_negative twin_heap (VRef 0) (VRef 2)); reflexivity.
Defined.

(** ** Radii and places at the edge *)

(** Without any assumption on the labels: events with one root carry one
    label. *)
Lemma clusterEvents_root_label ids h events radius elems :
  array_elems h events = Some elems ->
  negb (is_number radius) || num_le (value_num radius) (num_of_Z 0) = false ->
  Forall (fun e => nullish e = false) elems ->
  let res := clusterEvents ids h events radius in
  exists outs uf,
    output_events res = Some outs
    /\ union_phase h (value_num radius) (valid_events h elems) = Some uf
    /\ length outs = length (valid_events h elems)
    /\ forall i j oi oj, outs !! i = Some oi -> outs !! j = Some oj ->
         same_set uf i j ->
         member (heap_after res) oi "clusterId" = member (heap_after res) oj "clusterId".
Proof.
  intros Harr Hguard Hnn res.
  destruct (clusterEvents_returns ids h events radius elems Harr Hguard Hnn)
    as (objects & uf & idx & Heq & Hun & Hlen & _ & Hidx & Hobjs).
  exists (imap (fun i _ => VRef (S (length h) + i)) objects), uf.
  split; [unfold res; rewrite Heq; apply return_array_output|].
  split; [assumption|]. split; [now rewrite length_imap|].
  assert (Hlabel : forall i oi,
            imap (fun i _ => VRef (S (length h) + i)) objects !! i = Some oi ->
            exists r t, root_of (parent uf) i r /\ idx !! r = Some t
                        /\ member (heap_after res) oi "clusterId" = VStr (ids t)).
  { intros i oi Hi. rewrite list_lookup_imap in Hi.
    destruct (objects !! i) as [obj|] eqn:Hobj; [|discriminate].
    simpl in Hi. injection Hi as <-.
    destruct (lookup_lt_is_Some_2 (valid_events h elems) i) as [e He].
    { rewrite <- Hlen. eapply lookup_lt_Some; eassumption. }
    destruct (Hobjs i e He) as (r & t & Hr & Ht & Hobj').
    exists r, t. split; [assumption|]. split; [assumption|].
    rewrite member_spread. unfold res. rewrite Heq.
    rewrite (spread_labelled _ _ _ _ _ _ Hobj'), lookup_insert_eq. reflexivity. }
  intros i j oi oj Hi Hj Hsame.
  destruct (Hlabel i oi Hi) as (ri & ti & Hri & Hti & ->).
  destruct (Hlabel j oj Hj) as (rj & tj & Hrj & Htj & ->).
  apply (same_set_roots uf i j ri rj Hri Hrj) in Hsame. subst rj. congruence.
Qed.

Lemma clusterEvents_chain_label ids h events radius elems :
  array_elems h events = Some elems ->
  negb (is_number radius) || num_le (value_num radius) (num_of_Z 0) = false ->
  Forall (fun e => nullish e = false) elems ->
  let res := clusterEvents ids h events radius in
  exists outs,
    output_events res = Some outs
    /\ length outs = length (valid_events h elems)
    /\ forall i j oi oj, outs !! i = Some oi -> outs !! j = Some oj ->
         rtsc (neighbours h (value_num radius) (valid_events h elems)) i j ->
         member (heap_after res) oi "clusterId" = member (heap_after res) oj "clusterId".
Proof.
  intros Harr Hguard Hnn res.
  destruct (clusterEvents_root_label ids h events radius elems Harr Hguard Hnn)
    as (outs & uf & Hout & Hun & Hlen & Hsame).
  destruct (union_phase_spec h (value_num radius) (valid_events h elems))
    as (uf' & Hun' & _ & _ & Hlinks).
  rewrite Hun in Hun'. injection Hun' as <-.
  exists outs. split; [assumption|]. split; [assumption|].
  intros i j oi oj Hi Hj Hch. apply (Hsame i j oi oj Hi Hj).
  apply Hlinks; [| |assumption]; rewrite <- Hlen; eapply lookup_lt_Some; eassumption.
Qed.

Lemma passes_fields h e :
  passes h e = true ->
  exists lat lon,
    value_num (member h (member h e "coordinates") "latitude") = Fin lat
    /\ value_num (member h (member h e "coordinates") "longitude") = Fin lon
    /\ (inject_Z (-90) <= lat)%Q /\ (lat <= inject_Z 90)%Q.
Proof.
  intros Hp. apply passes_valid_point in Hp
    as (lat & lon & l & props & Hc & Hl & Hlat & Hlon & H1 & H2 & _).
  exists lat, lon. rewrite Hc. simpl. rewrite Hl, Hlat, Hlon. simpl. auto.
Qed.

Lemma valid_events_passes h elems i e :
  valid_events h elems !! i = Some e -> passes h e = true.
Proof.
  intros Hi. apply list_elem_of_lookup_2 in Hi.
  unfold valid_events in Hi. now apply list_elem_of_filter in Hi as [? _].
Qed.

Lemma adjacent_same_cell (c : Ix * Ix) : adjacent c c.
Proof.
  destruct c as [r c]. exists 0%Z, 0%Z. split; [set_solver|]. split; [set_solver|].
  simpl. f_equal; [destruct r|destruct c]; simpl; try reflexivity;
    now rewrite Z.add_0_r.
Qed.

Lemma distance_le_zero radius :
  positive_radius (VNum radius) -> distance_le (Some 0%R) radius = true.
Proof.
  intros [[= ->]|(q & [= ->] & Hq)]; [reflexivity|]. simpl.
  destruct (Rle_dec 0 (Q2R q)) as [_|Hn]; [reflexivity|].
  exfalso. apply Hn. replace 0%R with (Q2R 0) by apply RMicromega.Q2R_0.
  apply Qle_Rle. now apply Qlt_le_weak.
Qed.

(** X5. Two valid events whose coordinates hold the same latitude and
    the same longitude carry the same [clusterId], for every positive
    radius. *)
Theorem clusterEvents_same_place (ids : nat -> string) (h : Heap)
    (events radiusInMeters : Value) (elems : list Value) :
  array_elems h events = Some elems ->
  positive_radius radiusInMeters ->
  Forall (fun e => nullish e = false) elems ->
  let res := clusterEvents ids h events radiusInMeters in
  exists outs,
    output_events res = Some outs
    /\ length outs = length (valid_events h elems)
    /\ forall i j ei ej oi oj,
         valid_events h elems !! i = Some ei -> valid_events h elems !! j = Some ej ->
         member h (member h ei "coordinates") "latitude"
         = member h (member h ej "coordinates") "latitude" ->
         member h (member h ei "coordinates") "longitude"
         = member h (member h ej "coordinates") "longitude" ->
         outs !! i = Some oi -> outs !! j = Some oj ->
         member (heap_after res) oi "clusterId" = member (heap_after res) oj "clusterId".
Proof.
  intros Harr Hpos Hnn res.
  destruct (clusterEvents_chain_label ids h events radiusInMeters elems Harr
              (positive_radius_guard _ Hpos) Hnn) as (outs & Hout & Hlen & Hsame).
  exists outs. split; [assumption|]. split; [assumption|].
  assert (Hnb : forall a b ea eb,
            valid_events h elems !! a = Some ea -> valid_events h elems !! b = Some eb ->
            member h (member h ea "coordinates") "latitude"
            = member h (member h eb "coordinates") "latitude" ->
            member h (member h ea "coordinates") "longitude"
            = member h (member h eb "coordinates") "longitude" ->
            a < b ->
            neighbours h (value_num radiusInMeters) (valid_events h elems) a b).
  { intros a b ea eb Hea Heb Hlat Hlon Hab. split; [assumption|]. split.
    - exists ea, eb. split; [assumption|]. split; [assumption|].
      unfold cell. rewrite Hlat, Hlon. apply adjacent_same_cell.
    - unfold within. rewrite Hea, Heb. simpl.
      pose proof (valid_events_passes _ _ _ _ Heb) as Hpb.
      destruct (passes_fields _ _ Hpb) as (lb & ob & Hlb & Hob & _).
      unfold calculateDistance. rewrite Hlat, Hlon, Hlb, Hob, haversine_same.
      apply distance_le_zero. destruct Hpos as [->|(q & -> & Hq)]; [now left|].
      right. eauto. }
  intros i j ei ej oi oj Hei Hej Hlat Hlon Hi Hj. apply (Hsame i j oi oj Hi Hj).
  destruct (Nat.lt_trichotomy i j) as [Hlt|[->|Hgt]].
  - apply rtsc_lr. eapply Hnb; eassumption.
  - reflexivity.
  - apply rtsc_rl. eapply Hnb; eauto.
Qed.

Lemma clusterEvents_same_place_witness :
  exists outs,
    output_events (clusterEvents numbered_ids twin_heap (VRef 6) (VNum (Fin 1000)))
    = Some outs
    /\ length outs = 3.
Proof.
  destruct (clusterEvents_same_place numbered_ids twin_heap (VRef 6) (VNum (Fin 1000))
              [VRef 1; VRef 3; VRef 5]) as (outs & Hout & Hlen & _);
    [reflexivity|right; exists 1000%Q; split; reflexivity|repeat constructor|].
  exists outs. split; [exact Hout|]. rewrite Hlen. vm_compute. reflexivity.
Defined.

Lemma rtsc_empty (R : relation nat) i j : (forall a b, ~ R a b) -> rtsc R i j -> i = j.
Proof.
  intros HR Hij. induction Hij as [|x y z [Hxy|Hyx] _ IH]; [reflexivity| |].
  - now apply HR in Hxy.
  - now apply HR in Hyx.
Qed.

(** X6. The radius NaN passes the guard of [clusterEvents]: the call
    returns, no distance is at most NaN, so no two events are merged, and,
    with labels that are never generated twice, every valid event has a
    [clusterId] of its own. *)
Theorem clusterEvents_NaN_isolates (ids : nat -> string) (h : Heap)
    (events : Value) (elems : list Value) :
  array_elems h events = Some elems ->
  Forall (fun e => nullish e = false) elems ->
  Inj (=) (=) ids ->
  let res := clusterEvents ids h events (VNum NaN) in
  exists outs,
    output_events res = Some outs
    /\ length outs = length (valid_events h elems)
    /\ forall i j oi oj, outs !! i = Some oi -> outs !! j = Some oj ->
         (member (heap_after res) oi "clusterId" = member (heap_after res) oj "clusterId"
          <-> i = j).
Proof.
  intros Harr Hnn Hinj res.
  destruct (clusterEvents_same_label ids h events (VNum NaN) elems Harr eq_refl Hnn Hinj)
    as (outs & uf & Hout & Hun & Hlen & Hsame).
  destruct (union_phase_spec h (value_num (VNum NaN)) (valid_events h elems))
    as (uf' & Hun' & _ & _ & Hlinks).
  rewrite Hun in Hun'. injection Hun' as <-.
  exists outs. split; [assumption|]. split; [assumption|].
  intros i j oi oj Hi Hj. fold res in Hsame. rewrite (Hsame i j oi oj Hi Hj).
  rewrite Hlinks by (rewrite <- Hlen; eapply lookup_lt_Some; eassumption).
  split; [|intros ->; reflexivity].
  apply rtsc_empty. intros a b (_ & _ & Hw). unfold within in Hw. simpl in Hw.
  destruct (calculateDistance _ _ _); discriminate.
Qed.

Lemma clusterEvents_NaN_isolates_witness :
  exists outs,
    output_events (clusterEvents numbered_ids twin_heap (VRef 6) (VNum NaN)) = Some outs
    /\ length outs = 3.
Proof.
  destruct (clusterEvents_NaN_isolates numbered_ids twin_heap (VRef 6)
              [VRef 1; VRef 3; VRef 5]) as (outs & Hout & Hlen & _);
    [reflexivity|repeat constructor|exact numbered_ids_inj|].
  exists outs. split; [exact Hout|]. rewrite Hlen. vm_compute. reflexivity.
Defined.

(** ** The grid index, cell by cell *)

Lemma createGridIndex_lookup (h : Heap) (events : list Value) (radius : Num)
    (key : Ix * Ix) :
  default [] ((createGridIndex h events radius).1 !! key)
  = filter (fun j => cell h (num_mul radius (Fin degPerMeter))
                          (default VUndefined (events !! j)) = key)
           (seq 0 (length events)).
Proof.
  unfold createGridIndex. simpl. set (dpc := num_mul radius (Fin degPerMeter)).
  induction events as [|x events IH] using rev_ind.
  - simpl. now rewrite lookup_empty.
  - assert (Himap : imap pair (events ++ [x]) = imap pair events ++ [(length events, x)]).
    { rewrite imap_app. simpl. now rewrite Nat.add_0_r. }
    rewrite Himap, foldl_snoc, grid_insert_lookup, IH.
    rewrite length_app. simpl. rewrite seq_app, filter_app. simpl. f_equal.
    + apply filter_ext_in. intros j Hj. apply elem_of_seq in Hj.
      rewrite lookup_app_l by lia. reflexivity.
    + rewrite filter_cons, filter_nil.
      rewrite lookup_app_r by lia. rewrite Nat.sub_diag. simpl.
      destruct (decide (key = cell h dpc x)) as [->|Hne].
      * now rewrite decide_True.
      * rewrite decide_False; [reflexivity|congruence].
Qed.

Lemma createGridIndex_members (h : Heap) (events : list Value) (radius : Num)
    (key : Ix * Ix) (members : list nat) :
  (createGridIndex h events radius).1 !! key = Some members ->
  members = filter (fun j => cell h (num_mul radius (Fin degPerMeter))
                               (default VUndefined (events !! j)) = key)
              (seq 0 (length events)).
Proof.
  intros Hkey. rewrite <- createGridIndex_lookup. now rewrite Hkey.
Qed.

Lemma createGridIndex_disjoint (h : Heap) (events : list Value) (radius : Num) :
  grid_disjoint (createGridIndex h events radius).1.
Proof.
  split.
  - intros key members ->%createGridIndex_members. apply NoDup_filter, NoDup_seq.
  - intros key key' members members' j Hk Hk' Hj Hj'.
    assert (H1 : j ∈ default [] ((createGridIndex h events radius).1 !! key))
      by now rewrite Hk.
    assert (H2 : j ∈ default [] ((createGridIndex h events radius).1 !! key'))
      by now rewrite Hk'.
    apply createGridIndex_elem in H1 as (e1 & He1 & <-).
    apply createGridIndex_elem in H2 as (e2 & He2 & <-). congruence.
Qed.

Lemma filter_none {A} (P : A -> Prop) `{forall x, Decision (P x)} (l : list A) :
  (forall x, x ∈ l -> ~ P x) -> filter P l = [].
Proof.
  induction l as [|a l IH]; [reflexivity|]. intros Hl.
  rewrite filter_cons_False by (apply Hl; now left).
  apply IH. intros x Hx. apply Hl. now right.
Qed.

Lemma getNearbyIndices_keys (grid : Grid) (row col : Ix) :
  getNearbyIndices grid row col
  = flat_map (fun key => default [] (grid !! key))
      [ (ix_add row (-1), ix_add col (-1)); (ix_add row (-1), ix_add col 0);
        (ix_add row (-1), ix_add col 1);
        (ix_add row 0, ix_add col (-1)); (ix_add row 0, ix_add col 0);
        (ix_add row 0, ix_add col 1);
        (ix_add row 1, ix_add col (-1)); (ix_add row 1, ix_add col 0);
        (ix_add row 1, ix_add col 1) ].
Proof.
  unfold getNearbyIndices.
  assert (H : forall key,
            (if decide (is_Some (grid !! key)) then default [] (grid !! key) else [])
            = default [] (grid !! key)).
  { intros key. destruct (decide (is_Some (grid !! key))) as [|Hn]; [reflexivity|].
    destruct (grid !! key); [exfalso; eauto|reflexivity]. }
  cbn [flat_map]. rewrite !H, !app_nil_r, <- !app_assoc. reflexivity.
Qed.

Lemma flat_map_NoDup {A B} (f : A -> list B) (l : list A) :
  NoDup l -> (forall x, x ∈ l -> NoDup (f x)) ->
  (forall x1 x2 y, x1 ∈ l -> x2 ∈ l -> y ∈ f x1 -> y ∈ f x2 -> x1 = x2) ->
  NoDup (flat_map f l).
Proof.
  induction 1 as [|x l Hx Hl IH]; intros Hf Hdisj; simpl; [constructor|].
  apply NoDup_app. split; [apply Hf; left|]. split.
  - intros y Hy Hy'. apply list_elem_of_In, in_flat_map in Hy' as (x' & Hx' & Hy').
    apply list_elem_of_In in Hx', Hy'.
    assert (x = x') by (eapply Hdisj; [left|right; eassumption|eassumption|eassumption]).
    subst x'. contradiction.
  - apply IH.
    + intros x' Hx'. apply Hf. now right.
    + intros x1 x2 y H1 H2. apply Hdisj; now right.
Qed.

Lemma nine_NoDup (row col : Z) :
  NoDup [ (IxInt (row + -1), IxInt (col + -1)); (IxInt (row + -1), IxInt (col + 0));
          (IxInt (row + -1), IxInt (col + 1));
          (IxInt (row + 0), IxInt (col + -1)); (IxInt (row + 0), IxInt (col + 0));
          (IxInt (row + 0), IxInt (col + 1));
          (IxInt (row + 1), IxInt (col + -1)); (IxInt (row + 1), IxInt (col + 0));
          (IxInt (row + 1), IxInt (col + 1)) ]%Z.
Proof.
  repeat (apply NoDup_cons; split;
          [rewrite ?elem_of_cons, elem_of_nil;
           intros H; repeat (destruct H as [H|H]); try contradiction;
           injection H; lia|]).
  apply NoDup_nil_2.
Qed.

(** X8. [getNearbyIndices] around the cell ([row], [col]), two integers
    below 2^53 in absolute value (so that [row + i] and [col + j] are
    exact), on a grid whose cells hold each index at most once, as the
    grid of [createGridIndex] does: it returns the indices stored under
    the keys at most one row and one column away, and each of them
    once. *)
Theorem getNearbyIndices_nine_cells (grid : Grid) (row col : Z) :
  (Z.abs row < 2 ^ 53)%Z ->
  (Z.abs col < 2 ^ 53)%Z ->
  grid_disjoint grid ->
  let nearbyIndices := getNearbyIndices grid (IxInt row) (IxInt col) in
  NoDup nearbyIndices
  /\ forall j, j ∈ nearbyIndices
       <-> exists r c members,
             grid !! (IxInt r, IxInt c) = Some members /\ j ∈ members
             /\ (row - 1 <= r <= row + 1)%Z /\ (col - 1 <= c <= col + 1)%Z.
Proof.
  intros _ _ [Hnodup Hdisj] nearbyIndices. split.
  - unfold nearbyIndices. rewrite getNearbyIndices_keys. simpl ix_add.
    apply flat_map_NoDup.
    + apply nine_NoDup.
    + intros key _. destruct (grid !! key) as [members|] eqn:Hkey; simpl.
      * eapply Hnodup. exact Hkey.
      * constructor.
    + intros k1 k2 j _ _ H1 H2.
      destruct (grid !! k1) as [m1|] eqn:Hk1; [|inversion H1].
      destruct (grid !! k2) as [m2|] eqn:Hk2; [|inversion H2].
      eapply Hdisj; eassumption.
  - intros j. unfold nearbyIndices. rewrite getNearbyIndices_elem. split.
    + intros (key & (i & k & Hi & Hk & ->) & Hj). simpl in Hj.
      destruct (grid !! _) as [members|] eqn:Hkey; [|inversion Hj].
      exists (row + i)%Z, (col + k)%Z, members. split; [assumption|].
      split; [assumption|]. rewrite !elem_of_cons, elem_of_nil in Hi, Hk. lia.
    + intros (r & c & members & Hkey & Hj & Hr & Hc).
      exists (IxInt r, IxInt c). split.
      * exists (r - row)%Z, (c - col)%Z.
        split; [rewrite !elem_of_cons; lia|]. split; [rewrite !elem_of_cons; lia|].
        simpl. f_equal; f_equal; lia.
      * now rewrite Hkey.
Qed.

Lemma getNearbyIndices_nine_cells_witness :
  NoDup (getNearbyIndices (createGridIndex twin_heap [VRef 1; VRef 3; VRef 5] (Fin 1000)).1
           (IxInt 4452) (IxInt (-8237))).
Proof.
  apply (getNearbyIndices_nine_cells
           (createGridIndex twin_heap [VRef 1; VRef 3; VRef 5] (Fin 1000)).1
           4452 (-8237)).
  - reflexivity.
  - reflexivity.
  - apply createGridIndex_disjoint.
Defined.

(** ** The loops, on binary64 numbers *)

Section Loops.
Import PrimFloat FloatOps SpecFloat FloatAxioms Binary64 Binary64_loops.
Local Open Scope float_scope.

(** The keys are those of the program: for the latitude and longitude
    -9 and the radius 625 the quotient is -1603.0000000000002 and the key
    is (-1604, -1604), where the quotient of the real numbers is -1603. *)
Lemma createGridIndex_rounded_key :
  (createGridIndex [mkEvent {| latitude := -9; longitude := -9 |}] 625).1
  = {[ (Text_integer (-1604), Text_integer (-1604)) := [0%nat] ]}.
Proof. vm_compute. reflexivity. Qed.

Lemma binary64_grid_insert_lookup (dpc : float) (grid : Grid)
    (index : nat) (event : Event) (key : Text * Text) :
  default [] (grid_insert dpc grid (index, event) !! key)
  = default [] (grid !! key) ++ (if decide (key = cell dpc event) then [index] else []).
Proof.
  set (c := cell dpc event).
  assert (Hins : grid_insert dpc grid (index, event)
                 = <[c := default [] ((if decide (is_Some (grid !! c)) then grid
                                       else <[c := []]> grid) !! c) ++ [index]]>
                     (if decide (is_Some (grid !! c)) then grid else <[c := []]> grid))
    by reflexivity.
  rewrite Hins. clear Hins.
  destruct (decide (key = c)) as [->|Hne].
  - rewrite lookup_insert_eq. simpl.
    destruct (decide (is_Some (grid !! c))) as [_|Hnone]; [reflexivity|].
    rewrite lookup_insert_eq. simpl.
    destruct (grid !! c) eqn:Hc; [exfalso; eauto|reflexivity].
  - rewrite lookup_insert_ne by congruence.
    destruct (decide (is_Some (grid !! c))) as [_|_].
    + now rewrite app_nil_r.
    + rewrite lookup_insert_ne by congruence. now rewrite app_nil_r.
Qed.

Lemma binary64_createGridIndex_elem (events : list Event) (radius : float)
    (key : Text * Text) (j : nat) :
  j ∈ default [] ((createGridIndex events radius).1 !! key)
  <-> exists e, events !! j = Some e /\ cell (degreesPerCell radius) e = key.
Proof.
  unfold createGridIndex. cbn [fst]. fold (degreesPerCell radius).
  set (dpc := degreesPerCell radius).
  induction events as [|x events IH] using rev_ind.
  - simpl. rewrite lookup_empty. simpl. split.
    + intros H. inversion H.
    + intros (e & He & _). discriminate.
  - assert (Himap : imap pair (events ++ [x]) = imap pair events ++ [(length events, x)]).
    { rewrite imap_app. simpl. now rewrite Nat.add_0_r. }
    rewrite Himap, foldl_snoc, binary64_grid_insert_lookup, elem_of_app, IH. split.
    + intros [(e & He & Hc)|Hj].
      * exists e. split; [|assumption]. now apply lookup_app_l_Some.
      * destruct (decide (key = cell dpc x)) as [->|_]; [|inversion Hj].
        apply list_elem_of_singleton in Hj as ->. exists x. split; [|reflexivity].
        rewrite lookup_app_r by lia. now rewrite Nat.sub_diag.
    + intros (e & He & Hc). apply lookup_app_Some in He as [He|[Hge He]].
      * left. eauto.
      * right. destruct (decide ((j - length events)%nat = 0%nat)) as [H0|Hn].
        -- rewrite H0 in He. simpl in He. injection He as <-.
           rewrite decide_True by now symmetry.
           apply list_elem_of_singleton. lia.
        -- destruct (j - length events)%nat as [|k]; [congruence|]. discriminate.
Qed.

Lemma binary64_getNearbyIndices_elem (grid : Grid) (row col : float) (j : nat) :
  j ∈ getNearbyIndices grid row col
  <-> exists key, key ∈ nearby_keys row col /\ j ∈ default [] (grid !! key).
Proof.
  unfold getNearbyIndices, nearby_keys.
  assert (Hcell : forall key,
            (if decide (is_Some (grid !! key)) then default [] (grid !! key) else [])
            = default [] (grid !! key)).
  { intros key. destruct (decide (is_Some (grid !! key))) as [|Hn]; [reflexivity|].
    destruct (grid !! key); [exfalso; eauto|reflexivity]. }
  cbn [flat_map mbind list_bind app]. rewrite !Hcell, !app_nil_r.
  rewrite !elem_of_app. split.
  - intros [[H|[H|H]]|[[H|[H|H]]|[H|[H|H]]]];
      (eexists; split; [|exact H]); rewrite !elem_of_cons; tauto.
  - intros (key & Hkey & Hj). rewrite !elem_of_cons, elem_of_nil in Hkey.
    repeat (destruct Hkey as [->|Hkey]; [tauto|]). contradiction.
Qed.

Lemma binary64_union_nearby_links engine radius events n i nearby unionFind pairs :
  n = length events -> (i < n)%nat -> Forall (fun j => (j < n)%nat) nearby ->
  uf_links n unionFind pairs ->
  uf_links n (foldl (union_nearby engine radius events i) unionFind nearby)
             (pairs ++ row_pairs engine radius events i nearby).
Proof.
  intros -> Hi Hnear. revert unionFind pairs.
  destruct (lookup_lt_is_Some_2 events i Hi) as [ei Hei].
  induction Hnear as [|j nearby Hj _ IH]; intros unionFind pairs Hinv.
  - unfold row_pairs. simpl. now rewrite app_nil_r.
  - simpl. unfold row_pairs. rewrite filter_cons.
    destruct (lookup_lt_is_Some_2 events j Hj) as [ej Hej].
    assert (Hacc : accepted engine radius events i j
                   = (i <? j)%nat && within engine radius ei ej).
    { unfold accepted. now rewrite Hei, Hej. }
    rewrite Hacc.
    pose proof Hinv as (uf & -> & _). cbn [union_nearby].
    rewrite Hei, Hej. fold (within engine radius ei ej).
    destruct (Nat.ltb_spec i j) as [Hlt|Hge]; cbn [andb].
    + destruct (within engine radius ei ej) eqn:Hw.
      * rewrite decide_True by reflexivity. rewrite fmap_cons.
        change (pairs ++ (i, j) :: ?l) with (pairs ++ [(i, j)] ++ l).
        rewrite app_assoc. apply IH. now apply uf_links_union.
      * rewrite decide_False by discriminate. now apply IH.
    + rewrite decide_False by discriminate. now apply IH.
Qed.

Lemma binary64_nearby_of_elem radius events ei j :
  j ∈ nearby_of radius events ei
  <-> exists ej, events !! j = Some ej
                 /\ cell (degreesPerCell radius) ej
                      ∈ nearby_keys (row_col (degreesPerCell radius) ei).1
                                    (row_col (degreesPerCell radius) ei).2.
Proof.
  unfold nearby_of.
  pose proof (binary64_createGridIndex_elem events radius) as Hgrid.
  destruct (createGridIndex events radius) as [grid dpc] eqn:Hc.
  assert (Hdpc : dpc = degreesPerCell radius).
  { unfold createGridIndex in Hc. now injection Hc as _ <-. }
  cbn [fst] in Hgrid. rewrite binary64_getNearbyIndices_elem, Hdpc. split.
  - intros (key & Hadj & Hj). apply Hgrid in Hj as (ej & Hej & <-). eauto.
  - intros (ej & Hej & Hadj). eexists. split; [exact Hadj|]. apply Hgrid. eauto.
Qed.

Lemma binary64_nearby_of_lt radius events ei :
  Forall (fun j => (j < length events)%nat) (nearby_of radius events ei).
Proof.
  apply Forall_forall. intros j Hj.
  apply binary64_nearby_of_elem in Hj as (ej & Hej & _).
  eapply lookup_lt_Some; eassumption.
Qed.

Lemma binary64_union_rows_links engine radius events rows unionFind pairs :
  Forall (fun i => (i < length events)%nat) rows ->
  uf_links (length events) unionFind pairs ->
  uf_links (length events)
    (foldl (union_row engine radius events (createGridIndex events radius).1
                      (createGridIndex events radius).2) unionFind rows)
    (pairs ++ merged_pairs engine radius events rows).
Proof.
  intros Hrows. revert unionFind pairs.
  induction Hrows as [|i rows Hi _ IH]; intros unionFind pairs Hinv.
  - unfold merged_pairs. simpl. now rewrite app_nil_r.
  - simpl. unfold merged_pairs. simpl. rewrite app_assoc. apply IH.
    destruct (lookup_lt_is_Some_2 events i Hi) as [ei Hei].
    unfold union_row. rewrite Hei.
    change (getNearbyIndices _ _ _) with (nearby_of radius events ei).
    apply binary64_union_nearby_links;
      [reflexivity|assumption|apply binary64_nearby_of_lt|assumption].
Qed.

Lemma binary64_merged_pairs_elem engine radius events a b :
  (a, b) ∈ merged_pairs engine radius events (seq 0 (length events))
  <-> neighbours engine radius events a b.
Proof.
  unfold merged_pairs, neighbours, row_pairs.
  rewrite list_elem_of_In, in_flat_map. split.
  - intros (i & Hi & Hab). apply list_elem_of_In, elem_of_seq in Hi.
    destruct (events !! i) as [ei|] eqn:Hei; [|inversion Hab].
    apply list_elem_of_In, list_elem_of_fmap in Hab as (j & [= -> ->] & Hj).
    apply list_elem_of_filter in Hj as [Hacc Hj].
    apply binary64_nearby_of_elem in Hj as (ej & Hej & Hadj).
    unfold accepted in Hacc. rewrite Hei, Hej in Hacc.
    apply andb_prop in Hacc as [Hlt%Nat.ltb_lt Hw].
    split; [assumption|]. exists ei, ej. auto.
  - intros (Hlt & ea & eb & Hea & Heb & Hadj & Hw).
    exists a. split.
    + apply list_elem_of_In, elem_of_seq. apply lookup_lt_Some in Hea. lia.
    + rewrite Hea. apply list_elem_of_In, list_elem_of_fmap. exists b.
      split; [reflexivity|]. apply list_elem_of_filter. split.
      * unfold accepted. rewrite Hea, Heb, Hw.
        apply Nat.ltb_lt in Hlt. now rewrite Hlt.
      * apply binary64_nearby_of_elem. eauto.
Qed.

Lemma binary64_unions_linked (engine : Engine) (validEvents : list Event)
    (radiusInMeters : float) :
  exists uf,
    clusterEvents_unions engine validEvents radiusInMeters = Some uf
    /\ length (parent uf) = length validEvents
    /\ forest (parent uf)
    /\ forall a b, (a < length validEvents)%nat -> (b < length validEvents)%nat ->
         (same_set uf a b
          <-> rtsc (fun x y => (x, y) ∈ merged_pairs engine radiusInMeters validEvents
                                          (seq 0 (length validEvents))) a b).
Proof.
  destruct (binary64_union_rows_links engine radiusInMeters validEvents
              (seq 0 (length validEvents))
              (Some (UnionFind_new (length validEvents))) [])
    as (uf & Hrun & Hlen & Hf & Hsame).
  { apply Forall_forall. intros i Hi. apply elem_of_seq in Hi. lia. }
  { apply uf_links_new. }
  exists uf. split.
  { unfold clusterEvents_unions.
    destruct (createGridIndex validEvents radiusInMeters) as [grid dpc] eqn:Hc.
    exact Hrun. }
  split; [assumption|]. split; [assumption|].
  intros a b Ha Hb. rewrite (Hsame a b Ha Hb). reflexivity.
Qed.

Lemma rtsc_iff (R1 R2 : relation nat) :
  (forall x y, R1 x y <-> R2 x y) -> forall a b, rtsc R1 a b <-> rtsc R2 a b.
Proof.
  intros H a b. split.
  - apply (rtsc_congruence (fun x : nat => x) R2). intros x y. apply H.
  - apply (rtsc_congruence (fun x : nat => x) R1). intros x y. apply H.
Qed.

(** X1. What the two loops of [clusterEvents] compute, on binary64
    numbers and for every engine.  The loops end with a forest of the
    valid events (no [find] runs out of fuel), and two events are in one
    set of it exactly when a chain of [neighbours] connects them: pairs
    of which the second comes later in the array, has the key of its
    cell among the nine keys that [getNearbyIndices] looks up around the
    first, and is at a distance of at most the radius from it, as
    [calculateDistance] computes it. *)
Theorem clusterEvents_unions_components (engine : Engine) (validEvents : list Event)
    (radiusInMeters : float) :
  exists uf,
    clusterEvents_unions engine validEvents radiusInMeters = Some uf
    /\ length (parent uf) = length validEvents
    /\ forest (parent uf)
    /\ forall a b, (a < length validEvents)%nat -> (b < length validEvents)%nat ->
         (same_set uf a b <-> rtsc (neighbours engine radiusInMeters validEvents) a b).
Proof.
  destruct (binary64_unions_linked engine validEvents radiusInMeters)
    as (uf & Hrun & Hlen & Hf & Hsame).
  exists uf. split; [assumption|]. split; [assumption|]. split; [assumption|].
  intros a b Ha Hb. rewrite (Hsame a b Ha Hb).
  apply rtsc_iff. intros x y. apply binary64_merged_pairs_elem.
Qed.

Lemma within_range_finite (x low high : float) :
  (exists s m e, Prim2SF low = S754_finite s m e) ->
  (exists s m e, Prim2SF high = S754_finite s m e) ->
  (low <=? x) = true -> (x <=? high) = true ->
  exists s, Prim2SF x = S754_zero s \/ exists m e, Prim2SF x = S754_finite s m e.
Proof.
  intros (sl & ml & el & Hlow) (sh & mh & eh & Hhigh). rewrite !leb_spec, Hlow, Hhigh.
  unfold SFleb, SFcompare.
  destruct (Prim2SF x) as [s|[|]| |s m e]; intros H1 H2; try discriminate.
  - exists s. now left.
  - exists s. right. eauto.
Qed.

Lemma div_infinity (x : float) :
  (exists s, Prim2SF x = S754_zero s \/ exists m e, Prim2SF x = S754_finite s m e) ->
  x / infinity = 0 \/ x / infinity = -0.
Proof.
  intros (s & Hx).
  assert (Hq : Prim2SF (x / infinity) = S754_zero s).
  { rewrite div_spec. change (Prim2SF infinity) with (S754_infinity false).
    destruct Hx as [->|(m & e & ->)]; simpl; now rewrite xorb_false_r. }
  rewrite <- (SF2Prim_Prim2SF (x / infinity)), Hq. destruct s; auto.
Qed.

Lemma leb_infinity (d : float) : (d <=? infinity) = negb (is_nan d).
Proof.
  rewrite leb_spec. change (Prim2SF infinity) with (S754_infinity false).
  unfold Prim2SF. destruct (is_nan d); [reflexivity|].
  destruct (is_zero d); [reflexivity|].
  destruct (is_infinity d); [now destruct (get_sign d)|].
  destruct (Z.frexp d) as [r ex]. destruct (shr_fexp _ _ _ _ _) as [shr e'].
  destruct (shr_m shr); [reflexivity|now destruct (get_sign d)|reflexivity].
Qed.

Lemma valid_event_cell (event : Event) :
  isValidCoordinate (coordinates event) = true ->
  let row := (row_col infinity event).1 in
  let col := (row_col infinity event).2 in
  cell infinity event = (Text_integer 0, Text_integer 0)
  /\ (Text_integer 0, Text_integer 0) ∈ nearby_keys row col.
Proof.
  unfold isValidCoordinate. intros H.
  apply andb_prop in H as [H H4]. apply andb_prop in H as [H H3].
  apply andb_prop in H as [H1 H2].
  assert (Hlat : latitude (coordinates event) / infinity = 0
                 \/ latitude (coordinates event) / infinity = -0).
  { apply div_infinity. apply (within_range_finite _ (-90) 90); [| |assumption..].
    - now eexists _, _, _.
    - now eexists _, _, _. }
  assert (Hlon : longitude (coordinates event) / infinity = 0
                 \/ longitude (coordinates event) / infinity = -0).
  { apply div_infinity. apply (within_range_finite _ (-180) 180); [| |assumption..].
    - now eexists _, _, _.
    - now eexists _, _, _. }
  unfold cell, row_col. cbn [fst snd].
  destruct Hlat as [-> | ->], Hlon as [-> | ->];
    (split; [reflexivity|]); unfold nearby_keys; cbn; rewrite !elem_of_cons; tauto.
Qed.

Lemma rtsc_total_lt (R : relation nat) (n : nat) :
  (forall a b, (a < b)%nat -> (b < n)%nat -> R a b) ->
  forall i j, (i < n)%nat -> (j < n)%nat -> rtsc R i j.
Proof.
  intros HR i j Hi Hj.
  destruct (Nat.lt_trichotomy i j) as [Hlt|[->|Hgt]].
  - apply rtsc_lr. auto.
  - reflexivity.
  - apply rtsc_rl. auto.
Qed.

(** X4. The radius [Infinity], on binary64 numbers and for every engine:
    the grid keeps no two valid events apart, and two of them end in one
    set exactly when a chain of pairs whose distance is a number and not
    NaN connects them.  When no distance is NaN, all valid events are in
    one set. *)
Theorem clusterEvents_unions_infinite_radius (engine : Engine) (validEvents : list Event) :
  Forall (fun event => isValidCoordinate (coordinates event) = true) validEvents ->
  exists uf,
    clusterEvents_unions engine validEvents infinity = Some uf
    /\ (forall a b, (a < length validEvents)%nat -> (b < length validEvents)%nat ->
         (same_set uf a b <-> rtsc (measured engine validEvents) a b))
    /\ ((forall ea eb, ea ∈ validEvents -> eb ∈ validEvents ->
           is_nan (calculateDistance engine (coordinates ea) (coordinates eb)) = false) ->
        forall a b, (a < length validEvents)%nat -> (b < length validEvents)%nat ->
          same_set uf a b).
Proof.
  intros Hvalid.
  destruct (binary64_unions_linked engine validEvents infinity)
    as (uf & Hrun & _ & _ & Hlinked).
  assert (Hsame : forall a b,
            (a < length validEvents)%nat -> (b < length validEvents)%nat ->
            (same_set uf a b <-> rtsc (neighbours engine infinity validEvents) a b)).
  { intros a b Ha Hb. rewrite (Hlinked a b Ha Hb).
    apply rtsc_iff. intros x y. apply binary64_merged_pairs_elem. }
  exists uf. split; [assumption|].
  assert (Hnb : forall a b,
            neighbours engine infinity validEvents a b <-> measured engine validEvents a b).
  { intros a b. unfold neighbours, measured. split.
    - intros (Hlt & ea & eb & Hea & Heb & _ & Hw). split; [assumption|].
      exists ea, eb. split; [assumption|]. split; [assumption|].
      unfold within in Hw. rewrite leb_infinity in Hw. now apply negb_true_iff in Hw.
    - intros (Hlt & ea & eb & Hea & Heb & Hd). split; [assumption|].
      exists ea, eb. split; [assumption|]. split; [assumption|].
      rewrite Forall_forall in Hvalid.
      assert (Ha : isValidCoordinate (coordinates ea) = true)
        by (apply Hvalid; eapply list_elem_of_lookup_2; eassumption).
      assert (Hb : isValidCoordinate (coordinates eb) = true)
        by (apply Hvalid; eapply list_elem_of_lookup_2; eassumption).
      change (degreesPerCell infinity) with infinity. split.
      + destruct (valid_event_cell eb Hb) as [-> _].
        now destruct (valid_event_cell ea Ha) as [_ ?].
      + unfold within. rewrite leb_infinity, Hd. reflexivity. }
  pose proof (rtsc_iff _ _ Hnb) as Hchain.
  split.
  - intros a b Ha Hb. rewrite (Hsame a b Ha Hb). apply Hchain.
  - intros Hnum a b Ha Hb. apply (Hsame a b Ha Hb), Hchain.
    apply (rtsc_total_lt _ (length validEvents)); [|assumption..].
    intros x y Hxy Hy. split; [assumption|].
    destruct (lookup_lt_is_Some_2 validEvents x) as [ex Hex]; [lia|].
    destruct (lookup_lt_is_Some_2 validEvents y) as [ey Hey]; [lia|].
    exists ex, ey. split; [assumption|]. split; [assumption|].
    apply Hnum; eapply list_elem_of_lookup_2; eassumption.
Qed.

Lemma clusterEvents_unions_infinite_radius_witness :
  exists uf,
    clusterEvents_unions table_engine twin_events infinity = Some uf
    /\ forall a b, (a < 3)%nat -> (b < 3)%nat ->
         (same_set uf a b <-> rtsc (measured table_engine twin_events) a b).
Proof.
  destruct (clusterEvents_unions_infinite_radius table_engine twin_events)
    as (uf & Hrun & Hsame & _).
  - repeat constructor.
  - exists uf. split; [exact Hrun|exact Hsame].
Defined.

Lemma binary64_createGridIndex_nonempty (events : list Event) (radius : float)
    (key : Text * Text) (l : list nat) :
  (createGridIndex events radius).1 !! key = Some l -> l ≠ [].
Proof.
  unfold createGridIndex. cbn [fst]. fold (degreesPerCell radius).
  set (dpc := degreesPerCell radius).
  revert key l. induction events as [|x events IH] using rev_ind; intros key l.
  - simpl. now rewrite lookup_empty.
  - assert (Himap : imap pair (events ++ [x]) = imap pair events ++ [(length events, x)]).
    { rewrite imap_app. simpl. now rewrite Nat.add_0_r. }
    rewrite Himap, foldl_snoc. set (grid := foldl _ _ _) in *.
    set (c := cell dpc x).
    assert (Hins : grid_insert dpc grid (length events, x)
                   = <[c := default [] ((if decide (is_Some (grid !! c)) then grid
                                         else <[c := []]> grid) !! c)
                             ++ [length events]]>
                       (if decide (is_Some (grid !! c)) then grid else <[c := []]> grid))
      by reflexivity.
    rewrite Hins. clear Hins.
    destruct (decide (key = c)) as [->|Hne].
    + rewrite lookup_insert_eq. intros [= <-]. now destruct (default [] _).
    + rewrite lookup_insert_ne by congruence.
      destruct (decide (is_Some (grid !! c))) as [_|_].
      * apply IH.
      * rewrite lookup_insert_ne by congruence. apply IH.
Qed.

Lemma binary64_createGridIndex_lookup (events : list Event) (radius : float)
    (key : Text * Text) :
  default [] ((createGridIndex events radius).1 !! key)
  = cell_members (degreesPerCell radius) events key.
Proof.
  unfold createGridIndex, cell_members. cbn [fst]. fold (degreesPerCell radius).
  set (dpc := degreesPerCell radius).
  induction events as [|x events IH] using rev_ind.
  - simpl. now rewrite lookup_empty.
  - assert (Himap : imap pair (events ++ [x]) = imap pair events ++ [(length events, x)]).
    { rewrite imap_app. simpl. now rewrite Nat.add_0_r. }
    rewrite Himap, foldl_snoc, binary64_grid_insert_lookup, IH.
    rewrite length_app. simpl. rewrite seq_app, filter_app. simpl. f_equal.
    + apply filter_ext_in. intros j Hj. apply elem_of_seq in Hj.
      rewrite lookup_app_l by lia. reflexivity.
    + rewrite filter_cons, filter_nil.
      rewrite lookup_app_r by lia. rewrite Nat.sub_diag. simpl.
      destruct (decide (key = cell dpc x)) as [->|Hne].
      * now rewrite decide_True.
      * rewrite decide_False; [reflexivity|congruence].
Qed.

Lemma binary64_createGridIndex_disjoint (events : list Event) (radius : float) :
  grid_disjoint (createGridIndex events radius).1.
Proof.
  split.
  - intros key members Hkey.
    pose proof (binary64_createGridIndex_lookup events radius key) as Hl.
    rewrite Hkey in Hl. simpl in Hl. subst members.
    apply NoDup_filter, NoDup_seq.
  - intros key key' members members' j Hk Hk' Hj Hj'.
    assert (H1 : j ∈ default [] ((createGridIndex events radius).1 !! key))
      by now rewrite Hk.
    assert (H2 : j ∈ default [] ((createGridIndex events radius).1 !! key'))
      by now rewrite Hk'.
    apply binary64_createGridIndex_elem in H1 as (e1 & He1 & <-).
    apply binary64_createGridIndex_elem in H2 as (e2 & He2 & <-). congruence.
Qed.

(** X7. The grid of [createGridIndex], on binary64 numbers, its cells
    [radiusInMeters * (360 / 40075000)] degrees wide: under the key of a
    cell the grid lists the indices of the events whose row and column
    print that key, in increasing order, and a key without such an event
    is absent; no index is listed twice.  With the radius [Infinity] and
    events that pass [isValidCoordinate], the grid is one cell, (0, 0),
    that lists every index. *)
Theorem createGridIndex_rounded_cells (events : list Event) (radiusInMeters : float) :
  let grid := (createGridIndex events radiusInMeters).1 in
  let width := radiusInMeters * (360 / 40075000) in
  (forall key,
     grid !! key
     = if decide (cell_members width events key = []) then None
       else Some (cell_members width events key))
  /\ grid_disjoint grid
  /\ (radiusInMeters = infinity ->
      Forall (fun event => isValidCoordinate (coordinates event) = true) events ->
      events ≠ [] ->
      grid = {[ (Text_integer 0, Text_integer 0) := seq 0 (length events) ]}).
Proof.
  intros grid width.
  assert (Hkey : forall key,
            grid !! key
            = if decide (cell_members width events key = []) then None
              else Some (cell_members width events key)).
  { intros key. change width with (degreesPerCell radiusInMeters).
    pose proof (binary64_createGridIndex_lookup events radiusInMeters key) as Hl.
    fold grid in Hl. rewrite <- Hl.
    destruct (grid !! key) as [l|] eqn:Hk; [|reflexivity].
    cbn [default]. rewrite decide_False; [reflexivity|].
    eapply binary64_createGridIndex_nonempty. exact Hk. }
  split; [exact Hkey|].
  split; [apply binary64_createGridIndex_disjoint|].
  intros Hinf Hvalid Hne. apply map_eq. intros key. rewrite Hkey.
  assert (Hwidth : width = infinity) by (unfold width; rewrite Hinf; reflexivity).
  rewrite Hwidth. clear Hwidth Hkey.
  assert (Hcell : forall j, j ∈ seq 0 (length events) ->
            cell infinity <$> events !! j = Some (Text_integer 0, Text_integer 0)).
  { intros j Hj%elem_of_seq.
    destruct (lookup_lt_is_Some_2 events j) as [e He]; [lia|]. rewrite He. simpl.
    rewrite Forall_forall in Hvalid.
    destruct (valid_event_cell e) as [-> _]; [|reflexivity].
    apply Hvalid. eapply list_elem_of_lookup_2. exact He. }
  unfold cell_members.
  destruct (decide (key = (Text_integer 0, Text_integer 0))) as [->|Hk].
  - rewrite lookup_singleton_eq. rewrite (filter_all _ _ Hcell).
    rewrite decide_False; [reflexivity|]. destruct events; [contradiction|discriminate].
  - rewrite lookup_singleton_ne by congruence.
    rewrite decide_True; [reflexivity|].
    apply filter_none. intros j Hj Heq. rewrite (Hcell j Hj) in Heq. congruence.
Qed.

End Loops.

(** ** Ranks *)

Lemma chain_last p x r l : chain p x r l -> r ∈ l.
Proof. induction 1; [now left|now right]. Qed.

Lemma chain_first p x r l : chain p x r l -> x ∈ l.
Proof. destruct 1; now left. Qed.

(** What [find] writes: every cell of the chain points to the root
    afterwards, and no other cell changes. *)
Lemma find_rec_lookup p x r l fuel :
  chain p x r l -> length l <= fuel ->
  exists p', find_rec fuel p x = Some (p', r)
             /\ length p' = length p
             /\ forall z, p' !! z = if decide (z ∈ l) then Some r else p !! z.
Proof.
  intros H. revert fuel. induction H as [x Hx|x y r l Hx Hne H IH]; intros fuel Hfuel.
  - destruct fuel as [|fuel]; [simpl in Hfuel; lia|]. simpl. rewrite Hx.
    rewrite decide_True by reflexivity. exists p. split; [reflexivity|].
    split; [reflexivity|]. intros z. destruct (decide (z ∈ [x])) as [Hz|_]; [|reflexivity].
    apply list_elem_of_singleton in Hz as ->. assumption.
  - destruct fuel as [|fuel]; [simpl in Hfuel; lia|]. simpl in *. rewrite Hx.
    rewrite decide_False by assumption.
    destruct (IH fuel) as (p1 & -> & Hlen & Hlook); [lia|].
    exists (<[x := r]> p1). split; [reflexivity|]. split; [now rewrite length_insert|].
    intros z. destruct (decide (z = x)) as [->|Hzx].
    + rewrite decide_True by now left. apply list_lookup_insert_eq.
      rewrite Hlen. eapply lookup_lt_Some; eassumption.
    + rewrite list_lookup_insert_ne by congruence. rewrite Hlook.
      destruct (decide (z ∈ l)) as [Hz|Hz].
      * rewrite decide_True by now right. reflexivity.
      * rewrite decide_False; [reflexivity|].
        intros [->|Hz']%elem_of_cons; [congruence|contradiction].
Qed.

Lemma find_lookup uf x :
  forest (parent uf) -> x < length (parent uf) ->
  exists uf' r l,
    find uf x = Some (uf', r) /\ chain (parent uf) x r l
    /\ rank uf' = rank uf /\ length (parent uf') = length (parent uf)
    /\ forall z, parent uf' !! z = if decide (z ∈ l) then Some r else parent uf !! z.
Proof.
  intros Hf Hx. destruct (Hf x Hx) as [r Hr].
  destruct (root_of_chain _ _ _ Hr) as [l Hl].
  destruct (find_rec_lookup _ _ _ _ (length (parent uf)) Hl) as (p' & Hfind & Hlen & Hlook).
  { eapply chain_length; eassumption. }
  exists {| parent := p'; rank := rank uf |}, r, l. unfold find. rewrite Hfind. auto.
Qed.

Lemma find_again uf x uf' r :
  forest (parent uf) -> x < length (parent uf) ->
  find uf x = Some (uf', r) -> find uf' x = Some (uf', r).
Proof.
  intros Hf Hx Hfind.
  destruct (find_lookup uf x Hf Hx) as (uf1 & r1 & l & Hfind1 & Hl & Hrk & Hlen & Hlook).
  rewrite Hfind in Hfind1. injection Hfind1 as <- <-.
  assert (Hpx : parent uf' !! x = Some r).
  { rewrite Hlook, decide_True; [reflexivity|eapply chain_first; eassumption]. }
  assert (Hpr : parent uf' !! r = Some r).
  { rewrite Hlook, decide_True; [reflexivity|eapply chain_last; eassumption]. }
  assert (Hr : r < length (parent uf')) by (eapply lookup_lt_Some; eassumption).
  unfold find. destruct uf' as [p' rk']. simpl in *.
  destruct (length p') as [|[|n]] eqn:Hn; [lia| |].
  - assert (x = 0 /\ r = 0) as [-> ->] by lia. simpl. rewrite Hpr.
    now rewrite decide_True.
  - simpl. rewrite Hpx. destruct (decide (r = x)) as [->|Hne]; [reflexivity|].
    rewrite Hpr, decide_True by reflexivity.
    now rewrite list_insert_id.
Qed.

Lemma root_of_rank uf x r :
  ranked uf -> root_of (parent uf) x r -> x ≠ r -> rank_of uf x < rank_of uf r.
Proof.
  intros Hrk H. induction H as [x Hx|x y r Hx Hne H IH]; intros Hxr; [congruence|].
  pose proof (rk_edge uf Hrk x y Hx Hne) as Hlt.
  destruct (decide (y = r)) as [->|Hyr]; [assumption|].
  specialize (IH Hyr). lia.
Qed.

Lemma chain_rank uf x r l :
  ranked uf -> chain (parent uf) x r l -> rank_of uf x + length l <= S (rank_of uf r).
Proof.
  intros Hrk H. induction H as [x Hx|x y r l Hx Hne H IH]; simpl; [lia|].
  pose proof (rk_edge uf Hrk x y Hx Hne) as Hlt. lia.
Qed.

Lemma UnionFind_new_rank size x : rank_of (UnionFind_new size) x = 0.
Proof.
  unfold rank_of, UnionFind_new. simpl.
  destruct (replicate size 0 !! x) as [k|] eqn:Hk; [|reflexivity].
  now apply lookup_replicate in Hk as [-> _].
Qed.

Lemma UnionFind_new_ranked size : ranked (UnionFind_new size).
Proof.
  split.
  - rewrite UnionFind_new_length. unfold UnionFind_new. simpl. apply length_replicate.
  - intros x y Hx Hne. pose proof (lookup_lt_Some _ _ _ Hx) as Hlt.
    rewrite UnionFind_new_length in Hlt. rewrite UnionFind_new_parent in Hx by assumption.
    congruence.
  - intros r Hr. exists [r]. split; [apply NoDup_singleton|]. split.
    + intros x ->%list_elem_of_singleton. now constructor.
    + rewrite UnionFind_new_rank. simpl. lia.
Qed.

Lemma find_ranked uf x uf' r :
  forest (parent uf) -> x < length (parent uf) -> ranked uf ->
  find uf x = Some (uf', r) -> ranked uf'.
Proof.
  intros Hf Hx Hrk Hfind.
  destruct (find_lookup uf x Hf Hx) as (uf1 & r1 & l & Hfind1 & Hl & Hrank & Hlen & Hlook).
  rewrite Hfind in Hfind1. injection Hfind1 as <- <-.
  destruct (find_spec uf x Hf Hx) as (uf2 & r2 & Hfind2 & _ & _ & _ & _ & Hroots).
  rewrite Hfind in Hfind2. injection Hfind2 as <- <-.
  assert (Hsame : forall z, rank_of uf' z = rank_of uf z).
  { intros z. unfold rank_of. now rewrite Hrank. }
  assert (Hedge : forall z y, parent uf' !! z = Some y ->
                    parent uf !! z = Some y \/ (root_of (parent uf) z y)).
  { intros z y Hz. rewrite Hlook in Hz. destruct (decide (z ∈ l)) as [Hin|_]; [|auto].
    injection Hz as <-. right.
    destruct (chain_from _ _ _ _ _ Hl Hin) as (l' & Hl' & _).
    eapply chain_root_of; eassumption. }
  split.
  - rewrite Hrank, Hlen. apply Hrk.
  - intros z y Hz Hne. rewrite !Hsame. destruct (Hedge z y Hz) as [Hold|Hroot].
    + now apply (rk_edge uf Hrk).
    + apply root_of_rank; [assumption|assumption|congruence].
  - intros s Hs.
    assert (Hs' : parent uf !! s = Some s).
    { destruct (Hedge s s Hs) as [Hold|Hroot]; [assumption|].
      eapply root_of_is_root; eassumption. }
    destruct (rk_size uf Hrk s Hs') as (ls & Hnd & Hmem & Hsize).
    exists ls. split; [assumption|]. split.
    + intros z Hz. apply Hroots. auto.
    + now rewrite Hsame.
Qed.

(** Linking the root [sub] under the root [top], with the ranks [rk']. *)
Lemma link_ranked uf sub top (rk' : list nat) :
  ranked uf -> forest (parent uf) ->
  parent uf !! sub = Some sub -> parent uf !! top = Some top -> sub ≠ top ->
  length rk' = length (rank uf) ->
  (forall z, z ≠ top -> default 0 (rk' !! z) = rank_of uf z) ->
  rank_of uf top <= default 0 (rk' !! top) ->
  rank_of uf sub < default 0 (rk' !! top) ->
  2 ^ default 0 (rk' !! top) <= 2 ^ rank_of uf top + 2 ^ rank_of uf sub ->
  ranked {| parent := <[sub := top]> (parent uf); rank := rk' |}.
Proof.
  intros Hrk Hf Hsub Htop Hne Hlen Hother Hmono Hlt Hpow.
  split; simpl.
  - rewrite length_insert, Hlen. apply Hrk.
  - intros z y Hz Hzy. unfold rank_of. simpl.
    destruct (decide (z = sub)) as [->|Hzs].
    + rewrite list_lookup_insert_eq in Hz by (eapply lookup_lt_Some; eassumption).
      injection Hz as <-. rewrite (Hother sub) by assumption. assumption.
    + rewrite list_lookup_insert_ne in Hz by congruence.
      assert (z ≠ top) by congruence.
      rewrite (Hother z) by assumption.
      pose proof (rk_edge uf Hrk z y Hz Hzy) as Hold.
      destruct (decide (y = top)) as [->|Hyt]; [lia|].
      now rewrite (Hother y).
  - intros r Hr. unfold rank_of. simpl.
    assert (Hrs : r ≠ sub).
    { intros ->. rewrite list_lookup_insert_eq in Hr
        by (eapply lookup_lt_Some; eassumption). congruence. }
    rewrite list_lookup_insert_ne in Hr by congruence.
    destruct (rk_size uf Hrk r Hr) as (lr & Hnd & Hmem & Hsize).
    destruct (decide (r = top)) as [->|Hrt].
    + destruct (rk_size uf Hrk sub Hsub) as (ls & Hnds & Hmems & Hsizes).
      exists (lr ++ ls). split; [|split].
      * apply NoDup_app. split; [assumption|]. split; [|assumption].
        intros z Hz Hz'. apply Hne.
        eapply root_of_fun; [apply Hmems|apply Hmem]; eassumption.
      * intros z [Hz|Hz]%elem_of_app.
        -- pose proof (link_root_of _ sub top Hsub Htop Hne z top (Hmem z Hz)) as H.
           unfold relink in H. now rewrite decide_False in H by congruence.
        -- pose proof (link_root_of _ sub top Hsub Htop Hne z sub (Hmems z Hz)) as H.
           unfold relink in H. now rewrite decide_True in H by reflexivity.
      * rewrite length_app. lia.
    + exists lr. split; [assumption|]. split.
      * intros z Hz.
        pose proof (link_root_of _ sub top Hsub Htop Hne z r (Hmem z Hz)) as H.
        unfold relink in H. now rewrite decide_False in H by congruence.
      * now rewrite (Hother r).
Qed.

Lemma union_ranked uf x y uf' :
  forest (parent uf) -> x < length (parent uf) -> y < length (parent uf) ->
  ranked uf -> union uf x y = Some uf' -> ranked uf'.
Proof.
  intros Hf Hx Hy Hrk Hun.
  destruct (find_spec uf x Hf Hx) as (uf1 & rx & Hfx & Hrx & Hrk1 & Hlen1 & Hf1 & Hroots1).
  pose proof (find_ranked uf x uf1 rx Hf Hx Hrk Hfx) as Hr1.
  rewrite <- Hlen1 in Hy.
  destruct (find_spec uf1 y Hf1 Hy) as (uf2 & ry & Hfy & Hry & Hrk2 & Hlen2 & Hf2 & Hroots2).
  pose proof (find_ranked uf1 y uf2 ry Hf1 Hy Hr1 Hfy) as Hr2.
  assert (Hrx2 : parent uf2 !! rx = Some rx).
  { apply Hroots1, Hroots2 in Hrx. now apply root_of_is_root in Hrx. }
  assert (Hry2 : parent uf2 !! ry = Some ry).
  { apply Hroots2 in Hry. now apply root_of_is_root in Hry. }
  unfold union in Hun. rewrite Hfx, Hfy in Hun.
  destruct (decide (rx = ry)) as [Heq|Hne]; [now injection Hun as <-|].
  fold (rank_of uf2 rx) in Hun. fold (rank_of uf2 ry) in Hun.
  destruct (rank_of uf2 rx <? rank_of uf2 ry) eqn:Hxy;
    [|destruct (rank_of uf2 ry <? rank_of uf2 rx) eqn:Hyx]; injection Hun as <-.
  - apply Nat.ltb_lt in Hxy.
    apply link_ranked;
      [assumption|assumption|assumption|assumption|congruence|reflexivity
      |reflexivity|unfold rank_of in *; lia..].
  - apply Nat.ltb_lt in Hyx.
    apply link_ranked;
      [assumption|assumption|assumption|assumption|congruence|reflexivity
      |reflexivity|unfold rank_of in *; lia..].
  - apply Nat.ltb_ge in Hxy, Hyx.
    assert (Hrxlt : rx < length (rank uf2)).
    { rewrite (rk_length uf2 Hr2). eapply lookup_lt_Some; eassumption. }
    apply link_ranked;
      [assumption|assumption|assumption|assumption|congruence| | | | |].
    + now rewrite length_insert.
    + intros z Hz. now rewrite list_lookup_insert_ne by congruence.
    + rewrite list_lookup_insert_eq by assumption. simpl. lia.
    + rewrite list_lookup_insert_eq by assumption. simpl. lia.
    + rewrite list_lookup_insert_eq by assumption. simpl.
      assert (rank_of uf2 ry = rank_of uf2 rx) as -> by lia. lia.
Qed.

Lemma uf_step_ranked uf o uf' :
  forest (parent uf) -> op_in_range (length (parent uf)) o -> ranked uf ->
  uf_step uf o = Some uf' -> ranked uf'.
Proof.
  intros Hf Ho Hrk Hstep. destruct o as [x|x y]; simpl in *.
  - destruct (find uf x) as [[uf1 r]|] eqn:Hfind; [|discriminate].
    simpl in Hstep. injection Hstep as <-.
    exact (find_ranked uf x uf1 r Hf Ho Hrk Hfind).
  - destruct Ho as [Hx Hy]. exact (union_ranked uf x y uf' Hf Hx Hy Hrk Hstep).
Qed.

Lemma uf_run_ranked uf ops uf' :
  forest (parent uf) -> Forall (op_in_range (length (parent uf))) ops -> ranked uf ->
  uf_run uf ops = Some uf' -> ranked uf'.
Proof.
  revert uf. induction ops as [|o ops IH]; intros uf Hf Hops Hrk Hrun; simpl in Hrun.
  - now injection Hrun as <-.
  - apply Forall_cons in Hops as [Ho Hops].
    destruct (uf_step_forest uf o Hf Ho) as (uf1 & Hstep & Hlen & Hf1).
    rewrite Hstep in Hrun. rewrite <- Hlen in Hops.
    apply (IH uf1 Hf1 Hops); [|exact Hrun].
    exact (uf_step_ranked uf o uf1 Hf Ho Hrk Hstep).
Qed.

Lemma uf_run_reachable n ops :
  Forall (op_in_range n) ops ->
  exists uf, uf_run (UnionFind_new n) ops = Some uf
             /\ length (parent uf) = n /\ forest (parent uf) /\ ranked uf.
Proof.
  intros Hops.
  destruct (uf_run_forest (UnionFind_new n) ops) as (uf & Hrun & Hlen & Hf).
  { apply UnionFind_new_forest. }
  { now rewrite UnionFind_new_length. }
  rewrite UnionFind_new_length in Hlen.
  exists uf. split; [assumption|]. split; [assumption|]. split; [assumption|].
  eapply uf_run_ranked; [apply UnionFind_new_forest| |apply UnionFind_new_ranked|exact Hrun].
  now rewrite UnionFind_new_length.
Qed.

Lemma NoDup_bounded_length (l : list nat) n :
  NoDup l -> (forall x, x ∈ l -> x < n) -> length l <= n.
Proof.
  intros Hnd Hlt. rewrite <- (length_seq n 0). apply submseteq_length.
  apply NoDup_submseteq; [assumption|].
  intros z Hz. apply elem_of_seq. specialize (Hlt z Hz). lia.
Qed.

Lemma ranked_root_bound uf r :
  ranked uf -> parent uf !! r = Some r -> 2 ^ rank_of uf r <= length (parent uf).
Proof.
  intros Hrk Hr. destruct (rk_size uf Hrk r Hr) as (l & Hnd & Hmem & Hsize).
  etransitivity; [exact Hsize|]. apply NoDup_bounded_length; [assumption|].
  intros x Hx. eapply root_of_lt. eauto.
Qed.

(** X9. Union by rank: from [new UnionFind(n)], after any sequence of
    [find] and [union] calls on indices below [n], the rank array has [n]
    cells and the rank grows along every parent pointer: a cell that is
    not a root has a rank below the rank of its parent. *)
Theorem UnionFind_rank_increases (n : nat) (ops : list UFOp) :
  Forall (op_in_range n) ops ->
  exists uf,
    uf_run (UnionFind_new n) ops = Some uf
    /\ length (rank uf) = n
    /\ forall x y, parent uf !! x = Some y -> y ≠ x -> rank_of uf x < rank_of uf y.
Proof.
  intros Hops. destruct (uf_run_reachable n ops Hops) as (uf & Hrun & Hlen & Hf & Hrk).
  exists uf. split; [assumption|]. split; [|apply Hrk].
  now rewrite (rk_length uf Hrk).
Qed.

Lemma UnionFind_rank_increases_witness :
  exists uf,
    uf_run (UnionFind_new 4) [OpUnion 0 1; OpUnion 2 3; OpFind 1; OpUnion 1 3; OpFind 3]
    = Some uf
    /\ length (rank uf) = 4.
Proof.
  destruct (UnionFind_rank_increases 4
              [OpUnion 0 1; OpUnion 2 3; OpFind 1; OpUnion 1 3; OpFind 3])
    as (uf & Hrun & Hlen & _).
  { repeat constructor; simpl; lia. }
  now exists uf.
Defined.

(** X10. Union by rank keeps the trees shallow: after any sequence of
    [find] and [union] calls on indices below [n], [2 ^ rank[x] <= n] for
    every cell, and a chain of parent pointers that visits [k + 1] cells
    needs [2 ^ k <= n]: a [find] nests at most [log2 n + 1] calls. *)
Theorem UnionFind_logarithmic_depth (n : nat) (ops : list UFOp) :
  Forall (op_in_range n) ops ->
  exists uf,
    uf_run (UnionFind_new n) ops = Some uf
    /\ (forall x, x < n -> 2 ^ rank_of uf x <= n)
    /\ forall x r l, chain (parent uf) x r l -> 2 ^ (length l - 1) <= n.
Proof.
  intros Hops. destruct (uf_run_reachable n ops Hops) as (uf & Hrun & Hlen & Hf & Hrk).
  exists uf. split; [assumption|].
  assert (Hroot : forall r, parent uf !! r = Some r -> 2 ^ rank_of uf r <= n).
  { intros r Hr. rewrite <- Hlen. now apply ranked_root_bound. }
  split.
  - intros x Hx. rewrite <- Hlen in Hx. destruct (Hf x Hx) as [r Hr].
    pose proof (Hroot r (root_of_is_root _ _ _ Hr)) as Hb.
    destruct (decide (x = r)) as [->|Hne]; [assumption|].
    pose proof (root_of_rank uf x r Hrk Hr Hne).
    etransitivity; [|exact Hb]. apply Nat.pow_le_mono_r; lia.
  - intros x r l Hl.
    pose proof (chain_rank uf x r l Hrk Hl) as Hlenl.
    pose proof (Hroot r (root_of_is_root _ _ _ (chain_root_of _ _ _ _ Hl))) as Hb.
    etransitivity; [|exact Hb]. apply Nat.pow_le_mono_r; lia.
Qed.

Lemma UnionFind_logarithmic_depth_witness :
  exists uf,
    uf_run (UnionFind_new 4) [OpUnion 0 1; OpUnion 2 3; OpUnion 1 3] = Some uf
    /\ forall x, x < 4 -> 2 ^ rank_of uf x <= 4.
Proof.
  destruct (UnionFind_logarithmic_depth 4 [OpUnion 0 1; OpUnion 2 3; OpUnion 1 3])
    as (uf & Hrun & Hrank & _).
  { repeat constructor; simpl; lia. }
  now exists uf.
Defined.

(** X11. Path compression: [find x] returns the root of [x], leaves the
    ranks alone, makes every cell of the chain from [x] to the root point
    to the root and changes no other cell; a second [find x] returns the
    same root and changes nothing. *)
Theorem find_compresses_path (n : nat) (ops : list UFOp) (x : nat) :
  Forall (op_in_range n) ops -> x < n ->
  exists uf uf' r l,
    uf_run (UnionFind_new n) ops = Some uf
    /\ find uf x = Some (uf', r)
    /\ chain (parent uf) x r l
    /\ rank uf' = rank uf
    /\ (forall z, parent uf' !! z = if decide (z ∈ l) then Some r else parent uf !! z)
    /\ find uf' x = Some (uf', r).
Proof.
  intros Hops Hx. destruct (uf_run_reachable n ops Hops) as (uf & Hrun & Hlen & Hf & _).
  rewrite <- Hlen in Hx.
  destruct (find_lookup uf x Hf Hx) as (uf' & r & l & Hfind & Hl & Hrank & _ & Hlook).
  exists uf, uf', r, l. repeat (split; [assumption|]).
  eapply find_again; eassumption.
Qed.

Lemma find_compresses_path_witness :
  exists uf uf' r,
    uf_run (UnionFind_new 4) [OpUnion 0 1; OpUnion 2 3; OpUnion 1 3] = Some uf
    /\ find uf 3 = Some (uf', r)
    /\ find uf' 3 = Some (uf', r).
Proof.
  destruct (find_compresses_path 4 [OpUnion 0 1; OpUnion 2 3; OpUnion 1 3] 3)
    as (uf & uf' & r & l & Hrun & Hfind & _ & _ & _ & Hagain).
  { repeat constructor; simpl; lia. }
  { lia. }
  now exists uf, uf', r.
Defined.

(** ** The cache, read and written *)

Section LRUCacheUse.
Context {K V : Type} `{EqDecision K}.
Implicit Types (m : list (K * V)) (c : LRUCache K V) (o : LRUOp K V).
Implicit Types (history ops : list (LRUOp K V)).

Lemma Map_get_absent m k : k ∉ m.*1 -> Map_get m k = None.
Proof.
  unfold Map_get. induction m as [|[a v] m IH]; [reflexivity|].
  rewrite fmap_cons, not_elem_of_cons. simpl. intros [Hne Hni].
  rewrite filter_cons_False by (simpl; congruence). auto.
Qed.

Lemma Map_get_app m m' k :
  Map_get (m ++ m') k = match Map_get m k with Some v => Some v | None => Map_get m' k end.
Proof.
  unfold Map_get. rewrite filter_app.
  destruct (filter (fun e : K * V => e.1 = k) m) as [|e l]; reflexivity.
Qed.

Lemma Map_get_snoc m k v k' :
  k ∉ m.*1 ->
  Map_get (m ++ [(k, v)]) k' = if decide (k = k') then Some v else Map_get m k'.
Proof.
  intros Hk. rewrite Map_get_app. destruct (decide (k = k')) as [<-|Hne].
  - rewrite (Map_get_absent m k Hk). unfold Map_get.
    rewrite filter_cons_True by reflexivity. reflexivity.
  - destruct (Map_get m k'); [reflexivity|]. unfold Map_get.
    rewrite filter_cons_False by (simpl; congruence). reflexivity.
Qed.

Lemma Map_get_delete m k k' :
  Map_get (Map_delete m k) k' = if decide (k = k') then None else Map_get m k'.
Proof.
  destruct (decide (k = k')) as [<-|Hne].
  - apply Map_get_absent, Map_delete_absent.
  - unfold Map_get, Map_delete. f_equal. f_equal.
    rewrite list_filter_filter. apply filter_ext_in.
    intros [a v] _. simpl. split; [tauto|]. intros ->. split; [reflexivity|congruence].
Qed.

Lemma Map_get_Some m k v : Map_get m k = Some v -> k ∈ m.*1.
Proof.
  intros Hg. destruct (decide (k ∈ m.*1)) as [|Hn]; [assumption|].
  now rewrite Map_get_absent in Hg.
Qed.

(** What [get] answers is what the map holds. *)
Lemma LRUCache_get_result c k : (LRUCache_get c k).1 = Map_get (cache c) k.
Proof.
  unfold LRUCache_get. destruct (Map_has (cache c) k) eqn:Hhas; simpl; [reflexivity|].
  apply Map_has_false in Hhas. now rewrite Map_get_absent.
Qed.

Lemma LRUCache_get_cache c k :
  cache (LRUCache_get c k).2
  = match Map_get (cache c) k with
    | Some v => Map_delete (cache c) k ++ [(k, v)]
    | None => cache c
    end.
Proof.
  unfold LRUCache_get. destruct (Map_has (cache c) k) eqn:Hhas; simpl.
  - apply Map_has_true in Hhas. destruct (Map_get_present _ _ Hhas) as [v ->].
    apply Map_set_delete.
  - apply Map_has_false in Hhas. now rewrite Map_get_absent.
Qed.

Lemma kept_absent c k : k ∉ (kept c k).*1.
Proof.
  unfold kept. destruct (Map_has (cache c) k) eqn:Hhas.
  - apply Map_delete_absent.
  - apply Map_has_false in Hhas.
    destruct (capacity c <=? length (cache c)); [|assumption].
    destruct (cache c) as [|[k0 v0] rest]; [assumption|].
    rewrite Map_delete_keys, list_elem_of_filter. tauto.
Qed.

Lemma LRUCache_set_cache c k v :
  cache (LRUCache_set c k v) = kept c k ++ [(k, v)].
Proof.
  unfold LRUCache_set. cbn [cache]. fold (kept c k).
  apply Map_set_fresh, kept_absent.
Qed.

(** Where the entries of a cache come from. *)
Lemma Map_get_elem m k v : Map_get m k = Some v -> (k, v) ∈ m.
Proof.
  unfold Map_get. intros Hg.
  destruct (filter (fun e : K * V => e.1 = k) m) as [|[k' v'] l] eqn:Hf;
    [discriminate|].
  simpl in Hg. injection Hg as ->.
  assert (Hin : (k', v) ∈ filter (fun e : K * V => e.1 = k) m)
    by (rewrite Hf; now left).
  apply list_elem_of_filter in Hin as [Hk Hin]. simpl in Hk. now subst k'.
Qed.

Lemma Map_delete_elem m k e : e ∈ Map_delete m k -> e ∈ m.
Proof. unfold Map_delete. now intros [_ ?]%list_elem_of_filter. Qed.

Lemma LRUCache_get_elem c key e : e ∈ cache (LRUCache_get c key).2 -> e ∈ cache c.
Proof.
  rewrite LRUCache_get_cache. destruct (Map_get (cache c) key) as [v|] eqn:Hg; [|tauto].
  rewrite elem_of_app, list_elem_of_singleton.
  intros [Hd| ->]; [eapply Map_delete_elem; eassumption|now apply Map_get_elem].
Qed.

Lemma kept_elem c key e : e ∈ kept c key -> e ∈ cache c.
Proof.
  unfold kept. destruct (Map_has (cache c) key); [apply Map_delete_elem|].
  destruct (capacity c <=? length (cache c)); [|tauto].
  destruct (cache c) as [|[k0 v0] rest]; [tauto|apply Map_delete_elem].
Qed.

Lemma LRUCache_set_elem c key value e :
  e ∈ cache (LRUCache_set c key value) -> e = (key, value) \/ e ∈ cache c.
Proof.
  rewrite LRUCache_set_cache, elem_of_app, list_elem_of_singleton.
  intros [He| ->]; [right; eapply kept_elem; eassumption|now left].
Qed.

Lemma LRUCache_get_found c key v :
  (LRUCache_get c key).1 = Some v -> (key, v) ∈ cache c.
Proof. rewrite LRUCache_get_result. apply Map_get_elem. Qed.
Lemma lru_run_snoc cap ops o :
  lru_run cap (ops ++ [o]) = lru_step (lru_run cap ops) o.
Proof. unfold lru_run. apply foldl_snoc. Qed.

Lemma LRUCache_get_miss c key :
  key ∉ (cache c).*1 -> LRUCache_get c key = (None, c).
Proof.
  intros Hk. unfold LRUCache_get. apply Map_has_false in Hk. now rewrite Hk.
Qed.

Lemma LRUCache_get_None c key :
  (LRUCache_get c key).1 = None -> LRUCache_get c key = (None, c).
Proof.
  unfold LRUCache_get. destruct (Map_has (cache c) key) eqn:Hhas; [|reflexivity].
  apply Map_has_true, Map_get_present in Hhas as [v Hv]. simpl. congruence.
Qed.

Lemma LRUCache_set_hit c key value :
  (LRUCache_get (LRUCache_set c key value) key).1 = Some value.
Proof.
  rewrite LRUCache_get_result, LRUCache_set_cache, Map_get_snoc by apply kept_absent.
  now rewrite decide_True.
Qed.

(** X12. After [set(key, value)], [get(key)] returns [value], whatever
    the cache held and whatever its capacity.  A [set] changes the answer
    for another key in one case only: [key] was not in the cache, the
    cache was full, and the other key was its first entry, the least
    recently used one, which is no longer found. *)
Theorem LRUCache_set_then_get (c : LRUCache K V) (key : K) (value : V) :
  (LRUCache_get (LRUCache_set c key value) key).1 = Some value
  /\ forall other, other ≠ key ->
       (LRUCache_get (LRUCache_set c key value) other).1 = (LRUCache_get c other).1
       \/ ((LRUCache_get (LRUCache_set c key value) other).1 = None
           /\ Map_has (cache c) key = false
           /\ capacity c <= LRUCache_size c
           /\ head (cache c).*1 = Some other).
Proof.
  split; [apply LRUCache_set_hit|].
  intros other Hne.
  rewrite !LRUCache_get_result, LRUCache_set_cache, Map_get_snoc by apply kept_absent.
  rewrite decide_False by congruence. unfold kept, LRUCache_size.
  destruct (Map_has (cache c) key) eqn:Hhas.
  - left. rewrite Map_get_delete. now rewrite decide_False by congruence.
  - destruct (capacity c <=? length (cache c)) eqn:Hfull; [|now left].
    apply Nat.leb_le in Hfull.
    destruct (cache c) as [|[k0 v0] rest] eqn:Hc; [now left|].
    rewrite Map_get_delete. destruct (decide (k0 = other)) as [->|Hk0]; [|now left].
    right. auto.
Qed.

(** X13. A [get] changes no answer of the cache: after [get(key)], on a
    cache that calls of [get], [set] and [delete] built, every key is
    found with the value it had and the size is the same; a [get] that
    misses leaves the cache as it was. *)
Theorem LRUCache_get_keeps_contents (cap : nat) (ops : list (LRUOp K V)) (key : K) :
  let c := lru_run cap ops in
  (forall other, (LRUCache_get (LRUCache_get c key).2 other).1 = (LRUCache_get c other).1)
  /\ LRUCache_size (LRUCache_get c key).2 = LRUCache_size c
  /\ ((LRUCache_get c key).1 = None -> (LRUCache_get c key).2 = c).
Proof.
  intros c. split; [|split].
  - intros other. rewrite !LRUCache_get_result, LRUCache_get_cache.
    destruct (Map_get (cache c) key) as [v|] eqn:Hg; [|reflexivity].
    rewrite Map_get_snoc by apply Map_delete_absent. rewrite Map_get_delete.
    destruct (decide (key = other)) as [<-|_]; [now rewrite Hg|reflexivity].
  - unfold LRUCache_size. rewrite LRUCache_get_cache.
    destruct (Map_get (cache c) key) as [v|] eqn:Hg; [|reflexivity].
    apply Map_get_Some in Hg.
    destruct (lru_run_inv cap ops) as [Hnd _ _]. fold c in Hnd.
    rewrite length_app. simpl. rewrite <- !length_keys, Map_delete_keys.
    apply list_elem_of_split in Hg as (l1 & l2 & Hsplit). rewrite Hsplit in *.
    apply NoDup_app in Hnd as (_ & Hnot & Hnd2).
    apply NoDup_cons in Hnd2 as [Hk2 _].
    rewrite filter_app, filter_cons_False by tauto.
    rewrite !filter_all, !length_app; [simpl; lia| |].
    + intros x Hx ->. contradiction.
    + intros x Hx ->. apply (Hnot key Hx). now left.
  - rewrite LRUCache_get_result. intros Hg. unfold LRUCache_get.
    destruct (Map_has (cache c) key) eqn:Hhas; [|reflexivity].
    apply Map_has_true, Map_get_present in Hhas as [v Hv]. congruence.
Qed.

(** X14. [delete(key)] removes that key and no other: [key] is no longer
    found, every other key is found as before, and the deletion of a key
    that is not in the cache changes nothing.  [clear] leaves an empty
    cache of the same capacity. *)
Theorem LRUCache_delete_clear (c : LRUCache K V) (key : K) :
  (LRUCache_get (LRUCache_delete c key) key).1 = None
  /\ (forall other, other ≠ key ->
        (LRUCache_get (LRUCache_delete c key) other).1 = (LRUCache_get c other).1)
  /\ ((LRUCache_get c key).1 = None -> LRUCache_delete c key = c)
  /\ LRUCache_size (LRUCache_clear c) = 0
  /\ (forall k, (LRUCache_get (LRUCache_clear c) k).1 = None)
  /\ capacity (LRUCache_clear c) = capacity c.
Proof.
  split; [|split; [|split; [|split; [|split]]]].
  - rewrite LRUCache_get_result. simpl. rewrite Map_get_delete. now rewrite decide_True.
  - intros other Hne. rewrite !LRUCache_get_result. simpl.
    rewrite Map_get_delete. now rewrite decide_False by congruence.
  - rewrite LRUCache_get_result. intros Hg. unfold LRUCache_delete.
    rewrite Map_delete_id; [now destruct c|].
    intros Hin. apply Map_get_present in Hin as [v Hv]. congruence.
  - reflexivity.
  - intros k. reflexivity.
  - reflexivity.
Qed.

Lemma lru_step_get o c k v :
  Map_get (cache (lru_step c o)) k = Some v ->
  match o with
  | OpSet k' v' => if decide (k' = k) then v' = v else Map_get (cache c) k = Some v
  | OpDelete k' => k' ≠ k /\ Map_get (cache c) k = Some v
  | OpGet _ => Map_get (cache c) k = Some v
  end.
Proof.
  destruct o as [k'|k' v'|k']; cbn [lru_step].
  - rewrite LRUCache_get_cache.
    destruct (Map_get (cache c) k') as [w|] eqn:Hg; [|auto].
    rewrite Map_get_snoc by apply Map_delete_absent. rewrite Map_get_delete.
    destruct (decide (k' = k)) as [<-|_]; [congruence|auto].
  - rewrite LRUCache_set_cache, Map_get_snoc by apply kept_absent.
    destruct (decide (k' = k)) as [_|Hne]; [congruence|].
    unfold kept. destruct (Map_has (cache c) k').
    + rewrite Map_get_delete. now rewrite decide_False.
    + destruct (capacity c <=? length (cache c)); [|auto].
      destruct (cache c) as [|[k0 v0] rest]; [auto|].
      rewrite Map_get_delete. destruct (decide (k0 = k)); [discriminate|auto].
  - simpl. rewrite Map_get_delete. destruct (decide (k' = k)); [discriminate|auto].
Qed.

(** X15. The cache answers no stale value: when [get(key)] returns a
    value after a sequence of [get], [set] and [delete] calls, that value
    is the one of the latest [set(key, _)] of the sequence, and no
    [delete(key)] came after it. *)
Theorem LRUCache_returns_last_write (cap : nat) (ops : list (LRUOp K V))
    (key : K) (value : V) :
  (LRUCache_get (lru_run cap ops) key).1 = Some value ->
  last_write (rev ops) key = Some value.
Proof.
  rewrite LRUCache_get_result, lru_run_after.
  generalize (rev ops). clear ops. intros history. revert value.
  induction history as [|o history IH]; intros value; simpl.
  - discriminate.
  - intros Hg. apply lru_step_get in Hg. destruct o as [k'|k' v'|k'].
    + auto.
    + destruct (decide (k' = key)); [congruence|auto].
    + destruct Hg as [Hne Hg]. rewrite decide_False by assumption. auto.
Qed.

Lemma lru_step_capacity_0_1 (c0 c1 : LRUCache K V) o :
  cache c0 = cache c1 -> capacity c0 = 0 -> capacity c1 = 1 ->
  cache (lru_step c0 o) = cache (lru_step c1 o).
Proof.
  intros Hc H0 H1. destruct o as [k|k v|k]; cbn [lru_step].
  - rewrite !LRUCache_get_cache, Hc. reflexivity.
  - rewrite !LRUCache_set_cache. f_equal. unfold kept. rewrite Hc, H0, H1.
    destruct (Map_has (cache c1) k); [reflexivity|].
    destruct (cache c1) as [|[k0 v0] rest]; reflexivity.
  - simpl. now rewrite Hc.
Qed.

(** X16. A cache of capacity 0 is a cache of capacity 1: after the same
    calls the two hold the same entries; it holds up to one entry, not
    none. *)
Theorem LRUCache_capacity_zero (ops : list (LRUOp K V)) :
  cache (lru_run 0 ops) = cache (lru_run 1 ops)
  /\ LRUCache_size (lru_run 0 ops) <= 1.
Proof.
  assert (Heq : cache (lru_run 0 ops) = cache (lru_run 1 ops)).
  { rewrite !lru_run_after. induction (rev ops) as [|o history IH]; [reflexivity|].
    simpl. apply lru_step_capacity_0_1; [assumption|apply lru_after_capacity..]. }
  split; [assumption|]. unfold LRUCache_size. rewrite Heq.
  apply (lru_run_size 1 ops). lia.
Qed.

End LRUCacheUse.

Lemma LRUCache_returns_last_write_witness :
  last_write (rev [OpSet "a" 1; OpSet "b" 2; OpSet "a" 3; OpGet "b"]) "a" = Some 3.
Proof. apply (LRUCache_returns_last_write 2). vm_compute. reflexivity. Defined.

(** ** The geocoding service *)

Lemma lower_case_white_space c : is_white_space (lower_case c) = is_white_space c.
Proof. destruct c as [[] [] [] [] [] [] [] []]; reflexivity. Qed.

Lemma lower_case_idem c : lower_case (lower_case c) = lower_case c.
Proof. destruct c as [[] [] [] [] [] [] [] []]; reflexivity. Qed.

Lemma String_toLowerCase_idem s :
  String_toLowerCase (String_toLowerCase s) = String_toLowerCase s.
Proof. induction s as [|c s IH]; simpl; [reflexivity|]. now rewrite lower_case_idem, IH. Qed.

Lemma String_trimStart_lower s :
  String_trimStart (String_toLowerCase s) = String_toLowerCase (String_trimStart s).
Proof.
  induction s as [|c s IH]; simpl; [reflexivity|].
  rewrite lower_case_white_space. destruct (is_white_space c); [assumption|reflexivity].
Qed.

Lemma String_trimEnd_lower s :
  String_trimEnd (String_toLowerCase s) = String_toLowerCase (String_trimEnd s).
Proof.
  induction s as [|c s IH]; simpl; [reflexivity|].
  rewrite IH, lower_case_white_space.
  destruct (String_trimEnd s); simpl; [|reflexivity].
  destruct (is_white_space c); reflexivity.
Qed.

Lemma String_trim_lower s :
  String_trim (String_toLowerCase s) = String_toLowerCase (String_trim s).
Proof. unfold String_trim. now rewrite String_trimStart_lower, String_trimEnd_lower. Qed.

Lemma String_trimStart_idem s : String_trimStart (String_trimStart s) = String_trimStart s.
Proof.
  induction s as [|c s IH]; simpl; [reflexivity|].
  destruct (is_white_space c) eqn:Hc; [assumption|]. simpl. now rewrite Hc.
Qed.

Lemma String_trimEnd_idem s : String_trimEnd (String_trimEnd s) = String_trimEnd s.
Proof.
  induction s as [|c s IH]; simpl; [reflexivity|].
  destruct (String_trimEnd s) as [|c' t] eqn:Ht.
  - destruct (is_white_space c) eqn:Hc; [reflexivity|]. simpl. now rewrite Hc.
  - change (String_trimEnd (String c (String c' t))) with
      (match String_trimEnd (String c' t) with
       | EmptyString => if is_white_space c then EmptyString else String c EmptyString
       | trimmed => String c trimmed
       end).
    now rewrite IH.
Qed.

(** Trimming the end of a string that starts with no white space leaves
    a string that starts with no white space. *)
Lemma String_trimStart_trimEnd s :
  String_trimStart (String_trimEnd (String_trimStart s)) = String_trimEnd (String_trimStart s).
Proof.
  induction s as [|c s IH]; simpl; [reflexivity|].
  destruct (is_white_space c) eqn:Hc; [assumption|]. simpl.
  destruct (String_trimEnd s); rewrite ?Hc; simpl; now rewrite Hc.
Qed.

Lemma String_trim_idem s : String_trim (String_trim s) = String_trim s.
Proof.
  unfold String_trim. now rewrite String_trimStart_trimEnd, String_trimEnd_idem.
Qed.

Lemma String_trimStart_pad pad s :
  all_white_space pad = true -> String_trimStart (pad +:+ s) = String_trimStart s.
Proof.
  induction pad as [|c pad IH]; simpl; [reflexivity|].
  intros [Hc Hpad]%andb_prop. now rewrite Hc, IH.
Qed.

Lemma String_trimEnd_white pad : all_white_space pad = true -> String_trimEnd pad = "".
Proof.
  induction pad as [|c pad IH]; simpl; [reflexivity|].
  intros [Hc Hpad]%andb_prop. now rewrite IH, Hc.
Qed.

Lemma String_trimEnd_pad s pad :
  all_white_space pad = true -> String_trimEnd (s +:+ pad) = String_trimEnd s.
Proof.
  intros Hpad. induction s as [|c s IH]; simpl.
  - now apply String_trimEnd_white.
  - now rewrite IH.
Qed.

Lemma String_trimStart_app s pad :
  String_trimStart s ≠ "" -> String_trimStart (s +:+ pad) = String_trimStart s +:+ pad.
Proof.
  induction s as [|c s IH]; simpl; [congruence|].
  destruct (is_white_space c); [assumption|reflexivity].
Qed.

Lemma String_trim_pad pad1 s pad2 :
  all_white_space pad1 = true -> all_white_space pad2 = true ->
  String_trim (pad1 +:+ s +:+ pad2) = String_trim s.
Proof.
  intros H1 H2. unfold String_trim. rewrite String_trimStart_pad by assumption.
  destruct (String_trimStart s) as [|c t] eqn:Hs.
  - assert (Hall : forall u, String_trimStart u = "" -> all_white_space u = true).
    { induction u as [|c u IH]; simpl; [reflexivity|].
      destruct (is_white_space c); [assumption|discriminate]. }
    assert (Hs2 : all_white_space (s +:+ pad2) = true).
    { specialize (Hall s Hs). clear Hs. induction s as [|c s IH]; simpl in *; [assumption|].
      apply andb_prop in Hall as [-> Hall]. simpl. auto. }
    assert (Hnil : forall u, all_white_space u = true -> String_trimStart u = "").
    { induction u as [|c u IH]; simpl; [reflexivity|].
      intros [-> Hu]%andb_prop. auto. }
    now rewrite (Hnil _ Hs2).
  - rewrite String_trimStart_app by congruence. rewrite Hs.
    now apply String_trimEnd_pad.
Qed.

Lemma spread_alloc h props : spread (h ++ [HObj props]) (VRef (length h)) = props.
Proof. simpl. now rewrite list_lookup_middle. Qed.

Lemma spread_app h ext v : closed_value h v -> spread (h ++ ext) v = spread h v.
Proof. destruct v; simpl; try reflexivity. intros Hl. now rewrite lookup_app_l. Qed.

Lemma geo_object_app P h ext v : geo_object P h v -> geo_object P (h ++ ext) v.
Proof.
  intros (l & lat & lon & -> & Hl & HP). exists l, lat, lon.
  split; [reflexivity|]. split; [|assumption]. now apply lookup_app_l_Some.
Qed.

Lemma geo_object_lt P h l : geo_object P h (VRef l) -> l < length h.
Proof. intros (l' & lat & lon & [= <-] & Hl & _). eapply lookup_lt_Some; eassumption. Qed.

Lemma geo_object_spread P h v :
  geo_object P h v -> truthy v = true /\ geo_object P (h ++ [HObj (spread h v)]) (VRef (length h)).
Proof.
  intros (l & lat & lon & -> & Hl & HP). split; [reflexivity|].
  exists (length h), lat, lon. split; [reflexivity|]. split; [|assumption].
  simpl. rewrite Hl. now rewrite list_lookup_middle.
Qed.

Lemma performGeocoding_object P h key random1 random2 :
  key ≠ "" -> P (mock_latitude random1) (mock_longitude random2) ->
  performGeocoding h (VStr key) random1 random2
  = (h ++ [coordinates_object (mock_latitude random1) (mock_longitude random2)],
     VRef (length h))
  /\ geo_object P
       (h ++ [coordinates_object (mock_latitude random1) (mock_longitude random2)])
       (VRef (length h)).
Proof.
  intros Hkey HP. split.
  - unfold performGeocoding. simpl. destruct (String.eqb key "") eqn:He.
    + apply String.eqb_eq in He. contradiction.
    + reflexivity.
  - eexists _, _, _. split; [reflexivity|]. split; [|exact HP].
    now rewrite list_lookup_middle.
Qed.

Lemma performGeocoding_blank h random1 random2 :
  performGeocoding h (VStr "") random1 random2 = (h, VNull).
Proof. reflexivity. Qed.

Lemma geo_inv_new P h capacity : geo_inv P h (geo_new h capacity).
Proof.
  split; simpl.
  - exists []. now rewrite app_nil_r.
  - intros k v Hin. inversion Hin.
  - intros p Hin. inversion Hin.
  - intros v Hin. inversion Hin.
  - intros k v Hin. inversion Hin.
  - intros k v p Hin. inversion Hin.
Qed.

(** The invariant after a step that allocates [obj] and leaves a cache, a
    list of suspended calls and a list of results that hold what they held
    before, or fresh objects. *)
Lemma geo_inv_alloc P h0 st obj c' pending' results' failures' :
  geo_inv P h0 st ->
  (forall e, e ∈ cache c' -> e ∈ cache (geo_cache st) \/
     (e.1 ≠ "" /\ geo_object P (geo_heap st ++ obj) e.2
      /\ (exists l, e.2 = VRef l /\ length (geo_heap st) <= l))) ->
  (forall p, p ∈ pending' -> p ∈ geo_pending st
     \/ (pend_promise p = Fulfilled VNull /\ pend_normalizedLocation p = "")
     \/ exists l, pend_promise p = Fulfilled (VRef l)
          /\ (forall k, (k, VRef l) ∉ cache c')
          /\ pend_normalizedLocation p ≠ "" /\ geo_object P (geo_heap st ++ obj) (VRef l)) ->
  (forall v, v ∈ results' -> v ∈ geo_results st \/ v = VNull \/
     (geo_object P (geo_heap st ++ obj) v /\ forall k, (k, v) ∉ cache c')) ->
  geo_inv P h0 {| geo_heap := geo_heap st ++ obj; geo_cache := c';
                  geo_pending := pending'; geo_results := results';
                  geo_failures := failures' |}.
Proof.
  intros [Hheap Hcache Hpend Hres Hpr Hpp] Hc' Hp' Hr'. split; simpl.
  - destruct Hheap as [ext ->]. exists (ext ++ obj). now rewrite app_assoc.
  - intros k v Hin. destruct (Hc' _ Hin) as [Hold|(Hk & Hobj & l & Hl & Hge)].
    + destruct (Hcache k v Hold) as (Hk & Hobj & Hl). split; [assumption|].
      split; [now apply geo_object_app|assumption].
    + simpl in *. split; [assumption|]. split; [assumption|].
      exists l. split; [assumption|]. destruct Hheap as [ext Hext].
      rewrite Hext, length_app in Hge. lia.
  - intros p Hin. destruct (Hp' _ Hin) as [Hold|[[Hnull Hk]|(l & Hl & _ & Hk & Hobj)]].
    + destruct (Hpend p Hold) as (v & Hv & [Hnull|[Hk Hobj]]); exists v;
        (split; [assumption|]); [now left|right].
      split; [assumption|now apply geo_object_app].
    + exists VNull. split; [assumption|]. now left.
    + exists (VRef l). split; [assumption|]. right. auto.
  - intros v Hin. destruct (Hr' _ Hin) as [Hold|[->|[Hobj _]]]; [|now left|now right].
    destruct (Hres v Hold) as [->|Hobj]; [now left|right; now apply geo_object_app].
  - intros k v Hin Hr. destruct (Hr' _ Hr) as [Hold|[->|[_ Hfresh]]].
    + destruct (Hc' _ Hin) as [Hcold|(_ & _ & l & Hl & Hge)].
      * now apply (Hpr k v Hcold).
      * simpl in Hl. subst v. destruct (Hres _ Hold) as [?|Hobj]; [discriminate|].
        apply geo_object_lt in Hobj. lia.
    + destruct (Hc' _ Hin) as [Hcold|(_ & _ & l & Hl & _)]; [|discriminate].
      destruct (Hcache k VNull Hcold) as (_ & _ & l & ? & _). discriminate.
    + now apply (Hfresh k).
  - intros k v p Hin Hp Heq.
    destruct (Hp' _ Hp) as [Hold|[[Hnull _]|(l & Hl & Hfresh & _)]].
    + destruct (Hc' _ Hin) as [Hcold|(_ & _ & l & Hl & Hge)].
      * now apply (Hpp k v p Hcold Hold).
      * simpl in Hl. subst v.
        destruct (Hpend p Hold) as (w & Hw & [[-> _]|[_ Hobj]]); [congruence|].
        rewrite Hw in Heq. injection Heq as ->. apply geo_object_lt in Hobj. lia.
    + rewrite Hnull in Heq. injection Heq as <-.
      destruct (Hc' _ Hin) as [Hcold|(_ & _ & l & Hl & _)]; [|discriminate].
      destruct (Hcache k VNull Hcold) as (_ & _ & l & ? & _). discriminate.
    + rewrite Hl in Heq. injection Heq as <-. now apply (Hfresh k).
Qed.

Lemma geo_cache_lt P h0 st k l :
  geo_inv P h0 st -> (k, VRef l) ∈ cache (geo_cache st) -> l < length (geo_heap st).
Proof.
  intros Hinv Hin. destruct (gi_cache _ _ _ Hinv k _ Hin) as (_ & Hobj & _).
  eapply geo_object_lt; eassumption.
Qed.

Lemma geo_step_inv P h0 st ev :
  call_makes P ev -> geo_inv P h0 st -> geo_inv P h0 (geo_step st ev).
Proof.
  intros Hev Hinv. destruct ev as [locationString random1 random2|i]; simpl.
  - unfold geocode_begin.
    destruct (negb (truthy locationString) || negb (is_string locationString)) eqn:Hbad.
    + rewrite <- (app_nil_r (geo_heap st)). apply geo_inv_alloc; [assumption|auto..].
      intros v [Hv| ->%list_elem_of_singleton]%elem_of_app; auto.
    + set (key := String_toLowerCase (String_trim (value_string locationString))).
      destruct (LRUCache_get (geo_cache st) key) as [found c'] eqn:Hget.
      assert (Hc' : forall e, e ∈ cache c' -> e ∈ cache (geo_cache st)).
      { intros e He. apply (LRUCache_get_elem (geo_cache st) key). now rewrite Hget. }
      assert (Hfresh : forall k, (k, VRef (length (geo_heap st))) ∉ cache c').
      { intros k Hin. apply Hc' in Hin.
        pose proof (geo_cache_lt _ _ _ _ _ Hinv Hin). lia. }
      destruct found as [v|]; simpl.
      * assert (Hv : (key, v) ∈ cache (geo_cache st)).
        { apply LRUCache_get_found. now rewrite Hget. }
        destruct (gi_cache _ _ _ Hinv _ _ Hv) as (_ & Hobj & _).
        destruct (geo_object_spread _ _ _ Hobj) as [-> Hnew].
        apply geo_inv_alloc; [assumption|auto..].
        intros w [Hw| ->%list_elem_of_singleton]%elem_of_app; auto.
      * destruct (decide (key = "")) as [Hk|Hk].
        -- rewrite Hk, performGeocoding_blank.
           rewrite <- (app_nil_r (geo_heap st)). apply geo_inv_alloc; [assumption|auto..].
           intros p [Hp| ->%list_elem_of_singleton]%elem_of_app; auto.
        -- destruct (performGeocoding_object P (geo_heap st) key random1 random2 Hk Hev)
             as [-> Hnew].
           apply geo_inv_alloc; [assumption|auto..].
           intros p [Hp| ->%list_elem_of_singleton]%elem_of_app; [auto|].
           right. right. exists (length (geo_heap st)). simpl. auto.
  - destruct (geo_pending st !! i) as [p|] eqn:Hp; [|assumption].
    assert (Hsub : forall q, q ∈ delete i (geo_pending st) -> q ∈ geo_pending st).
    { intros q Hq. eapply list_elem_of_delete_inv. exact Hq. }
    apply list_elem_of_lookup_2 in Hp as Hpin.
    destruct (gi_pending _ _ _ Hinv p Hpin) as (v & Hv & Hcases).
    unfold geocode_resume. rewrite Hv.
    destruct Hcases as [[-> Hk]|[Hk Hobj]]; simpl.
    + rewrite <- (app_nil_r (geo_heap st)).
      apply geo_inv_alloc; [assumption|auto..].
      intros w [Hw| ->%list_elem_of_singleton]%elem_of_app; auto.
    + destruct (geo_object_spread _ _ _ Hobj) as [-> Hnew].
      apply geo_inv_alloc; [assumption| |auto|].
      * intros e [-> |He]%LRUCache_set_elem; [|auto]. right. simpl.
        split; [assumption|]. split; [assumption|]. eauto.
      * intros w [Hw| ->%list_elem_of_singleton]%elem_of_app; [auto|].
        right. right. split; [now apply geo_object_app|].
        intros k [[= _ Hl]|He]%LRUCache_set_elem.
        -- rewrite Hl in Hobj. apply geo_object_lt in Hobj. lia.
        -- exact (gi_private_pending _ _ _ Hinv k v p He Hpin Hv).
Qed.

Lemma geo_run_inv P h capacity events :
  Forall (call_makes P) events -> geo_inv P h (geo_run (geo_new h capacity) events).
Proof.
  unfold geo_run. induction events as [|ev events IH] using rev_ind; intros Hev.
  - apply geo_inv_new.
  - apply Forall_app in Hev as [Hevs Hev].
    apply (proj1 (Forall_singleton _ _)) in Hev.
    rewrite foldl_snoc. apply geo_step_inv; [exact Hev|]. now apply IH.
Qed.

Lemma geo_step_cache cap st ev :
  (exists ops, geo_cache st = lru_run cap ops) ->
  exists ops, geo_cache (geo_step st ev) = lru_run cap ops.
Proof.
  intros [ops Hops]. destruct ev as [locationString random1 random2|i]; simpl.
  - unfold geocode_begin.
    destruct (negb (truthy locationString) || negb (is_string locationString));
      [now exists ops|].
    set (key := String_toLowerCase (String_trim (value_string locationString))).
    assert (Hget : (LRUCache_get (geo_cache st) key).2 = lru_run cap (ops ++ [OpGet key])).
    { rewrite lru_run_snoc, <- Hops. reflexivity. }
    destruct (LRUCache_get (geo_cache st) key) as [found c']. simpl in Hget.
    destruct (truthy (default VUndefined found)); [eauto|].
    destruct (performGeocoding _ _ _ _). eauto.
  - destruct (geo_pending st !! i) as [p|]; [|eauto].
    unfold geocode_resume. destruct (pend_promise p) as [result|error]; [|eauto].
    destruct (truthy result); [|eauto]. simpl.
    exists (ops ++ [OpSet (pend_normalizedLocation p) (VRef (length (geo_heap st)))]).
    now rewrite lru_run_snoc, <- Hops.
Qed.

Lemma geo_run_cache h cap events :
  exists ops, geo_cache (geo_run (geo_new h cap) events) = lru_run cap ops.
Proof.
  unfold geo_run. induction events as [|ev events IH] using rev_ind.
  - now exists [].
  - rewrite foldl_snoc. now apply geo_step_cache.
Qed.

(** X17. The cache of the service stays within its capacity: with a
    capacity of at least one entry, whatever calls of [geocode] start and
    in whatever order the suspended calls resume, the cache holds at most
    [capacity] locations. *)
Theorem geocode_cache_bounded (h : Heap) (capacity : nat) (events : list GeoEvent) :
  1 <= capacity ->
  LRUCache_size (geo_cache (geo_run (geo_new h capacity) events)) <= capacity.
Proof.
  intros Hcap. destruct (geo_run_cache h capacity events) as [ops ->].
  now apply lru_run_size.
Qed.

Lemma geocode_cache_bounded_witness :
  LRUCache_size (geo_cache (geo_run (geo_new [] 1) paris_events)) <= 1.
Proof. apply geocode_cache_bounded. lia. Defined.

Lemma random_range_makes ev : random_range ev -> call_makes mock_range ev.
Proof.
  destruct ev as [locationString r1 r2|i]; simpl; [|trivial].
  unfold mock_range, mock_latitude, mock_longitude. intros (H1 & H2 & H3 & H4).
  repeat split; Lqa.lra.
Qed.

Lemma geo_object_valid h v :
  geo_object mock_range h v -> isValidCoordinate h v = true.
Proof.
  intros (l & lat & lon & -> & Hl & H1 & H2 & H3 & H4).
  apply isValidCoordinate_true. exists lat, lon, l.
  eexists. split; [reflexivity|]. split; [exact Hl|].
  split; [reflexivity|]. split; [reflexivity|].
  unfold inject_Z. repeat split; Lqa.lra.
Qed.

(** X18. What [geocode] returns can be clustered: with random numbers
    from 0 up to, and not including, 1, every value that a call returned
    is [null] or a coordinates object that passes [isValidCoordinate], and
    so is every object of the cache. *)
Theorem geocode_results_valid (h : Heap) (capacity : nat) (events : list GeoEvent) :
  Forall random_range events ->
  let st := geo_run (geo_new h capacity) events in
  (forall result, result ∈ geo_results st ->
     result = VNull \/ isValidCoordinate (geo_heap st) result = true)
  /\ (forall key value, (key, value) ∈ cache (geo_cache st) ->
        isValidCoordinate (geo_heap st) value = true).
Proof.
  intros Hev st.
  assert (Hinv : geo_inv mock_range h st).
  { apply geo_run_inv. eapply Forall_impl; [exact Hev|]. apply random_range_makes. }
  split.
  - intros result Hin. destruct (gi_results _ _ _ Hinv result Hin) as [->|Hobj];
      [now left|right; now apply geo_object_valid].
  - intros key value Hin. destruct (gi_cache _ _ _ Hinv key value Hin) as (_ & Hobj & _).
    now apply geo_object_valid.
Qed.

Lemma paris_events_random : Forall random_range paris_events.
Proof.
  repeat constructor; unfold Qle, Qlt; simpl; lia.
Qed.

Lemma geocode_results_valid_witness :
  let st := geo_run (geo_new [] 2) paris_events in
  geo_results st = [VRef 0; VRef 2; VNull]
  /\ forall result, result ∈ geo_results st ->
       result = VNull \/ isValidCoordinate (geo_heap st) result = true.
Proof.
  intros st. split; [vm_compute; reflexivity|].
  apply (geocode_results_valid [] 2 paris_events paris_events_random).
Defined.

(** X19. The objects of the cache are the service's own: whatever calls
    start and resume, a value of the cache is an object that the service
    allocated (it is not on the heap of the first caller), it was never
    returned by a call, and no suspended call is about to return it.  A
    caller that changes a result changes no later answer. *)
Theorem geocode_cache_private (h : Heap) (capacity : nat) (events : list GeoEvent) :
  let st := geo_run (geo_new h capacity) events in
  forall key value, (key, value) ∈ cache (geo_cache st) ->
    (exists l, value = VRef l /\ length h <= l /\ l < length (geo_heap st))
    /\ (value ∉ geo_results st)
    /\ (forall p, p ∈ geo_pending st -> pend_promise p ≠ Fulfilled value).
Proof.
  intros st key value Hin.
  assert (Hinv : geo_inv (fun _ _ => True) h st).
  { apply geo_run_inv. apply Forall_forall. intros [? ? ?|?] _; exact I. }
  destruct (gi_cache _ _ _ Hinv key value Hin) as (_ & Hobj & l & -> & Hge).
  split; [|split].
  - exists l. split; [reflexivity|]. split; [assumption|].
    eapply geo_object_lt; eassumption.
  - exact (gi_private_results _ _ _ Hinv key _ Hin).
  - intros p Hp. exact (gi_private_pending _ _ _ Hinv key _ p Hin Hp).
Qed.

Lemma geocode_cache_private_witness :
  let st := geo_run (geo_new [] 2) paris_events in
  cache (geo_cache st) = [("paris", VRef 1)] /\ VRef 1 ∉ geo_results st.
Proof.
  intros st.
  assert (Hc : cache (geo_cache st) = [("paris", VRef 1)]) by (vm_compute; reflexivity).
  split; [exact Hc|].
  apply (geocode_cache_private [] 2 paris_events "paris" (VRef 1)).
  fold st. rewrite Hc. now left.
Defined.

(** X20. In every state that the service reaches, [geocode] of a value
    that is not a string, of the empty string, or of a string of white
    space returns [null], prints nothing, and leaves the heap and the
    cache as they were: a blank location is never cached. *)
Theorem geocode_blank (h : Heap) (capacity : nat) (events : list GeoEvent)
    (locationString : Value) (random1 random2 : Q) :
  is_string locationString = false
  \/ String_trim (value_string locationString) = "" ->
  let st := geo_run (geo_new h capacity) events in
  geocode (geo_heap st) (geo_cache st) locationString random1 random2
  = (geo_heap st, geo_cache st, VNull, []).
Proof.
  intros Hblank st. unfold geocode, geocode_begin.
  destruct (negb (truthy locationString) || negb (is_string locationString)) eqn:Hbad;
    [reflexivity|].
  destruct Hblank as [Hs|Hs]; [rewrite Hs in Hbad; now rewrite orb_true_r in Hbad|].
  rewrite Hs. simpl String_toLowerCase.
  assert (Hinv : geo_inv (fun _ _ => True) h st).
  { apply geo_run_inv. apply Forall_forall. intros [? ? ?|?] _; exact I. }
  rewrite LRUCache_get_miss.
  - reflexivity.
  - intros Hin. apply list_elem_of_fmap in Hin as ([k v] & Hk & Hin). simpl in Hk. subst k.
    destruct (gi_cache _ _ _ Hinv "" v Hin) as (Hne & _). now apply Hne.
Qed.

Lemma geocode_blank_witness :
  let st := geo_run (geo_new [] 2) paris_events in
  geocode (geo_heap st) (geo_cache st) (VStr "   ") 0 0
  = (geo_heap st, geo_cache st, VNull, []).
Proof.
  intros st. apply (geocode_blank [] 2 paris_events (VStr "   ") 0 0).
  right. reflexivity.
Defined.

(** X21. The key of the cache: normalising a key again changes nothing;
    white space around a location and the case of its letters make no
    difference to the key. *)
Theorem geocode_normalization (s s' pad1 pad2 : string) :
  normalized (normalized s) = normalized s
  /\ (all_white_space pad1 = true -> all_white_space pad2 = true ->
      normalized (pad1 +:+ s +:+ pad2) = normalized s)
  /\ (String_toLowerCase s = String_toLowerCase s' -> normalized s = normalized s').
Proof.
  unfold normalized. split; [|split].
  - now rewrite String_trim_lower, String_toLowerCase_idem, String_trim_idem.
  - intros H1 H2. now rewrite String_trim_pad.
  - intros Heq. now rewrite <- !String_trim_lower, Heq.
Qed.

Lemma normalized_truthy s : normalized s ≠ "" -> truthy (VStr s) = true.
Proof. destruct s; [intros H; now contradiction H|reflexivity]. Qed.

(** X22. A location that was resolved is answered from the cache: after
    a call of [geocode] for a location that is not blank and not in the
    cache, a second call for a location with the same key does not call
    [performGeocoding] (the heap grows by one object and the random
    numbers play no part); it returns a new object, neither the object
    that the first call returned nor the object of the cache, with the
    coordinates of the first result. *)
Theorem geocode_cached_round_trip (h : Heap) (cache : LRUCache string Value)
    (s s' : string) (random1 random2 random1' random2' : Q) :
  normalized s ≠ "" ->
  (LRUCache_get cache (normalized s)).1 = None ->
  normalized s' = normalized s ->
  let point := coordinates_object (mock_latitude random1) (mock_longitude random2) in
  let cache1 := LRUCache_set cache (normalized s) (VRef (S (length h))) in
  geocode h cache (VStr s) random1 random2
  = (h ++ [point; point], cache1, VRef (length h), [])
  /\ geocode (h ++ [point; point]) cache1 (VStr s') random1' random2'
     = (h ++ [point; point; point], (LRUCache_get cache1 (normalized s)).2,
        VRef (S (S (length h))), []).
Proof.
  intros Hkey Hmiss Hsame point cache1. split.
  - unfold geocode, geocode_begin. rewrite (normalized_truthy s Hkey). simpl negb.
    cbn [orb value_string]. fold (normalized s).
    rewrite (LRUCache_get_None _ _ Hmiss). cbn [default truthy].
    destruct (performGeocoding_object (fun _ _ => True) h (normalized s)
                random1 random2 Hkey I) as [-> _].
    unfold geocode_resume. cbn [pend_promise truthy pend_normalizedLocation].
    fold point. unfold point at 2, coordinates_object.
    rewrite spread_alloc, length_app, <- app_assoc. simpl.
    rewrite Nat.add_1_r. reflexivity.
  - unfold geocode, geocode_begin. rewrite <- Hsame in Hkey.
    rewrite (normalized_truthy s' Hkey). simpl negb.
    cbn [orb value_string]. fold (normalized s'). rewrite Hsame.
    pose proof (LRUCache_set_hit cache (normalized s) (VRef (S (length h)))) as Hhit.
    fold cache1 in Hhit.
    destruct (LRUCache_get cache1 (normalized s)) as [found cache2] eqn:Hget.
    simpl in Hhit. subst found. cbn [default truthy snd]. unfold Datatypes.id.
    assert (Hspread : spread (h ++ [point; point]) (VRef (S (length h)))
                      = {[ "latitude" := VNum (Fin (mock_latitude random1));
                           "longitude" := VNum (Fin (mock_longitude random2)) ]}).
    { simpl. rewrite lookup_app_r by lia.
      replace (S (length h) - length h) with 1 by lia. reflexivity. }
    rewrite Hspread. fold (coordinates_object (mock_latitude random1) (mock_longitude random2)).
    fold point. rewrite <- app_assoc, length_app. simpl.
    replace (length h + 2) with (S (S (length h))) by lia. reflexivity.
Qed.

Lemma geocode_cached_round_trip_witness :
  let point := coordinates_object (mock_latitude (1 # 2)) (mock_longitude (1 # 4)) in
  let cache1 := LRUCache_set (LRUCache_new 2) "paris" (VRef 1) in
  geocode [] (LRUCache_new 2) (VStr "Paris") (1 # 2) (1 # 4)
  = ([point; point], cache1, VRef 0, [])
  /\ geocode [point; point] cache1 (VStr "  PARIS ") 0 0
     = ([point; point; point], (LRUCache_get cache1 "paris").2, VRef 2, []).
Proof.
  apply (geocode_cached_round_trip [] (LRUCache_new 2) "Paris" "  PARIS "
           (1 # 2) (1 # 4) 0 0).
  - vm_compute. discriminate.
  - reflexivity.
  - vm_compute. reflexivity.
Defined.

(** *** Objects handed out *)

Lemma omap_snoc {A B} (f : A -> option B) (l : list A) (x : A) :
  omap f (l ++ [x]) = omap f l ++ match f x with Some y => [y] | None => [] end.
Proof. rewrite omap_app. simpl. now destruct (f x). Qed.

Lemma omap_delete_lookup {A B} (f : A -> option B) (l : list A) (i : nat) (x : A) :
  l !! i = Some x ->
  omap f l ≡ₚ match f x with Some y => [y] | None => [] end ++ omap f (delete i l).
Proof.
  revert i. induction l as [|a l IH]; intros [|i] Hi; try discriminate.
  - injection Hi as ->. cbn. now destruct (f x).
  - cbn in Hi. specialize (IH i Hi). cbn. destruct (f a) as [z|]; [|exact IH].
    rewrite IH. apply Permutation_middle.
Qed.

Lemma geo_step_fresh h0 st ev : geo_fresh h0 st -> geo_fresh h0 (geo_step st ev).
Proof.
  intros (Hnd & Hall & Hlen). unfold geo_fresh, handed_out in *.
  assert (Hnew : length (geo_heap st) ∉
                 omap value_ref (geo_results st) ++ omap pending_ref (geo_pending st)).
  { intros Hin. rewrite Forall_forall in Hall. specialize (Hall _ Hin). lia. }
  assert (Hgrow : forall obj,
            Forall (fun l => length h0 <= l /\ l < length (geo_heap st ++ obj))
              (omap value_ref (geo_results st) ++ omap pending_ref (geo_pending st))).
  { intros obj. eapply Forall_impl; [exact Hall|]. simpl. intros x [? ?].
    rewrite length_app. lia. }
  destruct ev as [locationString random1 random2|i]; simpl.
  - unfold geocode_begin.
    destruct (negb (truthy locationString) || negb (is_string locationString)).
    + simpl. rewrite omap_snoc. simpl. rewrite app_nil_r. auto.
    + destruct (LRUCache_get (geo_cache st) _) as [found c'].
      destruct (truthy (default VUndefined found)).
      * simpl. rewrite omap_snoc. simpl.
        assert (Hperm : (omap value_ref (geo_results st) ++ [length (geo_heap st)])
                        ++ omap pending_ref (geo_pending st)
                        ≡ₚ length (geo_heap st)
                           :: omap value_ref (geo_results st)
                              ++ omap pending_ref (geo_pending st)).
        { rewrite <- app_assoc. simpl. symmetry. apply Permutation_middle. }
        rewrite Hperm. split; [|split].
        -- apply NoDup_cons. auto.
        -- apply Forall_cons. split; [|apply Hgrow]. rewrite length_app. simpl. lia.
        -- rewrite length_app. lia.
      * unfold performGeocoding.
        destruct (negb (truthy (VStr _)) || negb (is_string (VStr _))).
        -- simpl. rewrite omap_snoc.
           change (pending_ref (mkPending _ _ (Fulfilled VNull))) with (@None nat).
           rewrite !app_nil_r. auto.
        -- simpl. rewrite omap_snoc.
           change (pending_ref (mkPending _ _ (Fulfilled (VRef ?l)))) with (Some l).
           assert (Hperm : omap value_ref (geo_results st)
                           ++ omap pending_ref (geo_pending st) ++ [length (geo_heap st)]
                           ≡ₚ length (geo_heap st)
                              :: omap value_ref (geo_results st)
                                 ++ omap pending_ref (geo_pending st)).
           { rewrite app_assoc. symmetry. apply Permutation_cons_append. }
           rewrite Hperm. split; [|split].
           ++ apply NoDup_cons. auto.
           ++ apply Forall_cons. split; [|apply Hgrow]. rewrite length_app. simpl. lia.
           ++ rewrite length_app. lia.
  - destruct (geo_pending st !! i) as [p|] eqn:Hp; [|auto].
    pose proof (omap_delete_lookup pending_ref _ _ _ Hp) as Hperm.
    unfold geocode_resume.
    destruct (pend_promise p) as [result|error] eqn:Hpr.
    + assert (Hpref : pending_ref p = value_ref result)
        by (unfold pending_ref; now rewrite Hpr).
      rewrite Hpref in Hperm.
      assert (Hout : omap value_ref (geo_results st ++ [result])
                     ++ omap pending_ref (delete i (geo_pending st))
                     ≡ₚ omap value_ref (geo_results st)
                        ++ omap pending_ref (geo_pending st)).
      { rewrite omap_snoc, <- app_assoc, Hperm. reflexivity. }
      destruct (truthy result); simpl; rewrite Hout.
      * split; [assumption|]. split; [apply Hgrow|]. rewrite length_app. lia.
      * auto.
    + assert (Hpref : pending_ref p = None)
        by (unfold pending_ref; now rewrite Hpr).
      rewrite Hpref in Hperm. simpl in Hperm.
      simpl. rewrite omap_snoc. simpl. rewrite app_nil_r, <- Hperm. auto.
Qed.

Lemma geo_run_fresh h capacity events : geo_fresh h (geo_run (geo_new h capacity) events).
Proof.
  unfold geo_run. induction events as [|ev events IH] using rev_ind.
  - split; [constructor|]. split; [constructor|]. simpl. lia.
  - rewrite foldl_snoc. now apply geo_step_fresh.
Qed.

(** X24. No two calls of [geocode] return the same object: whatever
    calls are made and however their resumptions interleave, two results
    that are the same location are the result of the same call, and the
    object was allocated by the service, not by the caller. *)
Theorem geocode_results_distinct (h : Heap) (capacity : nat) (events : list GeoEvent) :
  let st := geo_run (geo_new h capacity) events in
  forall i j l,
    geo_results st !! i = Some (VRef l) -> geo_results st !! j = Some (VRef l) ->
    i = j /\ length h <= l.
Proof.
  intros st i j l Hi Hj.
  destruct (geo_run_fresh h capacity events) as (Hnd & Hall & _). fold st in Hnd, Hall.
  unfold handed_out in *. apply NoDup_app in Hnd as (Hnd & _ & _).
  apply Forall_app in Hall as [Hall _].
  split.
  - clear Hall. revert i j Hi Hj Hnd. generalize (geo_results st). intros results.
    induction results as [|v results IH]; intros i j Hi Hj Hnd; [discriminate|].
    simpl in Hnd. destruct i as [|i], j as [|j]; simpl in *.
    + reflexivity.
    + injection Hi as ->. simpl in Hnd. apply NoDup_cons in Hnd as [Hni _].
      exfalso. apply Hni. apply list_elem_of_omap. exists (VRef l).
      split; [|reflexivity]. eapply list_elem_of_lookup_2; eassumption.
    + injection Hj as ->. simpl in Hnd. apply NoDup_cons in Hnd as [Hni _].
      exfalso. apply Hni. apply list_elem_of_omap. exists (VRef l).
      split; [|reflexivity]. eapply list_elem_of_lookup_2; eassumption.
    + f_equal. apply IH; [assumption|assumption|].
      destruct (value_ref v); [now apply NoDup_cons in Hnd as [_ ?]|assumption].
  - rewrite Forall_forall in Hall. apply Hall. apply list_elem_of_omap.
    exists (VRef l). split; [|reflexivity]. eapply list_elem_of_lookup_2; eassumption.
Qed.

Lemma geocode_results_distinct_witness :
  geo_results (geo_run (geo_new [] 2) paris_events) !! 1 = Some (VRef 2)
  /\ 1 = 1 /\ length ([] : Heap) <= 2.
Proof.
  split; [reflexivity|].
  apply (geocode_results_distinct [] 2 paris_events 1 1 2); reflexivity.
Defined.

Lemma geocode_begin_miss h (cache : LRUCache string Value) s random1 random2 :
  normalized s ≠ "" -> (LRUCache_get cache (normalized s)).1 = None ->
  geocode_begin h cache (VStr s) random1 random2
  = (h ++ [coordinates_object (mock_latitude random1) (mock_longitude random2)], cache,
     inr {| pend_normalizedLocation := normalized s;
            pend_locationString := VStr s;
            pend_promise := Fulfilled (VRef (length h)) |}).
Proof.
  intros Hkey Hmiss. unfold geocode_begin. rewrite (normalized_truthy s Hkey). simpl negb.
  cbn [orb value_string]. fold (normalized s).
  rewrite (LRUCache_get_None _ _ Hmiss). cbn [default truthy].
  now destruct (performGeocoding_object (fun _ _ => True) h (normalized s)
                  random1 random2 Hkey I) as [-> _].
Qed.

Lemma geocode_resume_point h (cache : LRUCache string Value) key location l lat lon :
  h !! l = Some (coordinates_object lat lon) ->
  geocode_resume h cache {| pend_normalizedLocation := key;
                            pend_locationString := location;
                            pend_promise := Fulfilled (VRef l) |}
  = (h ++ [coordinates_object lat lon], LRUCache_set cache key (VRef (length h)),
     VRef l, []).
Proof.
  intros Hl. unfold geocode_resume. cbn [pend_promise truthy pend_normalizedLocation].
  unfold spread. now rewrite Hl.
Qed.

(** X25. Calls in flight are not shared: when a second call of [geocode]
    for the same key starts before the first one resumes, both miss the
    cache and both call [performGeocoding]; each returns the object of
    its own lookup, and the cache ends with a copy of the result of the
    call that resumed last. *)
Theorem geocode_concurrent_misses (h : Heap) (cache : LRUCache string Value)
    (s s' : string) (random1 random2 random1' random2' : Q) :
  normalized s ≠ "" ->
  normalized s' = normalized s ->
  (LRUCache_get cache (normalized s)).1 = None ->
  let point := coordinates_object (mock_latitude random1) (mock_longitude random2) in
  let point' := coordinates_object (mock_latitude random1') (mock_longitude random2') in
  let st := geo_run {| geo_heap := h; geo_cache := cache; geo_pending := [];
                       geo_results := []; geo_failures := [] |}
              [ GeoCall (VStr s) random1 random2; GeoCall (VStr s') random1' random2';
                GeoResume 0; GeoResume 0 ] in
  geo_heap st = h ++ [point; point'; point; point']
  /\ geo_results st = [VRef (length h); VRef (S (length h))]
  /\ geo_pending st = []
  /\ (LRUCache_get (geo_cache st) (normalized s)).1 = Some (VRef (S (S (S (length h))))).
Proof.
  intros Hkey Hsame Hmiss point point' st.
  assert (Hkey' : normalized s' ≠ "") by now rewrite Hsame.
  assert (Hmiss' : (LRUCache_get cache (normalized s')).1 = None) by now rewrite Hsame.
  assert (Hst : st = {| geo_heap := h ++ [point; point'; point; point'];
                        geo_cache :=
                          LRUCache_set
                            (LRUCache_set cache (normalized s) (VRef (S (S (length h)))))
                            (normalized s) (VRef (S (S (S (length h)))));
                        geo_pending := [];
                        geo_results := [VRef (length h); VRef (S (length h))];
                        geo_failures := [] |}).
  { unfold st, geo_run. cbn [foldl]. unfold geo_step at 4. cbn [geo_heap geo_cache].
    rewrite (geocode_begin_miss h cache s random1 random2 Hkey Hmiss). fold point.
    unfold geo_step at 3. cbn [geo_heap geo_cache geo_pending geo_results geo_failures].
    rewrite (geocode_begin_miss (h ++ [point]) cache s' random1' random2' Hkey' Hmiss').
    fold point'. rewrite Hsame.
    unfold geo_step at 2. cbn [geo_heap geo_cache geo_pending geo_results geo_failures].
    cbn [app lookup list_lookup].
    rewrite (geocode_resume_point _ cache _ _ (length h)
               (mock_latitude random1) (mock_longitude random2)).
    2:{ rewrite <- app_assoc. simpl. rewrite lookup_app_r by lia.
        now rewrite Nat.sub_diag. }
    unfold geo_step. cbn [geo_heap geo_cache geo_pending geo_results geo_failures].
    cbn [delete list_delete app lookup list_lookup].
    rewrite (geocode_resume_point _ _ _ _ (length (h ++ [point]))
               (mock_latitude random1') (mock_longitude random2')).
    2:{ rewrite <- !app_assoc, length_app. simpl. rewrite lookup_app_r by lia.
        replace (length h + 1 - length h) with 1 by lia. reflexivity. }
    fold point point'. rewrite !length_app. simpl.
    rewrite <- !app_assoc. simpl.
    replace (length h + 1 + 1) with (S (S (length h))) by lia.
    replace (length h + 1 + 1 + 1) with (S (S (S (length h)))) by lia.
    replace (length h + 1) with (S (length h)) by lia.
    replace (S (S (length h)) + 1) with (S (S (S (length h)))) by lia. reflexivity. }
  rewrite Hst. cbn [geo_heap geo_results geo_pending geo_cache].
  repeat (split; [reflexivity|]). apply LRUCache_set_hit.
Qed.

Lemma geocode_concurrent_misses_witness :
  let point := coordinates_object (mock_latitude (1 # 2)) (mock_longitude (1 # 4)) in
  let point' := coordinates_object (mock_latitude 0) (mock_longitude 0) in
  let st := geo_run (geo_new [] 2)
              [ GeoCall (VStr "Paris") (1 # 2) (1 # 4); GeoCall (VStr "  PARIS ") 0 0;
                GeoResume 0; GeoResume 0 ] in
  geo_heap st = [point; point'; point; point']
  /\ geo_results st = [VRef 0; VRef 1]
  /\ geo_pending st = []
  /\ (LRUCache_get (geo_cache st) "paris").1 = Some (VRef 3).
Proof.
  apply (geocode_concurrent_misses [] (LRUCache_new 2) "Paris" "  PARIS "
           (1 # 2) (1 # 4) 0 0).
  - vm_compute. discriminate.
  - vm_compute. reflexivity.
  - reflexivity.
Defined.

(** ** The configuration *)

Lemma digit_value_char (d : N) :
  (d < 10)%N -> digit_value (pretty_N_char d) = Some (Z.of_N d).
Proof.
  intros Hd.
  assert (H : d ∈ [0; 1; 2; 3; 4; 5; 6; 7; 8; 9]%N).
  { rewrite !elem_of_cons. lia. }
  rewrite !elem_of_cons, elem_of_nil in H.
  repeat (destruct H as [->|H]; [reflexivity|]). contradiction.
Qed.

Lemma String_append_cons (c : Ascii.ascii) (s t : string) :
  String c s +:+ t = String c (s +:+ t).
Proof. reflexivity. Qed.

Lemma String_append_assoc (s t u : string) : (s +:+ t) +:+ u = s +:+ (t +:+ u).
Proof.
  induction s as [|c s IH]; [reflexivity|].
  rewrite !String_append_cons. now rewrite IH.
Qed.

Lemma String_append_nil_r (s : string) : s +:+ "" = s.
Proof.
  induction s as [|c s IH]; [reflexivity|].
  rewrite String_append_cons. now rewrite IH.
Qed.

Lemma pretty_N_go_digits (x : N) :
  (0 < x)%N ->
  exists c ds (k : nat),
    is_digit c = true
    /\ (forall s, pretty_N_go x s = String c (ds +:+ s))
    /\ forall s acc,
         parse_digits (String c (ds +:+ s)) acc
         = parse_digits s (Some (10 ^ Z.of_nat k * default 0 acc + Z.of_N x)%Z).
Proof.
  induction (N.lt_wf_0 x) as [x _ IH]. intros Hx.
  assert (Hmod : (x `mod` 10 < 10)%N) by (apply N.mod_lt; lia).
  pose proof (digit_value_char _ Hmod) as Hd.
  assert (Hx10 : (Z.of_N x = 10 * Z.of_N (x `div` 10) + Z.of_N (x `mod` 10))%Z).
  { rewrite <- (N2Z.inj_mul 10), <- N2Z.inj_add. f_equal. apply N.Div0.div_mod. }
  destruct (decide (x `div` 10 = 0)%N) as [Hq|Hq].
  - exists (pretty_N_char (x `mod` 10)), "", 1. split; [|split].
    + unfold is_digit. now rewrite Hd.
    + intros s. rewrite pretty_N_go_step by assumption. rewrite Hq. reflexivity.
    + intros s acc. change ("" +:+ s) with s. cbn [parse_digits]. rewrite Hd.
      do 2 f_equal. rewrite Hq in Hx10.
      change (10 ^ Z.of_nat 1)%Z with 10%Z. lia.
  - destruct (IH (x `div` 10)%N) as (c & ds & k & Hc & Hgo & Hparse).
    + apply N.div_lt; lia.
    + lia.
    + exists c, (ds +:+ String (pretty_N_char (x `mod` 10)) ""), (S k).
      split; [assumption|]. split.
      * intros s. rewrite pretty_N_go_step by assumption. rewrite Hgo.
        f_equal. rewrite String_append_assoc. reflexivity.
      * intros s acc. rewrite String_append_assoc.
        change (String ?d "" +:+ s) with (String d s). rewrite Hparse.
        cbn [parse_digits]. rewrite Hd. cbn [default].
        do 2 f_equal. rewrite Nat2Z.inj_succ, Z.pow_succ_r by lia.
        unfold Datatypes.id. rewrite Hx10. ring.
Qed.

Lemma parse_digits_stop (s : string) (acc : option Z) :
  starts_with is_digit s = false -> parse_digits s acc = acc.
Proof.
  destruct s as [|c s]; [reflexivity|]. simpl. unfold is_digit.
  now destruct (digit_value c).
Qed.

Lemma pretty_N_digits (n : N) :
  exists c ds,
    is_digit c = true
    /\ pretty n = String c ds
    /\ forall rest, starts_with is_digit rest = false ->
         parse_digits (pretty n +:+ rest) None = Some (Z.of_N n).
Proof.
  unfold pretty, pretty_N. destruct (decide (n = 0%N)) as [->|Hn].
  - exists (pretty_N_char 0), "". split; [reflexivity|]. split; [reflexivity|].
    intros rest Hrest. change ("0" +:+ rest) with (String (pretty_N_char 0) rest).
    cbn [parse_digits]. rewrite (digit_value_char 0) by lia.
    now rewrite parse_digits_stop.
  - destruct (pretty_N_go_digits n) as (c & ds & k & Hc & Hgo & Hparse); [lia|].
    exists c, ds. split; [assumption|]. split.
    + rewrite Hgo. now rewrite String_append_nil_r.
    + intros rest Hrest. rewrite Hgo. rewrite String_append_nil_r.
      change (String c ds +:+ rest) with (String c (ds +:+ rest)).
      rewrite Hparse, parse_digits_stop by assumption. simpl default.
      do 2 f_equal. lia.
Qed.

Lemma is_digit_code (c : Ascii.ascii) :
  is_digit c = true -> is_white_space c = false /\ is_sign c = false.
Proof.
  unfold is_digit, digit_value, is_white_space, is_sign.
  destruct (_ && _) eqn:Hc; [|discriminate]. intros _.
  apply andb_prop in Hc as [H1%Nat.leb_le H2%Nat.leb_le].
  split.
  - repeat (apply orb_false_intro); try apply andb_false_intro2;
      try apply Nat.eqb_neq; try apply Nat.leb_gt; lia.
  - apply orb_false_intro; apply Nat.eqb_neq; lia.
Qed.

Lemma parseInt_digits (c : Ascii.ascii) (s : string) :
  is_digit c = true ->
  parseInt (String c s)
  = match parse_digits (String c s) None with
    | None => NaN
    | Some z => Fin (inject_Z z)
    end.
Proof.
  intros [Hw Hs]%is_digit_code. unfold parseInt. cbn [String_trimStart]. rewrite Hw.
  unfold is_sign in Hs. apply orb_false_elim in Hs as [-> ->]. reflexivity.
Qed.

Lemma pretty_N_parseInt (n : N) (rest : string) :
  starts_with is_digit rest = false ->
  parseInt (pretty n +:+ rest) = num_of_Z (Z.of_N n)
  /\ parse_digits (pretty n +:+ rest) None = Some (Z.of_N n).
Proof.
  intros Hrest. destruct (pretty_N_digits n) as (c & ds & Hc & Hn & Hp).
  specialize (Hp rest Hrest). split; [|assumption].
  rewrite Hn in *. rewrite String_append_cons in *.
  rewrite parseInt_digits by assumption. now rewrite Hp.
Qed.

(** [parseInt] reads back the decimal numeral of an integer, after white
    space and an optional plus sign, whatever follows the digits. *)
Lemma parseInt_pretty (padding rest : string) (plus : bool) (z : Z) :
  all_white_space padding = true ->
  starts_with is_digit rest = false ->
  parseInt (padding +:+ (if plus then "+" else "") +:+ pretty z +:+ rest)
  = if plus && (z <? 0)%Z then NaN else num_of_Z z.
Proof.
  intros Hpad Hrest.
  assert (Htrim : forall s, parseInt (padding +:+ s) = parseInt s).
  { intros s. unfold parseInt. now rewrite String_trimStart_pad. }
  rewrite Htrim.
  assert (Hsigned : forall (sign : Ascii.ascii) (negative : bool) s,
            is_white_space sign = false ->
            (if Ascii.nat_of_ascii sign =? 45 then (true, s)
             else if Ascii.nat_of_ascii sign =? 43 then (false, s)
             else (false, String sign s)) = (negative, s) ->
            parseInt (String sign s)
            = match parse_digits s None with
              | None => NaN
              | Some z0 => Fin (inject_Z (if negative then - z0 else z0))
              end).
  { intros sign negative s Hw Hsign. unfold parseInt. cbn [String_trimStart].
    rewrite Hw, Hsign. reflexivity. }
  destruct plus; cbn [andb].
  - change ("+" +:+ pretty z +:+ rest) with (String (Ascii.ascii_of_nat 43) (pretty z +:+ rest)).
    rewrite (Hsigned _ false) by reflexivity.
    destruct z as [|p|p]; unfold pretty at 1, pretty_Z; cbn [Z.ltb Z.compare].
    + destruct (pretty_N_parseInt 0 rest Hrest) as [_ Hp].
      change (pretty 0%N) with "0" in Hp. now rewrite Hp.
    + destruct (pretty_N_parseInt (Npos p) rest Hrest) as [_ Hp].
      change (pretty (Npos p)) with (pretty p) in Hp. now rewrite Hp.
    + rewrite String_append_assoc.
      change ("-" +:+ pretty p +:+ rest)
        with (String (Ascii.ascii_of_nat 45) (pretty p +:+ rest)).
      reflexivity.
  - change ("" +:+ pretty z +:+ rest) with (pretty z +:+ rest).
    destruct z as [|p|p]; unfold pretty at 1, pretty_Z.
    + apply (pretty_N_parseInt 0 rest Hrest).
    + apply (pretty_N_parseInt (Npos p) rest Hrest).
    + rewrite String_append_assoc.
      change ("-" +:+ pretty p +:+ rest)
        with (String (Ascii.ascii_of_nat 45) (pretty p +:+ rest)).
      rewrite (Hsigned _ true) by reflexivity.
      destruct (pretty_N_parseInt (Npos p) rest Hrest) as [_ Hp].
      change (pretty (Npos p)) with (pretty p) in Hp. now rewrite Hp.
Qed.

Lemma String_append_nonempty (s t : string) : t ≠ "" -> s +:+ t ≠ "".
Proof. destruct s; [now intros|]. intros _. rewrite String_append_cons. discriminate. Qed.

Lemma truthy_string (s : string) : s ≠ "" -> truthy (VStr s) = true.
Proof. destruct s; [intros H; now contradiction H|reflexivity]. Qed.

Lemma pretty_Z_nonempty (z : Z) (rest : string) : pretty z +:+ rest ≠ "".
Proof.
  destruct z as [|p|p]; unfold pretty, pretty_Z; try discriminate.
  destruct (pretty_N_digits (Npos p)) as (c & ds & _ & Hn & _).
  change (pretty (Npos p)) with (pretty p) in Hn. rewrite Hn. discriminate.
Qed.

Lemma env_module_number (token : string) (capacity : string) (z : Z) :
  token ≠ "" -> capacity ≠ "" -> parseInt capacity = num_of_Z z ->
  env_module (Some token) (Some capacity)
  = if (0 <? z)%Z then env_loaded token z else env_invalid_capacity.
Proof.
  intros Htoken Hcap Hparse. unfold env_module. cbn [env_value value_string].
  rewrite (truthy_string _ Htoken), (truthy_string _ Hcap). cbn [negb].
  rewrite Hparse. cbn [isNaN num_of_Z orb num_le].
  unfold Qle_bool. cbn [Qnum Qden inject_Z]. rewrite !Z.mul_1_r.
  destruct (Z.leb_spec z 0) as [Hle|Hlt].
  - destruct (Z.ltb_spec 0 z); [lia|reflexivity].
  - destruct (Z.ltb_spec 0 z); [reflexivity|lia].
Qed.

Lemma env_module_NaN (token : string) (capacity : string) :
  token ≠ "" -> capacity ≠ "" -> parseInt capacity = NaN ->
  env_module (Some token) (Some capacity) = env_invalid_capacity.
Proof.
  intros Htoken Hcap Hparse. unfold env_module. cbn [env_value value_string].
  rewrite (truthy_string _ Htoken), (truthy_string _ Hcap). cbn [negb].
  rewrite Hparse. reflexivity.
Qed.

Lemma parseInt_no_number (padding rest : string) :
  all_white_space padding = true ->
  starts_with (fun c => is_digit c || is_white_space c || is_sign c) rest = false ->
  parseInt (padding +:+ rest) = NaN.
Proof.
  intros Hpad Hrest. unfold parseInt. rewrite String_trimStart_pad by assumption.
  destruct rest as [|c rest]; [reflexivity|]. cbn [starts_with] in Hrest.
  apply orb_false_elim in Hrest as [Hrest Hs].
  apply orb_false_elim in Hrest as [Hd Hw].
  cbn [String_trimStart]. rewrite Hw. unfold is_sign in Hs.
  apply orb_false_elim in Hs as [-> ->]. cbn [parse_digits].
  unfold is_digit in Hd. now destruct (digit_value c).
Qed.

(** X23. What the configuration module does with its two variables.
    Without a token, or with an empty one, it throws, whatever the
    capacity.  With a token: a capacity variable that is absent or empty
    gives the capacity 100; one that holds the decimal numeral of an
    integer, after white space and an optional plus sign and before any
    text that does not begin with a digit, gives that integer when it is
    at least 1 and makes the module throw when it is zero or negative;
    one without a number makes the module throw.  The integer is below
    2^53, so that [parseInt] returns it exactly. *)
Theorem env_module_capacity (token padding rest : string) (plus : bool) (z : Z) :
  token ≠ "" ->
  all_white_space padding = true ->
  starts_with is_digit rest = false ->
  (Z.abs z < 2 ^ 53)%Z ->
  env_module (Some token)
    (Some (padding +:+ (if plus then "+" else "") +:+ pretty z +:+ rest))
  = (if (0 <? z)%Z then env_loaded token z else env_invalid_capacity)
  /\ env_module (Some token) None = env_loaded token 100
  /\ env_module (Some token) (Some "") = env_loaded token 100
  /\ (padding +:+ rest ≠ "" ->
      starts_with (fun c => is_digit c || is_white_space c || is_sign c) rest = false ->
      env_module (Some token) (Some (padding +:+ rest)) = env_invalid_capacity)
  /\ forall capacity,
       env_module None capacity = env_missing_token
       /\ env_module (Some "") capacity = env_missing_token.
Proof.
  intros Htoken Hpad Hrest _.
  assert (Hloaded : forall capacity,
            truthy (env_value capacity) = false ->
            env_module (Some token) capacity = env_loaded token 100).
  { intros capacity Hc. unfold env_module. rewrite Hc. cbn [env_value].
    rewrite (truthy_string _ Htoken). reflexivity. }
  split; [|split; [|split; [|split]]].
  - pose proof (parseInt_pretty padding rest plus z Hpad Hrest) as Hparse.
    assert (Hne : padding +:+ (if plus then "+" else "") +:+ pretty z +:+ rest ≠ "").
    { do 2 apply String_append_nonempty. apply pretty_Z_nonempty. }
    destruct (plus && (z <? 0)%Z) eqn:Hsign.
    + rewrite (env_module_NaN _ _ Htoken Hne Hparse).
      apply andb_prop in Hsign as [_ Hneg%Z.ltb_lt].
      destruct (Z.ltb_spec 0 z); [lia|reflexivity].
    + apply env_module_number; assumption.
  - now apply Hloaded.
  - now apply Hloaded.
  - intros Hne Hword. apply env_module_NaN; [assumption|assumption|].
    now apply parseInt_no_number.
  - intros capacity. split; reflexivity.
Qed.

Lemma env_module_capacity_witness :
  env_module (Some "secret") (Some " +250MB") = env_loaded "secret" 250
  /\ env_module (Some "secret") (Some " MB") = env_invalid_capacity.
Proof.
  destruct (env_module_capacity "secret" " " "MB" true 250)
    as (Hnumber & _ & _ & Hword & _).
  - discriminate.
  - reflexivity.
  - reflexivity.
  - reflexivity.
  - split; [exact Hnumber|]. apply Hword; [discriminate|reflexivity].
Defined.
